(** * Connection wrappers of shadowsocks-go: RemainConn, ObfsConn, DelayConn

    A shallow embedding of the connection-wrapping layer (the file that
    declares [DelayConn], [ObfsConn] and [RemainConn]) together with the
    properties of its chunk framing, its graceful close and its write
    coalescing.

    Conventions of the embedding.
    - A Go [[]byte] is a [list Byte.byte]; a caller-owned buffer that the
      code re-slices is a [slice] that also records the spare capacity
      behind [len].
    - Go [int] values that can leave the non-negative range ([chunkLen],
      the [n] a read returns) are [Z], with the 64-bit wrap-around written
      out where the code adds; lengths and offsets that the code keeps
      non-negative are [nat].
    - The underlying [net.Conn] is a scripted environment: the list of
      things future [Read] calls will find, the outcomes of future [Write]
      calls, and a log of every call made on it.
    - A run-time panic (slice bounds, index out of range) is the outcome
      [Panics]; a Go [error] is an [option error].
    - Loops whose trip count depends on the connection carry fuel; the
      entry points supply one more unit of fuel than the connection has
      bytes and events, and the development proves that this is enough. *)

From Stdlib Require Import ZArith List Bool Lia Arith.
From Stdlib Require Import Strings.Byte.
Import ListNotations.

Set Implicit Arguments.

(* ------------------------------------------------------------------ *)
(** ** Bytes *)

Definition byte := Byte.byte.
Definition bytes := list byte.

Definition byte_eqb (a b : byte) : bool := Byte.eqb a b.

Fixpoint bytes_eqb (a b : bytes) : bool :=
  match a, b with
  | [], [] => true
  | x :: a', y :: b' => byte_eqb x y && bytes_eqb a' b'
  | _, _ => false
  end.

Definition CR : byte := x0d.
Definition LF : byte := x0a.

(** The numeric value of a byte, for range tests such as [c >= '0']. *)
Definition code (c : byte) : Z := Z.of_N (Byte.to_N c).

Definition in_range (lo hi c : byte) : bool :=
  (code lo <=? code c)%Z && (code c <=? code hi)%Z.

(** The disguise method token ["POST"]. *)
Definition POST : bytes := [x50; x4f; x53; x54].

(* ------------------------------------------------------------------ *)
(** ** Errors

    One constructor per error value the code creates or can receive. *)

Inductive error : Type :=
| ErrShortRead                 (* fmt.Errorf("short read") *)
| ErrLengthChar (c : byte)     (* fmt.Errorf("unexcepted length character", string(c)) *)
| ErrIncorrectChunked          (* fmt.Errorf("incorrect chunked data") *)
| ErrClosedObfs                (* fmt.Errorf("read from closed obfsconn") *)
| ErrReadClosed                (* fmt.Errorf("read from closed connection") *)
| ErrConcurrentRead            (* fmt.Errorf("concurrent read") *)
| ErrUnexpectedHeader          (* fmt.Errorf("unexpected obfs header from ...") *)
| ErrSyntax                    (* strconv.ErrSyntax *)
| ErrRange                     (* strconv.ErrRange *)
| ErrEOF                       (* io.EOF *)
| ErrUnexpectedEOF             (* io.ErrUnexpectedEOF *)
| ErrExternal (tag : nat).     (* any error of a collaborator: network, pool, header parser *)


Definition is_framing_error (e : error) : bool :=
  match e with
  | ErrShortRead | ErrLengthChar _ | ErrIncorrectChunked => true
  | _ => false
  end.

(** Outcome of a call that may panic. *)
Inductive outcome (A : Type) : Type :=
| Returns (a : A)
| Panics.
Arguments Panics {A}.

(* ------------------------------------------------------------------ *)
(** ** Go integers *)

Definition int_min : Z := - 2 ^ 63.
Definition int_max : Z := 2 ^ 63 - 1.

(** Two's-complement wrap-around of a 64-bit [int]. *)
Definition wrap_int (z : Z) : Z := (z + 2 ^ 63) mod 2 ^ 64 - 2 ^ 63.

(* ------------------------------------------------------------------ *)
(** ** [fmt.Sprintf("%x", n)] and [strconv.ParseInt(s, 16, 0)] *)

Definition hexdigit (d : Z) : byte :=
  nth (Z.to_nat d)
      [x30; x31; x32; x33; x34; x35; x36; x37; x38; x39;
       x61; x62; x63; x64; x65; x66] x30.

(** The digit loop of fmt's integer formatter: least significant digit
    first, prepended to what has been produced.  A 64-bit value has at most
    16 hexadecimal digits, which is the fuel [fmt_x] supplies. *)
Fixpoint hex_loop (fuel : nat) (n : Z) (acc : bytes) : bytes :=
  match fuel with
  | O => acc
  | S fuel' =>
      let acc' := hexdigit (n mod 16) :: acc in
      if (n / 16 =? 0)%Z then acc' else hex_loop fuel' (n / 16) acc'
  end.

Definition fmt_x (n : Z) : bytes :=
  if (n <? 0)%Z then x2d :: hex_loop 16 (- n) [] else hex_loop 16 n [].

(** Value of a digit in base 16, as strconv reads it (both cases). *)
Definition hexval (c : byte) : option Z :=
  if in_range x30 x39 c then Some (code c - 48)%Z
  else if in_range x61 x66 c then Some (code c - 87)%Z
  else if in_range x41 x46 c then Some (code c - 55)%Z
  else None.

(** One step of [strconv.ParseUint]: a bad character is a syntax error,
    a value that leaves 64 bits is a range error; the first problem met
    wins. *)
Definition parse_step (acc : Z + error) (c : byte) : Z + error :=
  match acc with
  | inr e => inr e
  | inl v =>
      match hexval c with
      | None => inr ErrSyntax
      | Some d =>
          let v' := (v * 16 + d)%Z in
          if (2 ^ 64 <=? v')%Z then inr ErrRange else inl v'
      end
  end.

Definition ParseUint16 (s : bytes) : Z + error :=
  match s with
  | [] => inr ErrSyntax
  | _ => fold_left parse_step s (inl 0%Z)
  end.

Definition ParseInt16 (s : bytes) : Z + error :=
  match s with
  | [] => inr ErrSyntax
  | c :: rest =>
      let neg := byte_eqb c x2d in
      let body := if neg || byte_eqb c x2b then rest else s in
      match ParseUint16 body with
      | inr e => inr e
      | inl un =>
          if negb neg && (2 ^ 63 <=? un)%Z then inr ErrRange
          else if neg && (2 ^ 63 <? un)%Z then inr ErrRange
          else inl (if neg then (- un)%Z else un)
      end
  end.

(* ------------------------------------------------------------------ *)
(** ** Slices and [copy] *)

(** A caller-owned [[]byte]: [vis] is the part below [len], [spare] the
    part of the backing array between [len] and [cap].  Re-slicing [b[:k]]
    is legal up to [cap]. *)
Record slice : Type := Slice { vis : bytes; spare : bytes }.

Definition slen (b : slice) : nat := length (vis b).
Definition scap (b : slice) : nat := length (vis b) + length (spare b).

(** [make([]byte, k)]. *)
Definition make (k : nat) : bytes := repeat x00 k.
Definition make_slice (k : nat) : slice := Slice (make k) [].

(** The effect on [b] of a read into [b[:k]] that delivered [data]: the
    bytes land at the start of the backing array, [len(b)] is unchanged. *)
Definition store (data : bytes) (b : slice) : slice :=
  let arr := data ++ skipn (length data) (vis b ++ spare b) in
  Slice (firstn (slen b) arr) (skipn (slen b) arr).

(** [copy(dst[off:], src)]: the new [dst] and the number of bytes copied. *)
Definition copy_at (dst : bytes) (off : nat) (src : bytes) : bytes * nat :=
  let n := Nat.min (length dst - off) (length src) in
  (firstn off dst ++ firstn n src ++ skipn (off + n) dst, n).

(** [dst[i] = v]; [None] is the index-out-of-range panic. *)
Definition set_at (i : nat) (v : byte) (dst : bytes) : option bytes :=
  if i <? length dst then Some (firstn i dst ++ v :: skipn (S i) dst) else None.

(* ------------------------------------------------------------------ *)
(** ** The underlying [net.Conn] *)

Inductive rd_event : Type :=
| RdData (seg : bytes)     (* bytes that arrive together; an empty one is a read of 0 bytes, nil error *)
| RdErr (e : error).       (* a read that fails *)

Record NetConn : Type := MkNetConn {
  inbound   : list rd_event;             (* what future Read calls will find *)
  wr_script : list (option (nat * error)); (* outcome of future Write calls; none left: success *)
  wlog      : list bytes;                (* argument of every Write call, in order *)
  reads     : nat;                       (* number of Read calls made *)
  closes    : nat;                       (* number of Close calls made *)
  close_err : option error               (* what Close returns *)
}.

(** Result of a read: the count [n] the call returns, the bytes it put at
    the start of the buffer it was given, its error, the new state. *)
Record rd (S : Type) : Type := Rd {
  rd_n : Z; rd_data : bytes; rd_err : option error; rd_st : S
}.

(** Result of a write. *)
Record wr (S : Type) : Type := Wr {
  wr_n : Z; wr_err : option error; wr_st : S
}.

Definition blen (b : bytes) : Z := Z.of_nat (length b).

Definition conn_Read (k : nat) (c : NetConn) : rd NetConn :=
  let upd evs :=
    MkNetConn evs (wr_script c) (wlog c) (S (reads c)) (closes c) (close_err c) in
  match inbound c with
  | [] => Rd 0 [] (Some ErrEOF) (upd [])
  | RdErr e :: evs => Rd 0 [] (Some e) (upd evs)
  | RdData seg :: evs =>
      let data := firstn k seg in
      match skipn k seg with
      | [] => Rd (blen data) data None (upd evs)
      | rest => Rd (blen data) data None (upd (RdData rest :: evs))
      end
  end.

Definition conn_Write (b : bytes) (c : NetConn) : wr NetConn :=
  let upd scr :=
    MkNetConn (inbound c) scr (wlog c ++ [b]) (reads c) (closes c) (close_err c) in
  match wr_script c with
  | [] => Wr (blen b) None (upd [])
  | None :: scr => Wr (blen b) None (upd scr)
  | Some (sent, e) :: scr => Wr (Z.of_nat (Nat.min sent (length b))) (Some e) (upd scr)
  end.

Definition conn_Close (c : NetConn) : option error * NetConn :=
  (close_err c,
   MkNetConn (inbound c) (wr_script c) (wlog c) (reads c) (S (closes c)) (close_err c)).

(** Bytes and events still ahead on the connection: the measure that
    bounds every read loop. *)
Fixpoint events_weight (evs : list rd_event) : nat :=
  match evs with
  | [] => 0
  | RdData seg :: evs' => S (length seg + events_weight evs')
  | RdErr _ :: evs' => S (events_weight evs')
  end.

(* ------------------------------------------------------------------ *)
(** ** RemainConn *)

Record RemainConn : Type := MkRemainConn {
  conn    : NetConn;
  remain  : bytes;
  wremain : bytes
}.

Definition rc_weight (c : RemainConn) : nat :=
  length (remain c) + events_weight (inbound (conn c)).

Definition RemainConn_Read (k : nat) (c : RemainConn) : rd RemainConn :=
  match remain c with
  | [] =>
      let r := conn_Read k (conn c) in
      Rd (rd_n r) (rd_data r) (rd_err r) (MkRemainConn (rd_st r) (remain c) (wremain c))
  | _ =>
      let data := firstn k (remain c) in          (* n = copy(b, c.remain) *)
      let n := length data in
      let remain' := if n =? length (remain c) then [] else skipn n (remain c) in
      Rd (Z.of_nat n) data None (MkRemainConn (conn c) remain' (wremain c))
  end.

Definition RemainConn_Write (b : bytes) (c : RemainConn) : wr RemainConn :=
  match wremain c with
  | [] =>
      let r := conn_Write b (conn c) in
      Wr (wr_n r) (wr_err r) (MkRemainConn (wr_st r) (remain c) (wremain c))
  | _ =>
      let r := conn_Write (wremain c ++ b) (conn c) in   (* append(c.wremain, b...) *)
      match wr_err r with
      | Some e => Wr 0 (Some e) (MkRemainConn (wr_st r) (remain c) (wremain c))
      | None => Wr (blen b) None (MkRemainConn (wr_st r) (remain c) [])
      end
  end.

Definition RemainConn_Close (c : RemainConn) : option error * RemainConn :=
  let '(e, nc) := conn_Close (conn c) in
  (e, MkRemainConn nc (remain c) (wremain c)).

(** [io.ReadFull(r, buf)] is [io.ReadAtLeast(r, buf, len(buf))]: read into
    the unfilled rest of [buf] until it is full or a read fails. *)
Fixpoint ReadAtLeast_loop (fuel size got : nat) (c : RemainConn)
  : option (nat * option error * RemainConn) :=
  match fuel with
  | O => if size <=? got then Some (got, None, c) else None
  | S fuel' =>
      if size <=? got then Some (got, None, c)
      else
        let r := RemainConn_Read (size - got) c in
        let got' := got + length (rd_data r) in
        match rd_err r with
        | Some e => Some (got', Some e, rd_st r)
        | None => ReadAtLeast_loop fuel' size got' (rd_st r)
        end
  end.

Definition ReadFull (fuel size : nat) (c : RemainConn)
  : option (nat * option error * RemainConn) :=
  match ReadAtLeast_loop fuel size 0 c with
  | None => None
  | Some (n, err, c') =>
      if size <=? n then Some (n, None, c')
      else match err with
           | Some ErrEOF => Some (n, Some (if 0 <? n then ErrUnexpectedEOF else ErrEOF), c')
           | _ => Some (n, err, c')
           end
  end.

(* ------------------------------------------------------------------ *)
(** ** ObfsConn, the pool, DelayConn: the data *)

(** A [*ConnPool] is the address of a pool. *)
Definition PoolRef := nat.

Record ObfsConn : Type := MkObfsConn {
  rc       : RemainConn;       (* the embedded RemainConn *)
  resp     : bool;
  req      : bool;
  chunkLen : Z;
  pool     : option PoolRef;
  eos      : bool;
  reading  : bool;
  destroy  : bool
}.

(** [NewObfsConn(conn)]. *)
Definition NewObfsConn (nc : NetConn) : ObfsConn :=
  MkObfsConn (MkRemainConn nc [] []) false false 0 None false false false.

Definition set_rc (c : ObfsConn) (r : RemainConn) : ObfsConn :=
  MkObfsConn r (resp c) (req c) (chunkLen c) (pool c) (eos c) (reading c) (destroy c).
Definition set_chunkLen (c : ObfsConn) (z : Z) : ObfsConn :=
  MkObfsConn (rc c) (resp c) (req c) z (pool c) (eos c) (reading c) (destroy c).
Definition set_eos (c : ObfsConn) (v : bool) : ObfsConn :=
  MkObfsConn (rc c) (resp c) (req c) (chunkLen c) (pool c) v (reading c) (destroy c).
Definition set_reading (c : ObfsConn) (v : bool) : ObfsConn :=
  MkObfsConn (rc c) (resp c) (req c) (chunkLen c) (pool c) (eos c) v (destroy c).
Definition set_destroy (c : ObfsConn) (v : bool) : ObfsConn :=
  MkObfsConn (rc c) (resp c) (req c) (chunkLen c) (pool c) (eos c) (reading c) v.
Definition clear_roles (c : ObfsConn) : ObfsConn :=
  MkObfsConn (rc c) false false (chunkLen c) (pool c) (eos c) (reading c) (destroy c).

(** The pool is a collaborator used through [Put] only: the outcomes of
    future [Put] calls and the log of what was submitted. *)
Record ConnPool : Type := MkConnPool {
  put_script : list (option error);
  put_calls  : list ObfsConn
}.

Definition pool_Put (x : ObfsConn) (p : ConnPool) : option error * ConnPool :=
  match put_script p with
  | [] => (None, MkConnPool [] (put_calls p ++ [x]))
  | r :: scr => (r, MkConnPool scr (put_calls p ++ [x]))
  end.

Record DelayConn : Type := MkDelayConn {
  dconn      : NetConn;
  wbuf       : bytes;     (* the [buffersize]byte array *)
  off        : nat;
  started    : bool;
  destroyed  : bool;
  die_closed : bool;      (* close(c.die) has run *)
  loops      : nat;       (* goroutines started with go c.sendLoop() *)
  signals    : nat;       (* calls of c.cond.Signal() *)
  broadcasts : nat        (* calls of c.cond.Broadcast() *)
}.

(** A listener, as far as the accept handler looks into it: [lis.c.pool]. *)
Record Config : Type := MkConfig { cfg_pool : option PoolRef }.
Record listener : Type := MkListener { lis_c : Config }.

(* ------------------------------------------------------------------ *)
(** ** Declarations of the package that live in other files

    The buffer size constant, the HTTP header parsers and the header
    builder are used by the code below and declared elsewhere; they are
    parameters of the development. *)

Class Extern : Type := {
  buffersize : nat;
  parser : Type;
  newHTTPReplyParser : parser;
  newHTTPRequestParser : parser;
  (* parser.read(byte) (ok bool, err error), with the parser's new state *)
  parser_read : parser -> byte -> parser * (bool * option error);
  buildHTTPResponse : bytes -> bytes
}.

(* ------------------------------------------------------------------ *)
(** ** ObfsConn: reading *)

Definition is_some {A : Type} (o : option A) : bool :=
  match o with Some _ => true | None => false end.

(** The character test of the chunk-length scanner:
    [(c >= '0' && c <= '9') || (c >= 'a' && c <= 'f')]. *)
Definition is_length_digit (c : byte) : bool :=
  in_range x30 x39 c || in_range x61 x66 c.

(** What a call hands back to its caller. *)
Record ret : Type := Ret {
  ret_n : Z; ret_err : option error; ret_buf : slice; ret_conn : ObfsConn
}.

(** How the chunk-length loop is left. *)
Inductive hdr : Type :=
| HdrLine (digits : bytes) (n : Z) (b : slice) (c : ObfsConn)  (* break at '\n' *)
| HdrFail (r : ret)                                           (* a return inside the loop *)
| HdrPanic.

Section Framer.

Context {E : Extern}.

(** The loop [for ; it < n && !ok && err == nil; it++ { ok, err = parser.read(buf[it]) }]
    over the bytes [buf[it:n]]: the final [it], [ok] and [err]. *)
Fixpoint feed (p : parser) (data : bytes) (it : nat) : nat * (bool * option error) :=
  match data with
  | [] => (it, (false, None))
  | x :: rest =>
      let '(p', (ok, err)) := parser_read p x in
      if ok || is_some err then (S it, (ok, err)) else feed p' rest (S it)
  end.

Definition readObfsHeader (k : nat) (c : ObfsConn) : rd ObfsConn :=
  let r := RemainConn_Read buffersize (rc c) in
  let c1 := set_rc c (rd_st r) in
  match rd_err r with
  | Some e => Rd (rd_n r) [] (Some e) c1
  | None =>
      if (rd_n r =? 0)%Z then Rd 0 [] (Some ErrShortRead) c1
      else
        let '(it, (ok, err)) :=
          if resp c then feed newHTTPReplyParser (rd_data r) 0
          else if req c then feed newHTTPRequestParser (rd_data r) 0
          else (0, (false, None)) in
        match err with
        | Some e => Rd (rd_n r) [] (Some e) c1
        | None =>
            if negb ok then Rd (rd_n r) [] (Some ErrUnexpectedHeader) c1
            else
              let c2 := clear_roles c1 in
              match skipn it (rd_data r) with            (* remain := buf[it:n] *)
              | [] => Rd 0 [] None c2
              | rest =>
                  let data := firstn k rest in              (* n = copy(b, remain) *)
                  let n := length data in
                  let c3 :=
                    if n <? length rest
                    then set_rc c2 (MkRemainConn (conn (rc c2))
                                      (remain (rc c2) ++ skipn n rest)
                                      (wremain (rc c2)))
                    else c2 in
                  Rd (Z.of_nat n) data None c3
              end
        end
  end.

Definition doRead (k : nat) (c : ObfsConn) : rd ObfsConn :=
  let plain c0 :=
    let r := RemainConn_Read k (rc c0) in
    Rd (rd_n r) (rd_data r) (rd_err r) (set_rc c0 (rd_st r)) in
  if req c || resp c then
    let r := readObfsHeader k c in
    if is_some (rd_err r) || negb (rd_n r =? 0)%Z then r
    else plain (rd_st r)
  else plain c.

(** [doRead(b[:k])] on the caller's buffer: re-slicing beyond the
    capacity panics; otherwise the bytes read land in [b]. *)
Definition doReadInto (k : nat) (b : slice) (c : ObfsConn)
  : outcome (rd ObfsConn * slice) :=
  if scap b <? k then Panics
  else let r := doRead k c in Returns (r, store (rd_data r) b).

(** The [for] loop that collects the chunk-length line, one byte per
    iteration, [acc] being [chunkLenStr]. *)
Fixpoint readChunkLine (fuel : nat) (acc : bytes) (b : slice) (c : ObfsConn)
  : option hdr :=
  match fuel with
  | O => None
  | S fuel' =>
      match doReadInto 1 b c with
      | Panics => Some HdrPanic
      | Returns (r, b1) =>
          let c1 := rd_st r in
          match rd_err r with
          | Some e => Some (HdrFail (Ret (rd_n r) (Some e) b1 c1))
          | None =>
              if (rd_n r =? 0)%Z
              then Some (HdrFail (Ret (rd_n r) (Some ErrShortRead) b1 c1))
              else
                match vis b1 with
                | [] => Some HdrPanic                         (* b[0] *)
                | ch :: _ =>
                    if is_length_digit ch
                    then readChunkLine fuel' (acc ++ [ch]) b1 c1
                    else if byte_eqb ch CR
                    then readChunkLine fuel' acc b1 c1
                    else if byte_eqb ch LF
                    then Some (HdrLine acc (rd_n r) b1 c1)
                    else Some (HdrFail (Ret (rd_n r) (Some (ErrLengthChar ch)) b1 c1))
                end
          end
      end
  end.

(** The three stages of [readInLock] after the empty-buffer test.  Each
    either returns from the function ([inr]) or falls through to the next
    stage with the current [n], buffer and connection ([inl]). *)
Definition stage := option ((Z * slice * ObfsConn) + outcome ret).

(** [if c.chunkLen <= 2 && c.chunkLen > 0]: swallow the rest of a trailer. *)
Definition trailer_stage (n : Z) (b : slice) (c : ObfsConn) : stage :=
  if (chunkLen c <=? 2)%Z && (0 <? chunkLen c)%Z then
    match doReadInto (Z.to_nat (chunkLen c)) b c with
    | Panics => Some (inr Panics)
    | Returns (r, b1) =>
        match rd_err r with
        | Some e => Some (inr (Returns (Ret n (Some e) b1 (rd_st r))))
        | None => Some (inl (n, b1, set_chunkLen (rd_st r) 0))
        end
    end
  else Some (inl (n, b, c)).

(** [if c.chunkLen == 0]: read and parse a chunk-length line. *)
Definition header_stage (fuel : nat) (n : Z) (b : slice) (c : ObfsConn) : stage :=
  if (chunkLen c =? 0)%Z then
    match readChunkLine fuel [] b c with
    | None => None
    | Some HdrPanic => Some (inr Panics)
    | Some (HdrFail r) => Some (inr (Returns r))
    | Some (HdrLine digits n1 b1 c1) =>
        match digits with
        | [] => Some (inr (Returns (Ret n1 (Some ErrIncorrectChunked) b1 c1)))
        | _ =>
            match ParseInt16 digits with
            | inr e => Some (inr (Returns (Ret n1 (Some e) b1 c1)))
            | inl i => Some (inl (n1, b1, set_chunkLen c1 (wrap_int (i + 2))))
            end
        end
    end
  else Some (inl (n, b, c)).

(** [if c.chunkLen == 2]: the chunk is empty, this is the end-of-stream
    marker; its two trailing bytes are read with [io.ReadFull] straight
    from the RemainConn. *)
Definition marker_stage (fuel : nat) (n : Z) (b : slice) (c : ObfsConn) : stage :=
  if (chunkLen c =? 2)%Z then
    match ReadFull fuel 2 (rc c) with
    | None => None
    | Some (_, Some e, rc') => Some (inr (Returns (Ret n (Some e) b (set_rc c rc'))))
    | Some (_, None, rc') =>
        Some (inr (Returns (Ret 0 (Some ErrClosedObfs) b (set_eos (set_rc c rc') true))))
    end
  else Some (inl (n, b, c)).

(** The payload read that ends the function. *)
Definition payload_stage (b : slice) (c : ObfsConn) : outcome ret :=
  let k := if (chunkLen c >? Z.of_nat (slen b))%Z then Some (slen b)
           else if (chunkLen c <? 0)%Z then None       (* b[:c.chunkLen] *)
           else Some (Z.to_nat (chunkLen c)) in
  match k with
  | None => Panics
  | Some k =>
      match doReadInto k b c with
      | Panics => Panics
      | Returns (r, b1) =>
          match rd_err r with
          | Some e => Returns (Ret (rd_n r) (Some e) b1 (rd_st r))
          | None =>
              let cl := (chunkLen (rd_st r) - rd_n r)%Z in
              let n := if (cl <? 2)%Z then (rd_n r - (2 - cl))%Z else rd_n r in
              Returns (Ret n None b1 (set_chunkLen (rd_st r) cl))
          end
      end
  end.

Definition readInLock_fuel (fuel : nat) (b : slice) (c : ObfsConn)
  : option (outcome ret) :=
  if slen b =? 0 then Some (Returns (Ret 0 None b c))
  else
    match trailer_stage 0 b c with
    | None => None
    | Some (inr out) => Some out
    | Some (inl (n1, b1, c1)) =>
        match header_stage fuel n1 b1 c1 with
        | None => None
        | Some (inr out) => Some out
        | Some (inl (n2, b2, c2)) =>
            match marker_stage fuel n2 b2 c2 with
            | None => None
            | Some (inr out) => Some out
            | Some (inl (_, b3, c3)) => Some (payload_stage b3 c3)
            end
        end
    end.

Definition readInLock (b : slice) (c : ObfsConn) : option (outcome ret) :=
  readInLock_fuel (S (rc_weight (rc c))) b c.

(** [Read]: the two guards are tested and [reading] is set in one
    critical section; the deferred function clears [reading] on the way
    out. *)
Definition ObfsConn_Read (b : slice) (c : ObfsConn) : option (outcome ret) :=
  if destroy c then Some (Returns (Ret 0 (Some ErrReadClosed) b c))
  else if reading c then Some (Returns (Ret 0 (Some ErrConcurrentRead) b c))
  else
    match readInLock b (set_reading c true) with
    | None => None
    | Some Panics => Some Panics
    | Some (Returns r) =>
        Some (Returns (Ret (ret_n r) (ret_err r) (ret_buf r)
                           (set_reading (ret_conn r) false)))
    end.

(* ------------------------------------------------------------------ *)
(** ** ObfsConn: writing and closing *)

Definition ObfsConn_Write (b : bytes) (c : ObfsConn) : outcome (wr ObfsConn) :=
  let n := length b in
  let wbuf0 := make (n + 16) in
  let '(wbuf1, len1) := copy_at wbuf0 0 (fmt_x (Z.of_nat n) ++ [CR; LF]) in
  let '(wbuf2, _) := copy_at wbuf1 len1 b in
  let len2 := len1 + n in
  match set_at len2 CR wbuf2 with
  | None => Panics
  | Some wbuf3 =>
      match set_at (len2 + 1) LF wbuf3 with
      | None => Panics
      | Some wbuf4 =>
          if length wbuf4 <? len2 + 2 then Panics             (* wbuf[:length+2] *)
          else
            let r := RemainConn_Write (firstn (len2 + 2) wbuf4) (rc c) in
            Returns (Wr (if is_some (wr_err r) then 0%Z else Z.of_nat n)
                        (wr_err r) (set_rc c (wr_st r)))
      end
  end.

(** The wire form of one chunk. *)
Definition frame (b : bytes) : bytes :=
  fmt_x (blen b) ++ [CR; LF] ++ b ++ [CR; LF].

(** How the drain loop of [Close] is left. *)
Inductive drained : Type :=
| DrainEos (c : ObfsConn)      (* break: the peer's end-of-stream marker has been seen *)
| DrainErr (c : ObfsConn)      (* a read failed before the marker *)
| DrainWaits (c : ObfsConn)    (* a Read is in flight: the closer waits on rlock *)
| DrainPanics.

Fixpoint drain (fuel : nat) (b : slice) (c : ObfsConn) : option drained :=
  match fuel with
  | O => None
  | S fuel' =>
      if eos c then Some (DrainEos c)
      else if reading c then Some (DrainWaits c)
      else
        match readInLock b c with
        | None => None
        | Some Panics => Some DrainPanics
        | Some (Returns r) =>
            match ret_err r with
            | Some _ =>
                if eos (ret_conn r) then Some (DrainEos (ret_conn r))
                else Some (DrainErr (ret_conn r))
            | None => drain fuel' (ret_buf r) (ret_conn r)
            end
        end
  end.

(** The framer handed to the pool: [&ObfsConn{RemainConn: c.RemainConn, pool: c.pool}]. *)
Definition fresh_framer (c : ObfsConn) : ObfsConn :=
  MkObfsConn (rc c) false false 0 (pool c) false false false.

(** How [Close] ends.  In [CloseWaits] the closer is blocked on [rlock]
    until the Read in flight returns, which no step of this call can bring
    about. *)
Inductive closed : Type :=
| CloseDone (err : option error) (c : ObfsConn) (p : ConnPool)
| CloseWaits (c : ObfsConn) (p : ConnPool)
| ClosePanics.

Definition hard_close (c : ObfsConn) (p : ConnPool) : closed :=
  let '(e, rc') := RemainConn_Close (rc c) in CloseDone e (set_rc c rc') p.

(** [Close], with [p] the pool that [c.pool] points to. *)
Definition ObfsConn_Close (c : ObfsConn) (p : ConnPool) : option closed :=
  if destroy c then Some (CloseDone None c p)
  else
    let c1 := set_destroy c true in
    match pool c1 with
    | None => Some (hard_close c1 p)
    | Some _ =>
        match ObfsConn_Write [] c1 with
        | Panics => Some ClosePanics
        | Returns w =>
            let c2 := wr_st w in
            match wr_err w with
            | Some _ => Some (hard_close c2 p)
            | None =>
                match drain (S (rc_weight (rc c2))) (make_slice buffersize) c2 with
                | None => None
                | Some DrainPanics => Some ClosePanics
                | Some (DrainWaits c3) => Some (CloseWaits c3 p)
                | Some (DrainErr c3) => Some (hard_close c3 p)
                | Some (DrainEos c3) =>
                    let '(e, p') := pool_Put (fresh_framer c3) p in
                    match e with
                    | None => Some (CloseDone None c3 p')
                    | Some _ => Some (hard_close c3 p')
                    end
                end
            end
        end
    end.

(* ------------------------------------------------------------------ *)
(** ** The accept handler *)

(** What [obfsAcceptHandler] returns: [nil] (the connection, closed by the
    deferred function, is kept to show that), a plain [*RemainConn], or an
    [*ObfsConn]. *)
Inductive accepted : Type :=
| AcceptNil (nc : NetConn)
| AcceptPlain (r : RemainConn)
| AcceptObfs (c : ObfsConn).

Definition obfsAcceptHandler (nc : NetConn) (lis : listener) : accepted :=
  let r := conn_Read buffersize nc in
  let buf := fst (copy_at (make buffersize) 0 (rd_data r)) in
  let n := Z.to_nat (rd_n r) in
  if is_some (rd_err r) || (rd_n r =? 0)%Z
  then AcceptNil (snd (conn_Close (rd_st r)))
  else if (rd_n r >? 4)%Z && negb (bytes_eqb (firstn 4 buf) POST)
  then AcceptPlain (MkRemainConn (rd_st r) (firstn n buf) [])
  else AcceptObfs (MkObfsConn
                     (MkRemainConn (rd_st r) (firstn n buf) (buildHTTPResponse []))
                     false true 0 (cfg_pool (lis_c lis)) false false false).

(* ------------------------------------------------------------------ *)
(** ** DelayConn *)

Definition NewDelayConn (nc : NetConn) : DelayConn :=
  MkDelayConn nc (make buffersize) 0 false false false 0 0 0.

Definition DelayConn_Close (c : DelayConn) : option error * DelayConn :=
  if destroyed c then (None, c)
  else
    let '(e, nc) := conn_Close (dconn c) in
    (e, MkDelayConn nc (wbuf c) (off c) (started c) true true
                    (loops c) (signals c) (S (broadcasts c))).

Definition DelayConn_Write (b : bytes) (c : DelayConn) : outcome (wr DelayConn) :=
  let n := length b in
  if n =? 0 then Returns (Wr 0 None c)
  else if length (wbuf c) <? off c then Panics          (* c.wbuf[:c.off], c.wbuf[c.off:] *)
  else if buffersize <=? n + off c then
    let buf0 := make (n + off c) in
    let buf1 := fst (copy_at buf0 0 (firstn (off c) (wbuf c))) in
    let buf2 := fst (copy_at buf1 (off c) b) in
    let r := conn_Write buf2 (dconn c) in
    Returns (Wr (if is_some (wr_err r) then 0%Z else Z.of_nat n) (wr_err r)
                (MkDelayConn (wr_st r) (wbuf c) 0 (started c) (destroyed c)
                             (die_closed c) (loops c) (signals c) (broadcasts c)))
  else
    let wbuf' := fst (copy_at (wbuf c) (off c) b) in
    Returns (Wr (Z.of_nat n) None
                (MkDelayConn (dconn c) wbuf' (off c + n) true (destroyed c)
                             (die_closed c)
                             (if started c then loops c else S (loops c))
                             (S (signals c)) (broadcasts c))).

End Framer.

(* ------------------------------------------------------------------ *)
(** ** A concrete instance of the external declarations

    Used to run the model on concrete connections: 4096-byte buffers, and
    a header acceptor that reports completion at the blank line
    [CR LF CR LF] and rejects a NUL byte. *)

Definition blank_line_step (st : nat) (x : byte) : nat * (bool * option error) :=
  if byte_eqb x x00 then (0, (false, Some (ErrExternal 400)))
  else if byte_eqb x CR then
    match st with
    | 2 => (3, (false, None))
    | _ => (1, (false, None))
    end
  else if byte_eqb x LF then
    match st with
    | 1 => (2, (false, None))
    | 3 => (4, (true, None))
    | _ => (0, (false, None))
    end
  else (0, (false, None)).

(** ["HTTP/1.1 200 OK" CR LF CR LF] *)
Definition sample_response : bytes :=
  [x48; x54; x54; x50; x2f; x31; x2e; x31; x20; x32; x30; x30; x20; x4f; x4b;
   x0d; x0a; x0d; x0a].

Definition sample_extern : Extern :=
  {| buffersize := 4096;
     parser := nat;
     newHTTPReplyParser := 0;
     newHTTPRequestParser := 0;
     parser_read := blank_line_step;
     buildHTTPResponse := fun _ => sample_response |}.

(** A connection on which nothing has happened yet and on which [evs]
    will arrive. *)
Definition fresh_conn (evs : list rd_event) : NetConn :=
  MkNetConn evs [] [] 0 0 None.

(* ------------------------------------------------------------------ *)
(** ** Vocabulary of the statements *)

(** A string made of the characters the chunk-length scanner keeps. *)
Definition length_digits (s : bytes) : Prop :=
  Forall (fun x => is_length_digit x = true) s.

(** A character of a chunk-length line before its line feed: a digit the
    scanner keeps or a carriage return it skips. *)
Definition line_char (x : byte) : Prop := is_length_digit x = true \/ x = CR.

(** The bytes that are ahead on a connection before its first failing
    read, whatever the way they are split into arrivals. *)
Fixpoint data_ahead (evs : list rd_event) : bytes :=
  match evs with
  | RdData seg :: evs' => seg ++ data_ahead evs'
  | _ => []
  end.

Definition pending (r : RemainConn) : bytes :=
  remain r ++ data_ahead (inbound (conn r)).

(** No read of the connection returns zero bytes with a nil error. *)
Definition steady (r : RemainConn) : Prop :=
  Forall (fun ev => ev <> RdData []) (inbound (conn r)).

(** The bytes one [RemainConn.Read] can draw from: the look-ahead bytes if
    there are any, else what arrives next on the connection. *)
Definition next_segment (r : RemainConn) : bytes :=
  match remain r with
  | [] => match inbound (conn r) with
          | RdData seg :: _ => seg
          | _ => []
          end
  | rm => rm
  end.

(** The parts of a connection that reading leaves alone. *)
Definition write_side (r : RemainConn) :=
  (wremain r, wr_script (conn r), wlog (conn r), closes (conn r), close_err (conn r)).

(** [delivers xs r r']: successive one-byte reads on [r] hand out the
    bytes [xs], each with a nil error, and leave [r']. *)
Inductive delivers : bytes -> RemainConn -> RemainConn -> Prop :=
| delivers_nil r : delivers [] r r
| delivers_cons x xs r r1 r2 :
    RemainConn_Read 1 r = Rd 1 [x] None r1 ->
    delivers xs r1 r2 ->
    delivers (x :: xs) r r2.

(** A framer that is past its handshake: neither role flag is set. *)
Definition framing (c : ObfsConn) : Prop := req c = false /\ resp c = false.

(** What a read leaves alone in a framer: the write side of its
    connection, its pool and its two guard flags. *)
Definition untouched (c c' : ObfsConn) : Prop :=
  write_side (rc c') = write_side (rc c) /\
  pool c' = pool c /\ reading c' = reading c /\ destroy c' = destroy c.

(** [quiet c c']: [c'] is [c] after some reading. *)
Definition quiet (c c' : ObfsConn) : Prop :=
  untouched c c' /\ rc_weight (rc c') <= rc_weight (rc c).

(** What holds of the result [r] of a read of up to [k] bytes made in
    state [c]. *)
Definition read_post (k : nat) (c : ObfsConn) (r : rd ObfsConn) : Prop :=
  quiet c (rd_st r) /\
  length (rd_data r) <= k /\
  (rd_err r = None -> 1 <= k -> rc_weight (rc (rd_st r)) < rc_weight (rc c)).

(** Two views of one buffer: the length and the capacity agree. *)
Definition same_shape (b b' : slice) : Prop :=
  slen b' = slen b /\ scap b' = scap b.

(** What holds of the value [r] a read returns, for a call made with
    buffer [b] in state [c]. *)
Definition ret_post (b : slice) (c : ObfsConn) (r : ret) : Prop :=
  quiet c (ret_conn r) /\ same_shape b (ret_buf r).

(** What holds of the result of a stage of [readInLock] entered with
    buffer [b] in state [c]: a stage that falls through has only read, and
    leaves a state in which [open] holds; a stage that returns from the
    function returns an error. *)
Definition stage_post (b : slice) (c : ObfsConn) (st : (Z * slice * ObfsConn) + outcome ret)
    (open : ObfsConn -> Prop) : Prop :=
  match st with
  | inl (_, b1, c1) => quiet c c1 /\ same_shape b b1 /\ open c1
  | inr (Returns r) => ret_post b c r /\ ret_err r <> None
  | inr Panics => True
  end.


(* ------------------------------------------------------------------ *)
(** ** Concrete connections *)

(** ["ping"] *)
Definition ping : bytes := [x70; x69; x6e; x67].

(** ["GET"] *)
Definition GET : bytes := [x47; x45; x54].

(** The wire form of the end-of-stream marker: ['0' CR LF CR LF]. *)
Definition marker_wire : bytes := [x30; CR; LF; CR; LF].

(** A framer past its handshake on which [evs] will arrive, with or
    without a pool. *)
Definition framer_on (evs : list rd_event) (pl : option PoolRef) : ObfsConn :=
  MkObfsConn (MkRemainConn (fresh_conn evs) [] []) false false 0 pl false false false.

(** A pool that takes everything, and one that refuses the next [Put]. *)
Definition open_pool : ConnPool := MkConnPool [] [].

Definition plain_listener : listener := MkListener (MkConfig (Some 0)).

(* ------------------------------------------------------------------ *)
(** ** DelayConn: the flush loop

    [sendLoopOnce] gives up its lock twice: in [c.cond.Wait()] and around
    the [select].  What the other goroutines do to the connection in these
    two windows is an argument of the model ([in_wait], [in_tick]), and so
    is the case the [select] takes when the [die] channel is closed by
    then ([die_first]).  [cond.Wait] is allowed to return whatever
    happened in its window. *)

Section FlushLoop.

Context {E : Extern}.

Definition sendLoopOnce (in_wait in_tick : DelayConn -> outcome DelayConn)
    (die_first : bool) (c : DelayConn) : outcome (bool * DelayConn) :=
  if destroyed c then Returns (false, c)
  else
    match (if off c =? 0 then in_wait c else Returns c) with      (* c.cond.Wait() *)
    | Panics => Panics
    | Returns c1 =>
        if destroyed c1 then Returns (false, c1)
        else if off c1 =? 0 then Returns (true, c1)
        else
          match in_tick c1 with                                       (* select *)
          | Panics => Panics
          | Returns c2 =>
              if die_closed c2 && die_first then Returns (false, c2)  (* case <-c.die *)
              else if off c2 =? 0 then Returns (true, c2)
              else if length (wbuf c2) <? off c2 then Panics          (* c.wbuf[:c.off] *)
              else
                let r := conn_Write (firstn (off c2) (wbuf c2)) (dconn c2) in
                let c3 := MkDelayConn (wr_st r) (wbuf c2) 0 (started c2) (destroyed c2)
                                      (die_closed c2) (loops c2) (signals c2)
                                      (broadcasts c2) in
                match wr_err r with
                | None => Returns (true, c3)
                | Some _ => Returns (false, snd (DelayConn_Close c3))  (* deferred c.Close() *)
                end
          end
    end.

(** [delayAcceptHandler(conn, _)]. *)
Definition delayAcceptHandler (nc : NetConn) (lis : listener) : DelayConn :=
  NewDelayConn nc.

(** What happens to one DelayConn, one lock-protected step after the
    other: the application writes or closes, or the flush goroutine (if
    it has been started) makes one turn of its loop with nothing landing
    in its windows. *)
Inductive delay_action : Type :=
| AppWrite (b : bytes)
| AppClose
| LoopTurn (die_first : bool).

Definition idle (c : DelayConn) : outcome DelayConn := Returns c.

Definition delay_step (a : delay_action) (c : DelayConn) : outcome DelayConn :=
  match a with
  | AppWrite b =>
      match DelayConn_Write b c with
      | Returns w => Returns (wr_st w)
      | Panics => Panics
      end
  | AppClose => Returns (snd (DelayConn_Close c))
  | LoopTurn d =>
      if started c then
        match sendLoopOnce idle idle d c with
        | Returns (_, c') => Returns c'
        | Panics => Panics
        end
      else Returns c
  end.

Fixpoint delay_run (acts : list delay_action) (c : DelayConn) : outcome DelayConn :=
  match acts with
  | [] => Returns c
  | a :: rest =>
      match delay_step a c with
      | Returns c' => delay_run rest c'
      | Panics => Panics
      end
  end.

End FlushLoop.

(** The bytes the application has written in a run, in order, and the
    number of its writes that carried any. *)
Fixpoint written (acts : list delay_action) : bytes :=
  match acts with
  | [] => []
  | AppWrite b :: rest => b ++ written rest
  | _ :: rest => written rest
  end.

Fixpoint payload_writes (acts : list delay_action) : nat :=
  match acts with
  | [] => 0
  | AppWrite (_ :: _) :: rest => S (payload_writes rest)
  | _ :: rest => payload_writes rest
  end.

(** The bytes a DelayConn has taken charge of: those it has handed to the
    underlying connection, then those it still holds in its buffer. *)
Definition delay_stream (c : DelayConn) : bytes :=
  concat (wlog (dconn c)) ++ firstn (off c) (wbuf c).

(** The state a DelayConn keeps: a full-size buffer and an offset below
    its capacity. *)
Definition delay_wf {E : Extern} (c : DelayConn) : Prop :=
  length (wbuf c) = buffersize /\ off c < buffersize.

(* ------------------------------------------------------------------ *)
(** ** DialObfs

    The pool's [GetNonblock], [net.Dial] and the random source are
    collaborators: what they return is an argument.  The request builder
    and the default host name are declared in other files. *)

Class ExternDial : Type := {
  buildHTTPRequest : bytes -> bytes;
  defaultObfsHost : bytes
}.

(** A [net.Conn] out of the pool: an [*ObfsConn] or any other
    connection. *)
Inductive pooled : Type :=
| PooledObfs (c : ObfsConn)
| PooledOther (nc : NetConn).

(** The configuration, as far as [DialObfs] looks into it. *)
Record DialConfig : Type := MkDialConfig {
  dial_pool : option PoolRef;
  ObfsHost : list bytes
}.

(** ["Host: "] and ["X-Online-Host: "] *)
Definition host_key : bytes := [x48; x6f; x73; x74; x3a; x20].
Definition online_host_key : bytes :=
  [x58; x2d; x4f; x6e; x6c; x69; x6e; x65; x2d; x48; x6f; x73; x74; x3a; x20].

(** [fmt.Sprintf("Host: %s\r\nX-Online-Host: %s\r\n", host, host)] *)
Definition host_lines (host : bytes) : bytes :=
  host_key ++ host ++ [CR; LF] ++ online_host_key ++ host ++ [CR; LF].

(** The host name [DialObfs] picks; [None] is the index-out-of-range
    panic.  [rnd] is the value of [src.Int63()]. *)
Definition pick_host {D : ExternDial} (hosts : list bytes) (rnd : Z) : option bytes :=
  match hosts with
  | [] => Some defaultObfsHost
  | [h] => Some h
  | _ =>
      let i := Z.rem rnd (Z.of_nat (length hosts)) in    (* Go's %, truncated *)
      if (i <? 0)%Z then None else nth_error hosts (Z.to_nat i)
  end.

Definition DialObfs {D : ExternDial}
    (got : pooled + error) (dialed : NetConn + error) (rnd : Z) (cfg : DialConfig)
  : outcome (ObfsConn + error) :=
  let obtained :=
    match got with
    | inl x => inl x
    | inr _ => match dialed with
               | inl nc => inl (PooledOther nc)
               | inr e => inr e
               end
    end in
  match obtained with
  | inr e => Returns (inr e)
  | inl x =>
      match pick_host (ObfsHost cfg) rnd with
      | None => Panics
      | Some host =>
          let request := buildHTTPRequest (host_lines host) in
          let oc :=
            match x with
            | PooledObfs c => c
            | PooledOther nc =>
                MkObfsConn (MkRemainConn nc [] []) false false 0 (dial_pool cfg)
                           false false false
            end in
          Returns (inl (MkObfsConn
                          (MkRemainConn (conn (rc oc)) (remain (rc oc)) request)
                          true (req oc) (chunkLen oc) (pool oc) (eos oc)
                          (reading oc) (destroy oc)))
      end
  end.

(* ------------------------------------------------------------------ *)
(** ** Callers of the framer *)

(** A caller that writes the payloads one after the other and stops at
    the first error. *)
Fixpoint ObfsConn_Write_all (bs : list bytes) (c : ObfsConn)
  : outcome (option error * ObfsConn) :=
  match bs with
  | [] => Returns (None, c)
  | b :: rest =>
      match ObfsConn_Write b c with
      | Panics => Panics
      | Returns w =>
          match wr_err w with
          | Some e => Returns (Some e, wr_st w)
          | None => ObfsConn_Write_all rest (wr_st w)
          end
      end
  end.

(** [reads_back ps b c c']: successive calls of [readInLock] with the
    buffer [b], starting in state [c], return the payloads [ps] one per
    call, each with a nil error, and leave [c']. *)
Inductive reads_back {E : Extern} : list bytes -> slice -> ObfsConn -> ObfsConn -> Prop :=
| reads_back_nil b c : reads_back [] b c c
| reads_back_cons p ps b c out c' :
    readInLock b c = Some (Returns out) ->
    ret_err out = None ->
    ret_n out = Z.of_nat (length p) ->
    firstn (length p) (vis (ret_buf out)) = p ->
    reads_back ps (ret_buf out) (ret_conn out) c' ->
    reads_back (p :: ps) b c c'.

(** The header parser of the role a framer is in. *)
Definition role_parser {E : Extern} (c : ObfsConn) : parser :=
  if resp c then newHTTPReplyParser else newHTTPRequestParser.

(** The underlying writes a DelayConn has caused so far, counting the one
    its buffered bytes still call for. *)
Definition delay_calls (c : DelayConn) : nat :=
  length (wlog (dconn c)) + (if off c =? 0 then 0 else 1).

(** The underlying connection has been closed once if the DelayConn is
    destroyed and not at all otherwise, [k] being the closes it had seen
    when it was wrapped. *)
Definition closed_once (k : nat) (c : DelayConn) : Prop :=
  closes (dconn c) = (if destroyed c then S k else k) /\
  die_closed c = destroyed c.

(** What one step of a run keeps and adds. *)
Definition delay_kept {E : Extern} (k : nat) (c c' : DelayConn) (added : bytes) (calls : nat)
  : Prop :=
  delay_wf c' /\
  delay_stream c' = delay_stream c ++ added /\
  delay_calls c' <= delay_calls c + calls /\
  (closed_once k c -> closed_once k c').

(** A payload that the framer can carry in one chunk and that a buffer
    of length [m] takes together with its trailer. *)
Definition fits (m : nat) (p : bytes) : Prop :=
  p <> [] /\ (Z.of_nat (length p) < 2 ^ 48)%Z /\ length p + 2 <= m.

(** Every write the connection will be asked for succeeds. *)
Definition writes_succeed (nc : NetConn) : Prop :=
  Forall (fun s => s = None) (wr_script nc).

(* ------------------------------------------------------------------ *)
(** ** The two mutexes of an ObfsConn

    [c.lock] guards the flags and [c.rlock] serialises the reads.  To
    see what a call does to the calls around it, a call is followed from
    one blocking operation to the next: it stands at a [Lock()] or inside
    [readInLock], whose reads of the connection take as long as the peer
    likes.  A step is what the call does once that operation goes on, up
    to the next one; a critical section without a blocking operation is
    part of one step.  While the mutex a call stands at is held, the call
    has no step. *)

Record Locked : Type := MkLocked {
  obj : ObfsConn;
  lock_held : bool;     (* c.lock *)
  rlock_held : bool     (* c.rlock *)
}.

(** What a step of a call comes to. *)
Inductive move (A : Type) : Type :=
| Moves (x : A)      (* the call goes on *)
| Waits              (* the mutex it stands at is held *)
| Over               (* the call has ended before *)
| Unfinished.        (* [readInLock] was given too little fuel *)

Arguments Waits {A}.
Arguments Over {A}.
Arguments Unfinished {A}.



(** Where a call of [Close] stands. *)
Inductive close_at : Type :=
| CloseAtLock                      (* at the first [c.lock.Lock()] *)
| CloseAtLoop (b : slice)          (* at the [c.lock.Lock()] of the drain loop *)
| CloseAtRlock (b : slice)         (* a read is in flight, [c.lock] released; at [c.rlock.Lock()] *)
| CloseInLock (b : slice)          (* holds [c.lock]; inside [readInLock] *)
| CloseEnded (out : outcome (option error)).

Section Locks.

Context {E : Extern}.



(** [err = c.RemainConn.Close(); return], by a closer that holds no
    mutex. *)
Definition close_hard (s : Locked) (c : ObfsConn) (p : ConnPool)
  : move (Locked * ConnPool * close_at) :=
  let '(e, rc') := RemainConn_Close (rc c) in
  Moves (MkLocked (set_rc c rc') false (rlock_held s), p, CloseEnded (Returns e)).

(** The end of [Close] after the drain loop: the [Put] and its
    fall-back. *)
Definition close_put (s : Locked) (c : ObfsConn) (p : ConnPool)
  : move (Locked * ConnPool * close_at) :=
  let '(e, p') := pool_Put (fresh_framer c) p in
  match e with
  | None => Moves (MkLocked c false (rlock_held s), p', CloseEnded (Returns None))
  | Some _ => close_hard s c p'
  end.

Definition Close_step (s : Locked) (p : ConnPool) (a : close_at)
  : move (Locked * ConnPool * close_at) :=
  match a with
  | CloseAtLock =>
      if lock_held s then Waits
      else if destroy (obj s) then Moves (s, p, CloseEnded (Returns None))
      else
        let c1 := set_destroy (obj s) true in
        match pool c1 with
        | None => close_hard s c1 p
        | Some _ =>
            match ObfsConn_Write [] c1 with
            | Panics => Moves (MkLocked c1 false (rlock_held s), p, CloseEnded Panics)
            | Returns w =>
                match wr_err w with
                | Some _ => close_hard s (wr_st w) p
                | None =>
                    Moves (MkLocked (wr_st w) false (rlock_held s), p,
                           CloseAtLoop (make_slice buffersize))
                end
            end
        end
  | CloseAtLoop b =>
      if lock_held s then Waits
      else if eos (obj s) then close_put s (obj s) p
      else if reading (obj s) then Moves (s, p, CloseAtRlock b)
      else Moves (MkLocked (obj s) true (rlock_held s), p, CloseInLock b)
  | CloseAtRlock b =>
      (* c.rlock.Lock(); c.rlock.Unlock(); continue *)
      if rlock_held s then Waits else Moves (s, p, CloseAtLoop b)
  | CloseInLock b =>
      (* _, err = c.readInLock(buf); c.lock.Unlock() *)
      match readInLock b (obj s) with
      | None => Unfinished
      | Some Panics => Moves (s, p, CloseEnded Panics)
      | Some (Returns r) =>
          let s' := MkLocked (ret_conn r) false (rlock_held s) in
          match ret_err r with
          | Some _ =>
              if eos (ret_conn r) then close_put s' (ret_conn r) p
              else close_hard s' (ret_conn r) p
          | None => Moves (s', p, CloseAtLoop (ret_buf r))
          end
      end
  | CloseEnded _ => Over
  end.

(** A call of [Close] with no other call around. *)
Fixpoint Close_alone (n : nat) (s : Locked) (p : ConnPool) (a : close_at)
  : option (Locked * ConnPool * outcome (option error)) :=
  match a with
  | CloseEnded out => Some (s, p, out)
  | _ =>
      match n with
      | O => None
      | S n' =>
          match Close_step s p a with
          | Moves (s', p', a') => Close_alone n' s' p' a'
          | _ => None
          end
      end
  end.

End Locks.


(* ------------------------------------------------------------------ *)
(** ** More concrete connections *)

(** ["POST / HTTP/1.1" CR LF] *)
Definition sample_request_line : bytes :=
  POST ++ [x20; x2f; x20; x48; x54; x54; x50; x2f; x31; x2e; x31; CR; LF].

(** A request header without header lines. *)
Definition sample_request : bytes := sample_request_line ++ [CR; LF].

Definition sample_dial : ExternDial :=
  {| buildHTTPRequest := fun lines => sample_request_line ++ lines ++ [CR; LF];
     defaultObfsHost := [x61; x2e; x62] |}.

(** A framer in the accept role with [seg] as look-ahead, and one in the
    dial role with [hd] still to send. *)
Definition accepting (seg : bytes) : ObfsConn :=
  MkObfsConn (MkRemainConn (fresh_conn []) seg sample_response)
             false true 0 (Some 0) false false false.
Definition dialling (hd : bytes) : ObfsConn :=
  MkObfsConn (MkRemainConn (fresh_conn []) [] hd) true false 0 None false false false.

(** A framer past its handshake with [n] bytes of a chunk (trailer
    included) still to read and [evs] to arrive. *)
Definition mid_chunk (n : Z) (evs : list rd_event) : ObfsConn :=
  MkObfsConn (MkRemainConn (fresh_conn evs) [] []) false false n None false false false.

(** Two small writes, a turn of the flush loop, a write, two closes. *)
Definition sample_run : list delay_action :=
  [AppWrite ping; AppWrite GET; LoopTurn false; AppWrite ping; AppClose; AppClose].

(** A DelayConn that holds ["ping"] and whose flush loop runs. *)
Definition holding_ping : DelayConn :=
  MkDelayConn (fresh_conn []) (ping ++ make 4092) 4 true false false 1 1 0.

(** The largest [int64] in hexadecimal: ["7fffffffffffffff"]. *)
Definition max_int_line : bytes :=
  [x37; x66; x66; x66; x66; x66; x66; x66; x66; x66; x66; x66; x66; x66; x66; x66].

(* ================================================================== *)
(** * Properties *)

(* ------------------------------------------------------------------ *)
(** ** Hexadecimal formatting and parsing *)

Unset Implicit Arguments.

Section HexFacts.

Local Open Scope Z_scope.

Lemma hexdigit_facts d :
  0 <= d < 16 ->
  is_length_digit (hexdigit d) = true /\ hexval (hexdigit d) = Some d.
Proof.
  intros Hd.
  assert (Hn : (Z.to_nat d < 16)%nat) by lia.
  rewrite <- (Z2Nat.id d) at 3 by lia.
  unfold hexdigit.
  generalize dependent (Z.to_nat d). clear d Hd. intros m Hm.
  do 16 (destruct m as [|m]; [split; reflexivity|]).
  lia.
Qed.

Lemma parse_step_digit v d :
  0 <= d < 16 -> v * 16 + d < 2 ^ 64 ->
  parse_step (inl v) (hexdigit d) = inl (v * 16 + d).
Proof.
  intros Hd Hv. unfold parse_step.
  destruct (hexdigit_facts _ Hd) as [_ ->].
  destruct (Z.leb_spec (2 ^ 64) (v * 16 + d)); [lia | reflexivity].
Qed.

(** The digit loop, run with enough fuel on a number of at most [k]
    digits, puts in front of [acc] between one and [k] scanner digits
    whose value is the number. *)
Lemma hex_loop_spec fuel :
  forall k n acc,
    (0 < k <= fuel)%nat -> 0 <= n < 16 ^ Z.of_nat k -> n < 2 ^ 64 ->
    exists pre,
      hex_loop fuel n acc = pre ++ acc /\
      (0 < length pre <= k)%nat /\
      length_digits pre /\
      fold_left parse_step pre (inl 0) = inl n.
Proof.
  induction fuel as [|fuel IH]; intros k n acc Hk Hn Hmax; [lia|].
  cbn [hex_loop].
  assert (Hmod : 0 <= n mod 16 < 16) by (apply Z.mod_pos_bound; lia).
  destruct (hexdigit_facts _ Hmod) as [Hdig _].
  destruct (Z.eqb_spec (n / 16) 0) as [Hq|Hq].
  - exists [hexdigit (n mod 16)]. repeat split.
    + cbn; lia.
    + cbn; lia.
    + constructor; [exact Hdig | constructor].
    + cbn [fold_left]. rewrite parse_step_digit by lia.
      f_equal. pose proof (Z.div_mod n 16). lia.
  - destruct k as [|k]; [lia|].
    assert (Hdiv : 0 <= n / 16 < 16 ^ Z.of_nat k).
    { split; [apply Z.div_pos; lia|].
      apply Z.div_lt_upper_bound; [lia|].
      replace (Z.of_nat (S k)) with (Z.of_nat k + 1) in Hn by lia.
      rewrite Z.pow_add_r in Hn by lia. lia. }
    assert (Hk0 : (0 < k)%nat).
    { destruct k; [|lia]. cbn in Hdiv. lia. }
    assert (Hle : n / 16 <= n) by (apply Z.div_le_upper_bound; lia).
    destruct (IH k (n / 16) (hexdigit (n mod 16) :: acc)) as (pre & He & Hl & Hd & Hf);
      [lia | exact Hdiv | lia |].
    exists (pre ++ [hexdigit (n mod 16)]). repeat split.
    + rewrite He, <- app_assoc. reflexivity.
    + rewrite length_app; cbn; lia.
    + rewrite length_app; cbn; lia.
    + apply Forall_app; split; [exact Hd | constructor; [exact Hdig | constructor]].
    + rewrite fold_left_app, Hf. cbn [fold_left].
      pose proof (Z.div_mod n 16).
      rewrite parse_step_digit by lia. f_equal. lia.
Qed.

(** [%x] of a length below [16^k] (with [k <= 15], so below [2^63] as
    well) is a non-empty string of at most [k] scanner digits that
    [ParseInt] reads back as the length. *)
Lemma fmt_x_spec k n :
  (0 < k <= 15)%nat -> 0 <= n < 16 ^ Z.of_nat k ->
  (0 < length (fmt_x n) <= k)%nat /\
  length_digits (fmt_x n) /\
  ParseInt16 (fmt_x n) = inl n.
Proof.
  intros Hk Hn.
  assert (Hpow : 16 ^ Z.of_nat k <= 16 ^ 15)
    by (apply Z.pow_le_mono_r; lia).
  assert (H63 : n < 2 ^ 63) by (change (16 ^ 15) with (2 ^ 60) in Hpow; lia).
  unfold fmt_x. destruct (Z.ltb_spec n 0) as [?|_]; [lia|].
  destruct (@hex_loop_spec 16 k n []) as (pre & He & Hl & Hd & Hf); [lia | lia | lia |].
  rewrite app_nil_r in He. rewrite He. repeat split; try lia; try exact Hd.
  destruct pre as [|c pre]; [cbn in Hl; lia|].
  unfold ParseInt16.
  assert (Hc : is_length_digit c = true) by (inversion Hd; assumption).
  assert (Hneg : byte_eqb c x2d = false).
  { destruct (byte_eqb c x2d) eqn:Heq; [|reflexivity].
    apply Byte.byte_dec_bl in Heq. subst c. discriminate Hc. }
  assert (Hplus : byte_eqb c x2b = false).
  { destruct (byte_eqb c x2b) eqn:Heq; [|reflexivity].
    apply Byte.byte_dec_bl in Heq. subst c. discriminate Hc. }
  rewrite Hneg, Hplus. cbn [orb negb andb].
  unfold ParseUint16. rewrite Hf.
  destruct (Z.leb_spec (2 ^ 63) n); [lia | reflexivity].
Qed.

End HexFacts.

(* ------------------------------------------------------------------ *)
(** ** Buffers: [make], [copy], indexed stores *)

Section BufferFacts.

Lemma skipn_make j m : skipn j (make m) = make (m - j).
Proof.
  unfold make. revert j. induction m as [|m IH]; intros [|j]; cbn; auto.
Qed.

(** Copying at the end of what has been written so far, with room left. *)
Lemma copy_at_fill (p src : bytes) m :
  length src <= m ->
  copy_at (p ++ make m) (length p) src = (p ++ src ++ make (m - length src), length src).
Proof.
  intros Hm. unfold copy_at.
  rewrite length_app.
  replace (length p + length (make m) - length p) with m
    by (unfold make; rewrite repeat_length; lia).
  rewrite Nat.min_r by lia.
  rewrite firstn_app, firstn_all, Nat.sub_diag, firstn_O, app_nil_r.
  rewrite firstn_all.
  rewrite skipn_app, skipn_all2 by lia.
  replace (length p + length src - length p) with (length src) by lia.
  now rewrite skipn_make.
Qed.

Lemma set_at_fill (p : bytes) v m :
  0 < m ->
  set_at (length p) v (p ++ make m) = Some (p ++ v :: make (m - 1)).
Proof.
  intros Hm. unfold set_at.
  rewrite length_app.
  assert (Hlen : length (make m) = m) by (unfold make; apply repeat_length).
  destruct (Nat.ltb_spec (length p) (length p + length (make m))); [|lia].
  rewrite firstn_app, firstn_all, Nat.sub_diag, firstn_O, app_nil_r.
  rewrite skipn_app, skipn_all2 by lia.
  replace (S (length p) - length p) with 1 by lia.
  now rewrite skipn_make.
Qed.

Lemma firstn_exact (p q : bytes) : firstn (length p) (p ++ q) = p.
Proof. now rewrite firstn_app, firstn_all, Nat.sub_diag, firstn_O, app_nil_r. Qed.

End BufferFacts.

(* ------------------------------------------------------------------ *)
(** ** ObfsConn.Write builds one frame and writes it once *)

Section WriteFacts.

(** Lengths below [2^48] leave room for the length line and both line
    terminators in the 16 spare bytes of [wbuf]. *)
Lemma ObfsConn_Write_frame (b : bytes) (c : ObfsConn) :
  (Z.of_nat (length b) < 2 ^ 48)%Z ->
  ObfsConn_Write b c =
    let r := RemainConn_Write (frame b) (rc c) in
    Returns (Wr (if is_some (wr_err r) then 0%Z else Z.of_nat (length b))
                (wr_err r) (set_rc c (wr_st r))).
Proof.
  intros Hb.
  destruct (@fmt_x_spec 12 (Z.of_nat (length b))) as (Hl & _ & _); [lia | split; [lia | exact Hb] |].
  unfold ObfsConn_Write, frame, blen.
  set (n := length b) in *.
  set (h := fmt_x (Z.of_nat n) ++ [CR; LF]).
  assert (Hh : length h <= 14) by (unfold h; rewrite length_app; cbn; lia).
  assert (E1 : copy_at (make (n + 16)) 0 h = (h ++ make (n + 16 - length h), length h)).
  { apply (@copy_at_fill [] h (n + 16)). lia. }
  rewrite E1.
  assert (E2 : copy_at (h ++ make (n + 16 - length h)) (length h) b
               = ((h ++ b) ++ make (16 - length h), n)).
  { rewrite copy_at_fill by (fold n; lia). fold n.
    rewrite app_assoc. do 3 f_equal. lia. }
  rewrite E2.
  assert (E3 : set_at (length h + n) CR ((h ++ b) ++ make (16 - length h))
               = Some (((h ++ b) ++ [CR]) ++ make (15 - length h))).
  { replace (length h + n) with (length (h ++ b)) by (rewrite length_app; reflexivity).
    rewrite set_at_fill by lia. rewrite <- !app_assoc. cbn [app].
    replace (16 - length h - 1) with (15 - length h) by lia. reflexivity. }
  rewrite E3.
  assert (E4 : set_at (length h + n + 1) LF (((h ++ b) ++ [CR]) ++ make (15 - length h))
               = Some ((((h ++ b) ++ [CR]) ++ [LF]) ++ make (14 - length h))).
  { replace (length h + n + 1) with (length ((h ++ b) ++ [CR]))
      by (rewrite !length_app; reflexivity).
    rewrite set_at_fill by lia. rewrite <- !app_assoc. cbn [app].
    replace (15 - length h - 1) with (14 - length h) by lia. reflexivity. }
  rewrite E4.
  assert (E5 : length h + n + 2 = length (((h ++ b) ++ [CR]) ++ [LF]))
    by (rewrite !length_app; cbn; fold n; lia).
  rewrite E5, firstn_exact.
  match goal with |- context [?x <? ?y] => destruct (Nat.ltb_spec x y) as [Hlt|_] end.
  { rewrite length_app in Hlt. lia. }
  replace ((((h ++ b) ++ [CR]) ++ [LF]))
    with (fmt_x (Z.of_nat n) ++ [CR; LF] ++ b ++ [CR; LF])
    by (unfold h; rewrite <- !app_assoc; reflexivity).
  reflexivity.
Qed.

End WriteFacts.

(* ------------------------------------------------------------------ *)
(** ** Reading from a RemainConn *)

Section ReadFacts.

Lemma store_slen data b : length data <= scap b -> slen (store data b) = slen b.
Proof.
  unfold store, slen, scap. cbn [vis]. intros H.
  rewrite length_firstn, length_app, length_skipn, length_app. lia.
Qed.

Lemma store_scap data b : length data <= scap b -> scap (store data b) = scap b.
Proof.
  unfold store, slen, scap. cbn [vis spare]. intros H.
  rewrite length_firstn, length_skipn, !length_app, length_skipn, length_app. lia.
Qed.

Lemma store_vis data b :
  length data <= slen b -> vis (store data b) = data ++ skipn (length data) (vis b).
Proof.
  unfold store, slen. cbn [vis]. intros H.
  rewrite skipn_app.
  replace (length data - length (vis b)) with 0 by lia. rewrite skipn_O.
  rewrite firstn_app, firstn_all2 by lia.
  f_equal. rewrite firstn_app, firstn_all2 by (rewrite length_skipn; lia).
  rewrite length_skipn.
  replace (length (vis b) - length data - (length (vis b) - length data)) with 0 by lia.
  now rewrite firstn_O, app_nil_r.
Qed.

(** A read served from the look-ahead bytes. *)
Lemma RemainConn_Read_remain k r :
  remain r <> [] ->
  RemainConn_Read k r =
    Rd (Z.of_nat (length (firstn k (remain r)))) (firstn k (remain r)) None
       (MkRemainConn (conn r) (skipn k (remain r)) (wremain r)).
Proof.
  intros Hne. unfold RemainConn_Read.
  destruct (remain r) as [|x rm] eqn:Hrm; [congruence|].
  set (l := x :: rm).
  destruct (Nat.eqb_spec (length (firstn k l)) (length l)) as [He|He].
  - rewrite length_firstn in He.
    rewrite skipn_all2 by lia. reflexivity.
  - rewrite length_firstn in He.
    assert (Hk : k < length l) by lia.
    rewrite !length_firstn, !Nat.min_l by lia. reflexivity.
Qed.

(** The weight never grows under a read, and a read of at least one byte
    that succeeds makes it shrink. *)
Lemma RemainConn_Read_weight k r :
  rc_weight (rd_st (RemainConn_Read k r)) <= rc_weight r /\
  (1 <= k -> rd_err (RemainConn_Read k r) = None ->
   rc_weight (rd_st (RemainConn_Read k r)) < rc_weight r).
Proof.
  destruct (remain r) as [|x rm] eqn:Hrm.
  - unfold RemainConn_Read, rc_weight. rewrite Hrm. cbn [rd_st rd_err conn remain length].
    unfold conn_Read.
    destruct (inbound (conn r)) as [|[seg|e] evs]; cbn [rd_st rd_err inbound events_weight].
    + split; [lia | discriminate].
    + destruct (skipn k seg) as [|y rest] eqn:Hsk;
        cbn [rd_st rd_err inbound events_weight]; [split; lia|].
      assert (Hl : length (skipn k seg) = length (y :: rest)) by now rewrite Hsk.
      rewrite length_skipn in Hl. cbn [length] in *. split; lia.
    + split; [lia | discriminate].
  - rewrite RemainConn_Read_remain by congruence.
    unfold rc_weight. cbn [rd_st rd_err conn remain].
    rewrite length_skipn, Hrm. cbn [length]. split; lia.
Qed.

(** A read of at least one byte on a steady connection with bytes ahead
    returns a non-empty prefix of them and leaves the rest ahead. *)
Lemma RemainConn_Read_steady k r x xs :
  steady r -> pending r = x :: xs -> 1 <= k ->
  exists j r',
    1 <= j <= k /\
    RemainConn_Read k r = Rd (Z.of_nat j) (firstn j (x :: xs)) None r' /\
    pending r' = skipn j (x :: xs) /\
    steady r' /\
    write_side r' = write_side r.
Proof.
  intros Hst Hp Hk. rewrite <- Hp.
  destruct (remain r) as [|y rm] eqn:Hrm.
  - unfold pending in *. rewrite Hrm in *. cbn [app] in *.
    unfold RemainConn_Read, conn_Read, steady in *. rewrite Hrm.
    destruct (inbound (conn r)) as [|[seg|e] evs] eqn:Hin; cbn [data_ahead] in *;
      try discriminate.
    inversion Hst as [|? ? Hseg Hevs]; subst.
    destruct seg as [|s0 seg]; [congruence|].
    destruct (skipn k (s0 :: seg)) as [|z rest] eqn:Hsk.
    + exists (length (s0 :: seg)), (MkRemainConn
               (MkNetConn evs (wr_script (conn r)) (wlog (conn r)) (S (reads (conn r)))
                          (closes (conn r)) (close_err (conn r))) [] (wremain r)).
      assert (Hlen : length (s0 :: seg) <= k).
      { assert (Hl : length (skipn k (s0 :: seg)) = 0) by now rewrite Hsk.
        rewrite length_skipn in Hl. lia. }
      rewrite (firstn_all2 (n := k)) by exact Hlen.
      rewrite firstn_app, firstn_all, Nat.sub_diag, firstn_O, app_nil_r.
      rewrite skipn_app, skipn_all, Nat.sub_diag, skipn_O.
      cbn [length] in *. repeat split; try lia; try assumption.
    + exists k, (MkRemainConn
               (MkNetConn (RdData (z :: rest) :: evs) (wr_script (conn r)) (wlog (conn r))
                          (S (reads (conn r))) (closes (conn r)) (close_err (conn r)))
               [] (wremain r)).
      assert (Hlen : k < length (s0 :: seg)).
      { assert (Hl : length (skipn k (s0 :: seg)) = length (z :: rest)) by now rewrite Hsk.
        rewrite length_skipn in Hl. cbn [length] in *. lia. }
      rewrite firstn_app, skipn_app.
      replace (k - length (s0 :: seg)) with 0 by lia.
      rewrite firstn_O, skipn_O, app_nil_r, Hsk.
      unfold blen. rewrite length_firstn.
      replace (Nat.min k (length (s0 :: seg))) with k by lia.
      repeat split; try lia.
      constructor; [discriminate | assumption].
  - rewrite RemainConn_Read_remain by congruence.
    rewrite Hrm. set (l := y :: rm).
    exists (length (firstn k l)), (MkRemainConn (conn r) (skipn k l) (wremain r)).
    assert (Hj : length (firstn k l) = Nat.min k (length l)) by apply length_firstn.
    assert (Hl1 : 1 <= length l) by (unfold l; cbn; lia).
    unfold pending. rewrite Hrm. fold l. cbn [conn remain].
    rewrite firstn_app, skipn_app.
    replace (length (firstn k l) - length l) with 0 by lia.
    rewrite firstn_O, skipn_O, app_nil_r.
    assert (Hf : firstn (length (firstn k l)) l = firstn k l).
    { rewrite Hj. destruct (Nat.le_ge_cases k (length l)).
      - now rewrite Nat.min_l by lia.
      - rewrite Nat.min_r by lia. now rewrite !firstn_all2 by lia. }
    assert (Hs : skipn (length (firstn k l)) l = skipn k l).
    { rewrite Hj. destruct (Nat.le_ge_cases k (length l)).
      - now rewrite Nat.min_l by lia.
      - rewrite Nat.min_r by lia. now rewrite !skipn_all2 by lia. }
    rewrite Hf, Hs. repeat split; try lia; try assumption.
Qed.

(** A read draws from the next segment only. *)
Lemma RemainConn_Read_segment k r seg :
  next_segment r = seg -> seg <> [] ->
  exists r',
    RemainConn_Read k r = Rd (Z.of_nat (length (firstn k seg))) (firstn k seg) None r' /\
    (skipn k seg <> [] -> next_segment r' = skipn k seg) /\
    write_side r' = write_side r.
Proof.
  intros Hseg Hne. unfold next_segment in Hseg.
  destruct (remain r) as [|y rm] eqn:Hrm.
  - destruct (inbound (conn r)) as [|[sg|e] evs] eqn:Hin; try congruence. subst sg.
    unfold RemainConn_Read, conn_Read. rewrite Hrm, Hin. unfold blen.
    destruct (skipn k seg) as [|z rest] eqn:Hsk.
    + eexists. split; [reflexivity|]. split; [congruence | reflexivity].
    + eexists. split; [reflexivity|]. split; [|reflexivity].
      intros _. unfold next_segment. cbn. reflexivity.
  - subst seg. rewrite RemainConn_Read_remain by congruence. rewrite Hrm.
    eexists. split; [reflexivity|]. split; [|reflexivity].
    intros Hs. unfold next_segment. cbn [remain].
    destruct (skipn k (y :: rm)); [congruence | reflexivity].
Qed.

Lemma delivers_app xs ys r r1 r2 :
  delivers xs r r1 -> delivers ys r1 r2 -> delivers (xs ++ ys) r r2.
Proof.
  induction 1 as [|x xs r ra rb Hrd _ IH]; intros Hy; cbn [app]; [exact Hy|].
  eapply delivers_cons; [exact Hrd | apply IH, Hy].
Qed.

(** Bytes that arrive together are handed out one by one. *)
Lemma delivers_segment pre :
  forall r tail,
    next_segment r = pre ++ tail -> tail <> [] ->
    exists r', delivers pre r r' /\ next_segment r' = tail /\
               write_side r' = write_side r.
Proof.
  induction pre as [|x pre IH]; intros r tail Hseg Hne.
  - exists r. repeat split; [constructor | exact Hseg].
  - destruct (@RemainConn_Read_segment 1 r _ Hseg) as (r1 & Hrd & Hnext & Hw);
      [discriminate|].
    cbn [app firstn skipn length] in Hrd, Hnext.
    assert (Hn1 : next_segment r1 = pre ++ tail).
    { apply Hnext. destruct pre; [cbn; exact Hne | discriminate]. }
    destruct (IH r1 tail Hn1 Hne) as (r2 & Hd & Hn2 & Hw2).
    exists r2. repeat split; [|exact Hn2 | congruence].
    eapply delivers_cons; [exact Hrd | exact Hd].
Qed.


Lemma delivers_snoc_inv xs :
  forall y r r2,
    delivers (xs ++ [y]) r r2 ->
    exists r1, delivers xs r r1 /\ RemainConn_Read 1 r1 = Rd 1 [y] None r2.
Proof.
  induction xs as [|x xs IH]; intros y r r2 H; cbn [app] in H.
  - inversion H as [|? ? ? ra ? Hrd Hrest]; subst.
    inversion Hrest; subst. exists r. split; [constructor | exact Hrd].
  - inversion H as [|? ? ? ra ? Hrd Hrest]; subst.
    destruct (IH y ra r2 Hrest) as (r1 & Hd & Hlast).
    exists r1. split; [|exact Hlast].
    eapply delivers_cons; [exact Hrd | exact Hd].
Qed.

Lemma delivers_weight xs r r' :
  delivers xs r r' -> length xs + rc_weight r' <= rc_weight r.
Proof.
  induction 1 as [|x xs r ra rb Hrd _ IH]; cbn [length]; [lia|].
  destruct (RemainConn_Read_weight 1 r) as [_ Hlt].
  rewrite Hrd in Hlt. cbn [rd_st rd_err] in Hlt.
  specialize (Hlt (le_n 1) eq_refl). lia.
Qed.

End ReadFacts.

(* ------------------------------------------------------------------ *)
(** ** The chunk reader *)

Section FramerFacts.

Context {E : Extern}.

Lemma framing_set_rc c r : framing c -> framing (set_rc c r).
Proof. intros [H1 H2]; split; assumption. Qed.

(** Past the handshake, [doRead] is a read of the RemainConn. *)
Lemma doRead_framing k c :
  framing c ->
  doRead k c =
    let r := RemainConn_Read k (rc c) in
    Rd (rd_n r) (rd_data r) (rd_err r) (set_rc c (rd_st r)).
Proof. intros [Hq Hp]. unfold doRead. rewrite Hq, Hp. reflexivity. Qed.

Lemma store_one_vis x b : 1 <= slen b -> exists t, vis (store [x] b) = x :: t.
Proof.
  intros H. rewrite store_vis by (cbn; lia). cbn [app]. eexists; reflexivity.
Qed.

(** One turn of the chunk-length loop past the handshake, for each thing
    the one-byte read can bring. *)
Lemma readChunkLine_turn fuel acc b c n data err r1 :
  framing c -> 1 <= slen b ->
  RemainConn_Read 1 (rc c) = Rd n data err r1 ->
  readChunkLine (S fuel) acc b c =
    let b1 := store data b in
    let c1 := set_rc c r1 in
    match err with
    | Some e => Some (HdrFail (Ret n (Some e) b1 c1))
    | None =>
        if Z.eqb n 0 then Some (HdrFail (Ret n (Some ErrShortRead) b1 c1))
        else match vis b1 with
             | [] => Some HdrPanic
             | ch :: _ =>
                 if is_length_digit ch then readChunkLine fuel (acc ++ [ch]) b1 c1
                 else if byte_eqb ch CR then readChunkLine fuel acc b1 c1
                 else if byte_eqb ch LF then Some (HdrLine acc n b1 c1)
                 else Some (HdrFail (Ret n (Some (ErrLengthChar ch)) b1 c1))
             end
    end.
Proof.
  intros Hf Hb Hrd. cbn [readChunkLine]. unfold doReadInto.
  assert (Hcap : (scap b <? 1) = false).
  { apply Nat.ltb_ge. unfold scap, slen in *. lia. }
  rewrite Hcap, (doRead_framing 1 c Hf), Hrd. reflexivity.
Qed.

Lemma byte_eqb_refl x : byte_eqb x x = true.
Proof. unfold byte_eqb. apply Byte.byte_dec_lb. reflexivity. Qed.

Lemma byte_eqb_neq x y : x <> y -> byte_eqb x y = false.
Proof.
  intros H. unfold byte_eqb. destruct (Byte.eqb x y) eqn:He; [|reflexivity].
  apply Byte.byte_dec_bl in He. contradiction.
Qed.

(** The loop runs through the characters of a chunk-length line, keeping
    the digits and skipping the carriage returns. *)
Lemma readChunkLine_skim pre r r' :
  delivers pre r r' -> Forall line_char pre ->
  forall fuel acc b c,
    rc c = r -> framing c -> 1 <= slen b -> length pre <= fuel ->
    exists b',
      slen b' = slen b /\ scap b' = scap b /\
      readChunkLine fuel acc b c =
        readChunkLine (fuel - length pre) (acc ++ filter is_length_digit pre) b'
                      (set_rc c r').
Proof.
  induction 1 as [r|x xs r ra rb Hrd _ IH]; intros Hall fuel acc b c Hrc Hf Hb Hfuel.
  - exists b. cbn [length filter]. rewrite Nat.sub_0_r, app_nil_r.
    subst r. destruct c; repeat split; reflexivity.
  - inversion Hall as [|? ? Hx Hxs]; subst.
    destruct fuel as [|fuel]; [cbn in Hfuel; lia|].
    rewrite (@readChunkLine_turn fuel acc b c _ _ _ _ Hf Hb Hrd). cbn zeta.
    change (1 =? 0)%Z with false. cbn iota.
    destruct (@store_one_vis x b Hb) as [t Ht]. rewrite Ht.
    assert (Hb1 : 1 <= slen (store [x] b)) by (unfold slen; rewrite Ht; cbn; lia).
    assert (Hcap : length [x] <= scap b) by (unfold scap, slen in *; cbn; lia).
    destruct (IH Hxs fuel (if is_length_digit x then acc ++ [x] else acc)
                (store [x] b) (set_rc c ra) eq_refl (framing_set_rc _ ra Hf) Hb1)
      as (b' & Hl' & Hc' & Heq); [cbn in Hfuel; lia|].
    exists b'. rewrite Hl', Hc', store_slen, store_scap by exact Hcap.
    repeat split. cbn [length filter Nat.sub].
    destruct Hx as [Hx|Hx].
    + rewrite Hx in *. rewrite Heq, <- app_assoc. reflexivity.
    + subst x. change (is_length_digit CR) with false in *. cbn iota.
      rewrite byte_eqb_refl. exact Heq.
Qed.



(** With no chunk open, [readInLock] starts with the chunk-length loop. *)
Lemma readInLock_at_header b c :
  chunkLen c = 0%Z -> 1 <= slen b ->
  readInLock b c =
    match header_stage (S (rc_weight (rc c))) 0 b c with
    | None => None
    | Some (inr out) => Some out
    | Some (inl (n2, b2, c2)) =>
        match marker_stage (S (rc_weight (rc c))) n2 b2 c2 with
        | None => None
        | Some (inr out) => Some out
        | Some (inl (_, b3, c3)) => Some (payload_stage b3 c3)
        end
    end.
Proof.
  intros Hc Hb. unfold readInLock, readInLock_fuel, trailer_stage.
  destruct (Nat.eqb_spec (slen b) 0) as [H0|_]; [lia|].
  rewrite Hc. reflexivity.
Qed.

(** The state of the chunk-length loop once the characters [pre] of a
    line have been read and the next one-byte read is about to be made:
    the loop still has fuel for that turn. *)
Lemma readChunkLine_reach pre b c r1 :
  framing c -> 1 <= slen b ->
  delivers pre (rc c) r1 -> Forall line_char pre ->
  exists b' fuel',
    slen b' = slen b /\ scap b' = scap b /\
    rc_weight r1 <= fuel' /\
    readChunkLine (S (rc_weight (rc c))) [] b c =
      readChunkLine (S fuel') (filter is_length_digit pre) b' (set_rc c r1).
Proof.
  intros Hf Hb Hd Hall.
  pose proof (delivers_weight _ _ _ Hd) as Hw.
  destruct (@readChunkLine_skim pre (rc c) r1 Hd Hall (S (rc_weight (rc c))) [] b c
              eq_refl Hf Hb) as (b' & Hl & Hc & Heq); [lia|].
  exists b', (rc_weight (rc c) - length pre).
  repeat split; try assumption; [lia|].
  rewrite Heq. cbn [app]. f_equal. lia.
Qed.

Lemma ParseInt16_nonempty s z : ParseInt16 s = inl z -> s <> [].
Proof. intros H Hs. subst s. discriminate H. Qed.

(** The chunk-length stage on a complete line: the characters of the
    line, then the line feed, are handed out by the connection. *)
Lemma header_stage_delivers (b : slice) (c : ObfsConn) (line : bytes) (r1 : RemainConn) (i : Z) :
  chunkLen c = 0%Z -> framing c -> 1 <= slen b ->
  delivers (line ++ [LF]) (rc c) r1 ->
  Forall line_char line ->
  ParseInt16 (filter is_length_digit line) = inl i ->
  exists b1,
    header_stage (S (rc_weight (rc c))) 0 b c =
      Some (inl (1%Z, b1, set_chunkLen (set_rc c r1) (wrap_int (i + 2)))) /\
    slen b1 = slen b /\ scap b1 = scap b.
Proof.
  intros Hc Hf Hb Hd Hall Hparse.
  destruct (delivers_snoc_inv line LF (rc c) r1 Hd) as (ra & Hda & Hrd).
  destruct (@readChunkLine_reach line b c ra Hf Hb Hda Hall)
    as (b' & fuel' & Hl & Hcap & _ & Hreach).
  assert (Hb' : 1 <= slen b') by lia.
  assert (Hfa : framing (set_rc c ra)) by (apply framing_set_rc, Hf).
  exists (store [LF] b').
  assert (Hcap1 : length [LF] <= scap b') by (unfold scap, slen in *; cbn; lia).
  rewrite store_slen, store_scap by exact Hcap1.
  repeat split; try congruence.
  unfold header_stage. rewrite Hc, Hreach. cbn [Z.eqb].
  rewrite (@readChunkLine_turn fuel' _ b' (set_rc c ra) _ _ _ _ Hfa Hb' Hrd).
  cbn zeta. change (1 =? 0)%Z with false. cbn iota.
  destruct (@store_one_vis LF b' Hb') as [t Ht]. rewrite Ht.
  change (is_length_digit LF) with false. change (byte_eqb LF CR) with false.
  rewrite byte_eqb_refl. cbn iota.
  pose proof (ParseInt16_nonempty _ _ Hparse) as Hne.
  destruct (filter is_length_digit line) as [|d ds] eqn:Hfl; [congruence|].
  rewrite Hparse. reflexivity.
Qed.

End FramerFacts.

(* ------------------------------------------------------------------ *)
(** ** Malformed chunk-length lines *)

Section HeaderErrors.

Context {E : Extern}.

(** C5.  While a chunk-length line is being read (no chunk open, the
    handshake done, the characters [pre] of the line already scanned), the
    read fails with a framing error in each of three cases: the next byte
    is neither a digit the scanner keeps ([0-9a-f]) nor CR nor LF; the
    next byte is LF and no digit has been accumulated; the next one-byte
    read returns zero bytes with a nil error (short read). *)
Theorem chunk_header_framing_errors
    (b : slice) (c : ObfsConn) (pre : bytes) (r1 r2 : RemainConn) :
  chunkLen c = 0%Z -> framing c -> 1 <= slen b ->
  delivers pre (rc c) r1 -> Forall line_char pre ->
  (forall x,
      RemainConn_Read 1 r1 = Rd 1 [x] None r2 ->
      is_length_digit x = false -> x <> CR -> x <> LF ->
      exists b',
        readInLock b c =
          Some (Returns (Ret 1 (Some (ErrLengthChar x)) b' (set_rc c r2))) /\
        is_framing_error (ErrLengthChar x) = true) /\
  (RemainConn_Read 1 r1 = Rd 1 [LF] None r2 ->
   filter is_length_digit pre = [] ->
   exists b',
     readInLock b c =
       Some (Returns (Ret 1 (Some ErrIncorrectChunked) b' (set_rc c r2))) /\
     is_framing_error ErrIncorrectChunked = true) /\
  (RemainConn_Read 1 r1 = Rd 0 [] None r2 ->
   exists b',
     readInLock b c =
       Some (Returns (Ret 0 (Some ErrShortRead) b' (set_rc c r2))) /\
     is_framing_error ErrShortRead = true).
Proof.
  intros Hc Hf Hb Hd Hall.
  destruct (@readChunkLine_reach E pre b c r1 Hf Hb Hd Hall)
    as (b' & fuel' & Hl & Hcap & _ & Hreach).
  assert (Hb' : 1 <= slen b') by lia.
  assert (Hf1 : framing (set_rc c r1)) by (apply framing_set_rc, Hf).
  assert (Hset : forall r, set_rc (set_rc c r1) r = set_rc c r) by reflexivity.
  rewrite (readInLock_at_header b c Hc Hb).
  unfold header_stage. rewrite Hc, Hreach. cbn [Z.eqb].
  split; [|split].
  - intros x Hrd Hx Hcr Hlf.
    rewrite (@readChunkLine_turn E fuel' _ b' (set_rc c r1) _ _ _ _ Hf1 Hb' Hrd).
    cbn zeta. change (1 =? 0)%Z with false. cbn iota.
    destruct (@store_one_vis x b' Hb') as [t Ht]. rewrite Ht, Hx.
    rewrite (byte_eqb_neq _ _ Hcr), (byte_eqb_neq _ _ Hlf), Hset.
    eexists; split; reflexivity.
  - intros Hrd Hnone.
    rewrite (@readChunkLine_turn E fuel' _ b' (set_rc c r1) _ _ _ _ Hf1 Hb' Hrd).
    cbn zeta. change (1 =? 0)%Z with false. cbn iota.
    destruct (@store_one_vis LF b' Hb') as [t Ht]. rewrite Ht, Hnone.
    change (is_length_digit LF) with false. change (byte_eqb LF CR) with false.
    rewrite byte_eqb_refl, Hset. cbn iota.
    eexists; split; reflexivity.
  - intros Hrd.
    rewrite (@readChunkLine_turn E fuel' _ b' (set_rc c r1) _ _ _ _ Hf1 Hb' Hrd).
    cbn zeta. change (0 =? 0)%Z with true. cbn iota. rewrite Hset.
    eexists; split; reflexivity.
Qed.

End HeaderErrors.

(* ------------------------------------------------------------------ *)
(** ** The end-of-stream marker *)

Section EndMarker.

Context {E : Extern}.



End EndMarker.

(* ------------------------------------------------------------------ *)
(** ** One chunk, written then read *)

Section RoundTrip.

Context {E : Extern}.

Lemma filter_all (f : byte -> bool) (l : bytes) :
  Forall (fun x => f x = true) l -> filter f l = l.
Proof.
  induction 1 as [|x l Hx _ IH]; cbn [filter]; [reflexivity|].
  now rewrite Hx, IH.
Qed.

Lemma wrap_int_small z : (- 2 ^ 63 <= z < 2 ^ 63)%Z -> wrap_int z = z.
Proof. intros H. unfold wrap_int. rewrite Z.mod_small; lia. Qed.

(** [io.ReadFull] of two bytes that arrive together. *)
Lemma ReadFull_segment fuel r t1 t2 more :
  next_segment r = t1 :: t2 :: more -> 1 <= fuel ->
  exists r',
    ReadFull fuel 2 r = Some (2, None, r') /\ write_side r' = write_side r.
Proof.
  intros Hseg Hfuel.
  destruct (RemainConn_Read_segment 2 r _ Hseg) as (r' & Hrd & _ & Hw); [discriminate|].
  cbn [firstn length] in Hrd.
  exists r'. split; [|exact Hw].
  destruct fuel as [|fuel]; [lia|].
  unfold ReadFull. cbn [ReadAtLeast_loop Nat.leb Nat.sub].
  rewrite Hrd. cbn [rd_data rd_err rd_st length Nat.add].
  destruct fuel; reflexivity.
Qed.

(** The payload stage when the payload and its trailer arrive together
    and the buffer can take the payload. *)
Lemma payload_stage_segment (b : slice) (c : ObfsConn) (payload more : bytes) :
  framing c ->
  payload <> [] ->
  chunkLen c = (Z.of_nat (length payload) + 2)%Z ->
  length payload <= slen b ->
  next_segment (rc c) = payload ++ [CR; LF] ++ more ->
  exists out,
    payload_stage b c = Returns out /\
    ret_n out = Z.of_nat (length payload) /\
    ret_err out = None /\
    firstn (length payload) (vis (ret_buf out)) = payload /\
    write_side (rc (ret_conn out)) = write_side (rc c).
Proof.
  intros Hf Hne Hcl Hlen Hseg.
  set (n := length payload) in *.
  assert (Hn : 1 <= n) by (unfold n; destruct payload; [congruence | cbn; lia]).
  set (k := Nat.min (slen b) (n + 2)).
  assert (Hk : n <= k <= n + 2) by (unfold k; lia).
  assert (Hkb : k <= slen b) by (unfold k; lia).
  assert (Hsel :
    (if (chunkLen c >? Z.of_nat (slen b))%Z then Some (slen b)
     else if (chunkLen c <? 0)%Z then None
     else Some (Z.to_nat (chunkLen c))) = Some k).
  { rewrite Hcl.
    destruct (Z.gtb_spec (Z.of_nat n + 2) (Z.of_nat (slen b))).
    - f_equal. unfold k. lia.
    - destruct (Z.ltb_spec (Z.of_nat n + 2) 0); [lia|].
      f_equal. unfold k. lia. }
  destruct (RemainConn_Read_segment k (rc c) _ Hseg) as (r' & Hrd & _ & Hw).
  { destruct payload; discriminate. }
  set (seg := payload ++ [CR; LF] ++ more) in *.
  assert (Hseglen : n + 2 <= length seg).
  { unfold seg. rewrite !length_app. cbn [length]. fold n. lia. }
  assert (Hdl : length (firstn k seg) = k) by (rewrite length_firstn; lia).
  rewrite Hdl in Hrd.
  unfold payload_stage. rewrite Hsel. unfold doReadInto.
  assert (Hcap : (scap b <? k) = false).
  { apply Nat.ltb_ge. unfold scap, slen in *. lia. }
  rewrite Hcap, (doRead_framing k c Hf), Hrd.
  cbn [rd_err rd_n rd_st rd_data chunkLen set_rc].
  eexists. split; [reflexivity|].
  cbn [ret_n ret_err ret_buf ret_conn rc set_chunkLen set_rc].
  repeat split.
  - rewrite Hcl.
    destruct (Z.ltb_spec (Z.of_nat n + 2 - Z.of_nat k) 2); lia.
  - rewrite store_vis by lia. rewrite Hdl.
    rewrite firstn_app, Hdl.
    replace (n - k) with 0 by lia. rewrite firstn_O, app_nil_r.
    rewrite firstn_firstn, Nat.min_l by lia.
    unfold seg, n. apply firstn_exact.
  - exact Hw.
Qed.

(** C1.  A payload of fewer than [2^48] bytes (any payload that fits a
    buffer of the program) written as one chunk by [ObfsConn.Write] on a
    connection past its handshake, and then read by [readInLock] from a
    connection on which the written bytes arrive together, with a buffer
    that is non-empty and can take the payload, comes back unchanged: the
    read returns the payload's length and the payload lies at the start of
    the buffer.  For the empty payload the read returns zero bytes, with
    the end-of-stream error. *)
Theorem frame_roundtrip (payload : bytes) (s : ObfsConn) :
  (Z.of_nat (length payload) < 2 ^ 48)%Z ->
  wremain (rc s) = [] ->
  exists w sent,
    ObfsConn_Write payload s = Returns w /\
    wlog (conn (rc (wr_st w))) = wlog (conn (rc s)) ++ [sent] /\
    forall (r : ObfsConn) (buf : slice) (more : bytes),
      framing r -> chunkLen r = 0%Z ->
      1 <= slen buf -> length payload <= slen buf ->
      next_segment (rc r) = sent ++ more ->
      exists out,
        readInLock buf r = Some (Returns out) /\
        ret_n out = Z.of_nat (length payload) /\
        firstn (length payload) (vis (ret_buf out)) = payload /\
        ret_err out = match payload with
                      | [] => Some ErrClosedObfs
                      | _ => None
                      end.
Proof.
  intros Hlen Hw0.
  rewrite (ObfsConn_Write_frame payload s Hlen). cbn zeta.
  eexists; exists (frame payload). split; [reflexivity|].
  cbn [wr_st set_rc rc].
  split.
  { unfold RemainConn_Write. rewrite Hw0. unfold conn_Write.
    destruct (wr_script (conn (rc s))) as [|[[sent e]|] scr]; reflexivity. }
  intros r buf more Hf Hc Hb Hfit Hseg.
  set (n := Z.of_nat (length payload)) in *.
  destruct (fmt_x_spec 12 n) as (Hl & Hdig & Hparse); [lia | unfold n; lia |].
  set (line := fmt_x n ++ [CR]).
  assert (Hline : Forall line_char line).
  { unfold line. apply Forall_app. split.
    - eapply Forall_impl; [|exact Hdig]. intros a Ha. left. exact Ha.
    - constructor; [right; reflexivity | constructor]. }
  assert (Hfilter : filter is_length_digit line = fmt_x n).
  { unfold line. rewrite filter_app, (filter_all _ _ Hdig). cbn. apply app_nil_r. }
  assert (Hsplit : frame payload ++ more
                   = (line ++ [LF]) ++ (payload ++ [CR; LF] ++ more)).
  { unfold frame, line, blen. fold n. rewrite <- !app_assoc. reflexivity. }
  rewrite Hsplit in Hseg.
  destruct (delivers_segment (line ++ [LF]) (rc r) _ Hseg) as (r1 & Hd & Hn1 & Hw1).
  { destruct payload; discriminate. }
  rewrite <- Hfilter in Hparse.
  destruct (header_stage_delivers buf r line r1 n Hc Hf Hb Hd Hline Hparse)
    as (b1 & Hhdr & Hl1 & Hcap1).
  rewrite (readInLock_at_header buf r Hc Hb), Hhdr.
  rewrite wrap_int_small by (unfold n; lia).
  unfold marker_stage. cbn [chunkLen set_chunkLen].
  assert (Hcase : payload = [] \/ payload <> [])
    by (destruct payload; [left; reflexivity | right; discriminate]).
  destruct Hcase as [Hnil|Hne].
  - subst payload. change (n + 2 =? 2)%Z with true. cbn iota.
    cbn [rc set_rc set_chunkLen]. cbn [app] in Hn1.
    destruct (ReadFull_segment (S (rc_weight (rc r))) r1 CR LF more Hn1) as (r2 & Hfull & _);
      [lia|].
    rewrite Hfull. eexists. split; [reflexivity|]. repeat split.
  - assert (Hn : (1 <= n)%Z).
    { unfold n. destruct payload; [congruence | cbn [length]; lia]. }
    destruct (Z.eqb_spec (n + 2) 2) as [Heq|_]; [lia|].
    destruct (payload_stage_segment b1 (set_chunkLen (set_rc r r1) (n + 2)) payload more)
      as (out & Hout & Hret & Herr & Hdata & _).
    + apply Hf.
    + exact Hne.
    + reflexivity.
    + lia.
    + exact Hn1.
    + rewrite Hout. exists out. repeat split; try assumption.
      rewrite Herr. destruct payload; [congruence | reflexivity].
Qed.

End RoundTrip.

(* ------------------------------------------------------------------ *)
(** ** What a write puts on the wire *)

Section WireFormat.

(** C2.  [ObfsConn.Write(b)] makes exactly one write on the RemainConn it
    wraps, whose argument is the frame of [b]: the lowercase hexadecimal
    length, CR LF, the bytes of [b], CR LF.  On the net.Conn underneath
    this is one write call, of the frame (behind the bytes still unsent in
    [wremain], when there are any).  The frame of the empty slice is the
    five bytes ['0' CR LF CR LF]. *)
Theorem write_emits_one_frame (b : bytes) (c : ObfsConn) :
  (Z.of_nat (length b) < 2 ^ 48)%Z ->
  exists w,
    ObfsConn_Write b c = Returns w /\
    wr_err w = wr_err (RemainConn_Write (frame b) (rc c)) /\
    rc (wr_st w) = wr_st (RemainConn_Write (frame b) (rc c)) /\
    wr_n w = (if is_some (wr_err w) then 0%Z else Z.of_nat (length b)) /\
    frame b = fmt_x (Z.of_nat (length b)) ++ [CR; LF] ++ b ++ [CR; LF] /\
    length_digits (fmt_x (Z.of_nat (length b))) /\
    ParseInt16 (fmt_x (Z.of_nat (length b))) = inl (Z.of_nat (length b)) /\
    wlog (conn (rc (wr_st w))) = wlog (conn (rc c)) ++ [wremain (rc c) ++ frame b] /\
    (b = [] -> frame b = [x30; CR; LF; CR; LF]).
Proof.
  intros Hlen.
  destruct (fmt_x_spec 12 (Z.of_nat (length b))) as (_ & Hdig & Hparse);
    [lia | split; [lia | exact Hlen] |].
  rewrite (ObfsConn_Write_frame b c Hlen). cbn zeta.
  eexists. split; [reflexivity|].
  cbn [wr_err wr_st wr_n set_rc rc].
  repeat split; try assumption.
  - unfold RemainConn_Write, conn_Write.
    destruct (wremain (rc c)) as [|x rest]; cbn [app].
    + destruct (wr_script (conn (rc c))) as [|[[sent e]|] scr]; reflexivity.
    + destruct (wr_script (conn (rc c))) as [|[[sent e]|] scr]; reflexivity.
  - intros ->. reflexivity.
Qed.

(** C10.  With bytes waiting in [wremain], [RemainConn.Write(b)] makes one
    write of [wremain] followed by [b]; if that write fails, the error is
    returned with [n = 0] and [wremain] is as before; [wremain] is emptied
    exactly when the write succeeds. *)
Theorem RemainConn_Write_keeps_unsent (c : RemainConn) (b : bytes) :
  wremain c <> [] ->
  let under := conn_Write (wremain c ++ b) (conn c) in
  let r := RemainConn_Write b c in
  conn (wr_st r) = wr_st under /\
  wlog (conn (wr_st r)) = wlog (conn c) ++ [wremain c ++ b] /\
  wr_err r = wr_err under /\
  (forall e, wr_err under = Some e ->
             wr_n r = 0%Z /\ wremain (wr_st r) = wremain c) /\
  (wr_err under = None ->
   wr_n r = Z.of_nat (length b) /\ wremain (wr_st r) = []) /\
  (wremain (wr_st r) = [] <-> wr_err under = None).
Proof.
  intros Hne. cbn zeta. unfold RemainConn_Write.
  destruct (wremain c) as [|x rest] eqn:Hw; [congruence|].
  assert (Hlog : wlog (wr_st (conn_Write ((x :: rest) ++ b) (conn c)))
                 = wlog (conn c) ++ [(x :: rest) ++ b]).
  { unfold conn_Write.
    destruct (wr_script (conn c)) as [|[[sent e]|] scr]; reflexivity. }
  destruct (wr_err (conn_Write ((x :: rest) ++ b) (conn c))) as [e|] eqn:He;
    cbn [wr_st wr_err wr_n conn wremain]; rewrite ?Hw.
  - repeat split; try assumption; try discriminate.
  - repeat split; try assumption; try discriminate; reflexivity.
Qed.

End WireFormat.


(* ------------------------------------------------------------------ *)
(** ** The accept handler *)

Section Accept.

Context {E : Extern}.

Lemma bytes_eqb_eq (a : bytes) : forall b, bytes_eqb a b = true <-> a = b.
Proof.
  induction a as [|x a IH]; intros [|y b]; cbn [bytes_eqb]; split;
    try discriminate; try reflexivity.
  - intros H. apply andb_true_iff in H as [Hx Hr].
    apply Byte.byte_dec_bl in Hx. apply IH in Hr. congruence.
  - intros H. injection H as -> ->. apply andb_true_iff. split.
    + apply byte_eqb_refl.
    + apply IH. reflexivity.
Qed.

Lemma conn_Read_data k nc :
  rd_n (conn_Read k nc) = Z.of_nat (length (rd_data (conn_Read k nc))) /\
  length (rd_data (conn_Read k nc)) <= k.
Proof.
  unfold conn_Read.
  destruct (inbound nc) as [|[seg|e] evs]; cbn [rd_n rd_data length]; try (split; [reflexivity | lia]).
  destruct (skipn k seg); cbn [rd_n rd_data]; unfold blen;
    (split; [reflexivity | rewrite length_firstn; lia]).
Qed.

(** The bytes of a read into a fresh buffer, seen through the buffer. *)
Lemma peek_buffer m data j :
  length data <= m -> j <= length data ->
  firstn j (fst (copy_at (make m) 0 data)) = firstn j data.
Proof.
  intros Hm Hj.
  pose proof (copy_at_fill [] data m Hm) as Hc. cbn [app length] in Hc.
  rewrite Hc. cbn [fst]. rewrite firstn_app.
  replace (j - length data) with 0 by lia. now rewrite firstn_O, app_nil_r.
Qed.

(** C7, as the code has it.  The handler makes one read of up to
    [buffersize] bytes.  If the read fails or yields no byte, it closes
    the connection and returns nil.  If the read yields more than 4 bytes
    and the first 4 are not ["POST"], it returns a plain RemainConn with
    the bytes read as look-ahead.  In every other case (1 to 4 bytes,
    whatever they are, or more bytes that start with ["POST"]) it returns
    an accept-role ObfsConn with the bytes read as look-ahead, the disguise
    response header as unsent bytes, and the listener's pool. *)
Theorem accept_handler_cases (nc : NetConn) (lis : listener) :
  let r := conn_Read buffersize nc in
  (rd_err r <> None \/ rd_n r = 0%Z ->
   obfsAcceptHandler nc lis = AcceptNil (snd (conn_Close (rd_st r))) /\
   closes (snd (conn_Close (rd_st r))) = S (closes nc)) /\
  (rd_err r = None -> (4 < rd_n r)%Z -> firstn 4 (rd_data r) <> POST ->
   obfsAcceptHandler nc lis = AcceptPlain (MkRemainConn (rd_st r) (rd_data r) [])) /\
  (rd_err r = None -> rd_n r <> 0%Z ->
   (rd_n r <= 4)%Z \/ firstn 4 (rd_data r) = POST ->
   obfsAcceptHandler nc lis =
     AcceptObfs (MkObfsConn
                   (MkRemainConn (rd_st r) (rd_data r) (buildHTTPResponse []))
                   false true 0 (cfg_pool (lis_c lis)) false false false)).
Proof.
  cbn zeta. unfold obfsAcceptHandler.
  destruct (conn_Read_data buffersize nc) as [Hn Hlen].
  set (r := conn_Read buffersize nc) in *.
  assert (Hall : firstn (Z.to_nat (rd_n r)) (fst (copy_at (make buffersize) 0 (rd_data r)))
                 = rd_data r).
  { rewrite Hn, Nat2Z.id, peek_buffer by lia. apply firstn_all. }
  assert (Hfour : (4 < rd_n r)%Z ->
                  firstn 4 (fst (copy_at (make buffersize) 0 (rd_data r)))
                  = firstn 4 (rd_data r)).
  { intros H4. apply peek_buffer; lia. }
  split; [|split].
  - intros H. split.
    + destruct (rd_err r) as [e|]; [reflexivity|].
      destruct H as [H|H]; [congruence|]. rewrite H. reflexivity.
    + unfold r, conn_Read, conn_Close.
      destruct (inbound nc) as [|[seg|e] evs]; cbn [closes rd_st]; try reflexivity.
      destruct (skipn buffersize seg); reflexivity.
  - intros He H4 Hpost. rewrite He. cbn [is_some orb].
    destruct (Z.eqb_spec (rd_n r) 0) as [H0|_]; [lia|].
    destruct (Z.gtb_spec (rd_n r) 4) as [_|Hle]; [|lia].
    rewrite (Hfour H4), Hall. cbn [andb].
    destruct (bytes_eqb (firstn 4 (rd_data r)) POST) eqn:Heq; [|reflexivity].
    apply bytes_eqb_eq in Heq. contradiction.
  - intros He H0 Hcase. rewrite He. cbn [is_some orb].
    destruct (Z.eqb_spec (rd_n r) 0) as [?|_]; [contradiction|].
    rewrite Hall.
    destruct (Z.gtb_spec (rd_n r) 4) as [H4|Hle]; [|reflexivity].
    destruct Hcase as [Hle|Hpost]; [lia|].
    rewrite (Hfour H4), Hpost. reflexivity.
Qed.

End Accept.

(* ------------------------------------------------------------------ *)
(** ** DelayConn.Write *)

Section Coalescing.

Context {E : Extern}.

(** C8, as the code has it.  For a non-empty [b], when [b] would fill the
    buffer to its capacity or beyond ([len(b) + off >= buffersize]), the
    buffered bytes followed by [b] go out in one underlying write, the
    offset becomes zero, and neither the flush loop nor its condition
    variable is touched.  Otherwise [b] is appended to the buffer, the
    offset grows by [len(b)] and stays below the capacity, nothing is
    written underneath, the flush loop is started if it was not yet, and
    the loop is signalled. *)
Theorem DelayConn_Write_cases (b : bytes) (c : DelayConn) :
  length (wbuf c) = buffersize -> off c <= buffersize -> 0 < length b ->
  (buffersize <= length b + off c ->
   exists w,
     DelayConn_Write b c = Returns w /\
     wlog (dconn (wr_st w)) = wlog (dconn c) ++ [firstn (off c) (wbuf c) ++ b] /\
     wr_err w = wr_err (conn_Write (firstn (off c) (wbuf c) ++ b) (dconn c)) /\
     off (wr_st w) = 0 /\
     wbuf (wr_st w) = wbuf c /\
     (started (wr_st w), loops (wr_st w), signals (wr_st w))
       = (started c, loops c, signals c)) /\
  (length b + off c < buffersize ->
   exists w,
     DelayConn_Write b c = Returns w /\
     wr_n w = Z.of_nat (length b) /\ wr_err w = None /\
     dconn (wr_st w) = dconn c /\
     off (wr_st w) = off c + length b /\
     off (wr_st w) < buffersize /\
     length (wbuf (wr_st w)) = buffersize /\
     firstn (off (wr_st w)) (wbuf (wr_st w)) = firstn (off c) (wbuf c) ++ b /\
     started (wr_st w) = true /\
     loops (wr_st w) = (if started c then loops c else S (loops c)) /\
     signals (wr_st w) = S (signals c)).
Proof.
  intros Hwb Hoff Hb.
  assert (Hn0 : (length b =? 0) = false) by (apply Nat.eqb_neq; lia).
  assert (Hin : (length (wbuf c) <? off c) = false) by (apply Nat.ltb_ge; lia).
  split.
  - intros Hfull. unfold DelayConn_Write. rewrite Hn0, Hin.
    destruct (Nat.leb_spec buffersize (length b + off c)) as [_|?]; [|lia].
    set (pre := firstn (off c) (wbuf c)).
    assert (Hpre : length pre = off c) by (unfold pre; rewrite length_firstn; lia).
    assert (E1 : fst (copy_at (make (length b + off c)) 0 pre)
                 = pre ++ make (length b)).
    { pose proof (copy_at_fill [] pre (length b + off c)) as Hc.
      cbn [app length] in Hc. rewrite Hc by lia. cbn [fst].
      do 2 f_equal. lia. }
    rewrite E1.
    assert (E2 : fst (copy_at (pre ++ make (length b)) (off c) b) = pre ++ b).
    { rewrite <- Hpre, copy_at_fill by lia. cbn [fst].
      rewrite Nat.sub_diag. cbn. now rewrite app_nil_r. }
    rewrite E2.
    eexists. split; [reflexivity|]. cbn [wr_st wr_err dconn off wbuf started loops signals].
    repeat split.
    unfold conn_Write. destruct (wr_script (dconn c)) as [|[[sent e]|] scr]; reflexivity.
  - intros Hroom. unfold DelayConn_Write. rewrite Hn0, Hin.
    destruct (Nat.leb_spec buffersize (length b + off c)) as [?|_]; [lia|].
    eexists. split; [reflexivity|].
    cbn [wr_st wr_err wr_n dconn off wbuf started loops signals].
    assert (Hcopy : fst (copy_at (wbuf c) (off c) b)
                    = firstn (off c) (wbuf c) ++ b ++ skipn (off c + length b) (wbuf c)).
    { unfold copy_at. cbn [fst]. rewrite Nat.min_r by lia. now rewrite firstn_all. }
    rewrite Hcopy. repeat split; try lia.
    + rewrite !length_app, length_firstn, length_skipn. lia.
    + rewrite app_assoc.
      assert (Hl : length (firstn (off c) (wbuf c) ++ b) = off c + length b)
        by (rewrite length_app, length_firstn; lia).
      rewrite <- Hl. apply firstn_exact.
Qed.

End Coalescing.

(* ------------------------------------------------------------------ *)
(** ** What every read preserves, and why the fuel is enough *)

Section ReaderInvariants.

Context {E : Extern}.

Lemma quiet_refl c : quiet c c.
Proof. repeat split; lia. Qed.

Lemma quiet_trans c1 c2 c3 : quiet c1 c2 -> quiet c2 c3 -> quiet c1 c3.
Proof.
  intros [(Hw1 & Hp1 & Hr1 & Hd1) Hl1] [(Hw2 & Hp2 & Hr2 & Hd2) Hl2].
  repeat split; try congruence. lia.
Qed.

Lemma RemainConn_Read_write_side k r :
  write_side (rd_st (RemainConn_Read k r)) = write_side r.
Proof.
  unfold RemainConn_Read, conn_Read, write_side.
  destruct (remain r) as [|x rm].
  - destruct (inbound (conn r)) as [|[seg|e] evs]; cbn; try reflexivity.
    destruct (skipn k seg); reflexivity.
  - reflexivity.
Qed.

Lemma RemainConn_Read_len k r :
  length (rd_data (RemainConn_Read k r)) <= k /\
  (rd_err (RemainConn_Read k r) = None ->
   rd_n (RemainConn_Read k r) = Z.of_nat (length (rd_data (RemainConn_Read k r)))).
Proof.
  unfold RemainConn_Read.
  destruct (remain r) as [|x rm].
  - cbn [rd_data rd_n rd_err]. destruct (conn_Read_data k (conn r)) as [Hn Hl].
    split; [exact Hl | intros _; exact Hn].
  - cbn [rd_data rd_n]. split; [rewrite length_firstn; lia | reflexivity].
Qed.

(** A successful read of the RemainConn shrinks the weight by at least
    the number of bytes it returns. *)
Lemma RemainConn_Read_weight_data k r :
  length (rd_data (RemainConn_Read k r)) + rc_weight (rd_st (RemainConn_Read k r))
    <= rc_weight r.
Proof.
  destruct (remain r) as [|x rm] eqn:Hrm.
  - unfold RemainConn_Read, rc_weight, conn_Read. rewrite Hrm.
    destruct (inbound (conn r)) as [|[seg|e] evs];
      cbn [rd_st rd_data conn remain length inbound events_weight]; try lia.
    pose proof (firstn_skipn k seg) as Hfs.
    assert (Hl : length (firstn k seg) + length (skipn k seg) = length seg)
      by (rewrite <- length_app, Hfs; reflexivity).
    destruct (skipn k seg) as [|y rest];
      cbn [rd_st rd_data conn remain length inbound events_weight] in *; lia.
  - rewrite RemainConn_Read_remain by congruence.
    unfold rc_weight. cbn [rd_st rd_data conn remain].
    pose proof (firstn_skipn k (remain r)) as Hfs.
    assert (Hl : length (firstn k (remain r)) + length (skipn k (remain r))
                 = length (remain r))
      by (rewrite <- length_app, Hfs; reflexivity).
    lia.
Qed.

Lemma feed_progress p data :
  forall it0 it e, feed p data it0 = (it, (true, e)) -> it0 < it.
Proof.
  revert p. induction data as [|x data IH]; intros p it0 it e H; cbn [feed] in H.
  - discriminate.
  - destruct (parser_read p x) as [p' [ok err]].
    destruct (ok || is_some err).
    + injection H as <- _ _. lia.
    + apply IH in H. lia.
Qed.

Lemma untouched_set_rc c r :
  write_side r = write_side (rc c) -> untouched c (set_rc c r).
Proof. intros H. repeat split. exact H. Qed.

Lemma plain_read_post k c :
  read_post k c
    (let r := RemainConn_Read k (rc c) in
     Rd (rd_n r) (rd_data r) (rd_err r) (set_rc c (rd_st r))).
Proof.
  cbn zeta. unfold read_post. cbn [rd_st rd_data rd_err rd_n].
  destruct (RemainConn_Read_weight k (rc c)) as [Hle Hlt].
  destruct (RemainConn_Read_len k (rc c)) as [Hl _].
  split; [split|split].
  - apply untouched_set_rc, RemainConn_Read_write_side.
  - exact Hle.
  - exact Hl.
  - intros He Hk. apply Hlt; assumption.
Qed.

Lemma readObfsHeader_post k c :
  let r := readObfsHeader k c in
  quiet c (rd_st r) /\
  length (rd_data r) <= k /\
  (rd_err r = None -> rc_weight (rc (rd_st r)) < rc_weight (rc c)).
Proof.
  cbn zeta. unfold readObfsHeader.
  pose proof (RemainConn_Read_write_side buffersize (rc c)) as Hws.
  pose proof (RemainConn_Read_weight_data buffersize (rc c)) as Hwd.
  destruct (RemainConn_Read_len buffersize (rc c)) as [_ Hn].
  set (r := RemainConn_Read buffersize (rc c)) in *.
  assert (Hq1 : quiet c (set_rc c (rd_st r))).
  { split; [apply untouched_set_rc, Hws | cbn [rc set_rc]; lia]. }
  assert (Hfail : forall n e,
    quiet c (rd_st (Rd n [] (Some e) (set_rc c (rd_st r)))) /\
    length (rd_data (Rd n [] (Some e) (set_rc c (rd_st r)))) <= k /\
    (rd_err (Rd n [] (Some e) (set_rc c (rd_st r))) = None ->
     rc_weight (rc (rd_st (Rd n [] (Some e) (set_rc c (rd_st r))))) < rc_weight (rc c))).
  { intros n e. cbn [rd_st rd_data rd_err length].
    split; [exact Hq1 | split; [lia | discriminate]]. }
  destruct (rd_err r) as [e|] eqn:He; [apply Hfail|].
  specialize (Hn eq_refl).
  destruct (Z.eqb_spec (rd_n r) 0) as [H0|H0]; [apply Hfail|].
  assert (Hdata : 1 <= length (rd_data r)) by lia.
  destruct (if resp c then feed newHTTPReplyParser (rd_data r) 0
            else if req c then feed newHTTPRequestParser (rd_data r) 0
            else (0, (false, None))) as [it [ok err]] eqn:Hfeed.
  destruct err as [e|]; [apply Hfail|].
  destruct ok; cbn [negb]; [|apply Hfail].
  assert (Hit : 1 <= it).
  { destruct (resp c); [|destruct (req c)].
    - apply feed_progress in Hfeed. lia.
    - apply feed_progress in Hfeed. lia.
    - discriminate. }
  pose proof (length_skipn it (rd_data r)) as Hls.
  destruct Hq1 as [Hu1 Hw1]. cbn [rc set_rc] in Hw1.
  destruct (skipn it (rd_data r)) as [|y rest] eqn:Hsk.
  { cbn [rd_st rd_data rd_err rd_n length].
    split; [split; [exact Hu1 | cbn [rc clear_roles set_rc]; lia]|].
    split; [lia | intros _; cbn [rc clear_roles set_rc]; lia]. }
  set (lo := y :: rest) in *.
  pose proof (firstn_skipn k lo) as Hfs.
  assert (Hl : length (firstn k lo) + length (skipn k lo) = length lo)
    by (rewrite <- length_app, Hfs; reflexivity).
  assert (Hk : length (firstn k lo) <= k) by (rewrite length_firstn; lia).
  cbn [rd_st rd_data rd_err rd_n].
  destruct (Nat.ltb_spec (length (firstn k lo)) (length lo)) as [Hlt|Hge].
  - assert (Hw : rc_weight (rc (set_rc (clear_roles (set_rc c (rd_st r)))
               (MkRemainConn (conn (rc (clear_roles (set_rc c (rd_st r)))))
                  (remain (rc (clear_roles (set_rc c (rd_st r))))
                   ++ skipn (length (firstn k lo)) lo)
                  (wremain (rc (clear_roles (set_rc c (rd_st r)))))))) < rc_weight (rc c)).
    { unfold rc_weight in *. cbn [rc clear_roles set_rc conn remain] in *.
      rewrite length_app, length_skipn. lia. }
    split; [split; [exact Hu1 | lia]|]. split; [exact Hk | intros _; exact Hw].
  - split; [split; [exact Hu1 | cbn [rc clear_roles set_rc]; lia]|].
    split; [exact Hk | intros _; cbn [rc clear_roles set_rc]; lia].
Qed.

(** [doRead]: the write side and the guards are left alone, the weight
    does not grow, and it shrinks when a read of at least one byte
    succeeds. *)
Lemma doRead_post k c : read_post k c (doRead k c).
Proof.
  unfold doRead.
  destruct (req c || resp c).
  - destruct (readObfsHeader_post k c) as (Hq & Hl & Hlt). cbn zeta in *.
    set (r := readObfsHeader k c) in *.
    destruct (is_some (rd_err r) || negb (rd_n r =? 0)%Z) eqn:Hsel.
    + split; [exact Hq | split; [exact Hl | intros He _; apply Hlt, He]].
    + apply orb_false_iff in Hsel as [Hs _].
      assert (He : rd_err r = None) by (destruct (rd_err r); [discriminate | reflexivity]).
      destruct (plain_read_post k (rd_st r)) as (Hq2 & Hl2 & Hlt2). cbn zeta in *.
      split; [eapply quiet_trans; [exact Hq | exact Hq2]|].
      split; [exact Hl2|].
      intros _ _. destruct Hq2 as [_ Hw2]. specialize (Hlt He). lia.
  - apply plain_read_post.
Qed.

Lemma same_shape_refl b : same_shape b b.
Proof. split; reflexivity. Qed.

Lemma same_shape_trans b1 b2 b3 :
  same_shape b1 b2 -> same_shape b2 b3 -> same_shape b1 b3.
Proof. intros [? ?] [? ?]. split; congruence. Qed.

Lemma same_shape_store data b :
  length data <= scap b -> same_shape b (store data b).
Proof. intros H. split; [apply store_slen | apply store_scap]; exact H. Qed.

(** A read into [b[:k]]: it panics only when [k] exceeds the capacity. *)
Lemma doReadInto_post k b c :
  match doReadInto k b c with
  | Panics => scap b < k
  | Returns (r, b1) => r = doRead k c /\ same_shape b b1 /\ read_post k c r
  end.
Proof.
  unfold doReadInto. destruct (Nat.ltb_spec (scap b) k) as [Hlt|Hge]; [exact Hlt|].
  destruct (doRead_post k c) as (Hq & Hl & Hw).
  split; [reflexivity|]. split; [apply same_shape_store; lia|].
  split; [exact Hq | split; [exact Hl | exact Hw]].
Qed.

Lemma length_digits_snoc acc ch :
  length_digits acc -> is_length_digit ch = true -> length_digits (acc ++ [ch]).
Proof.
  intros Ha Hc. apply Forall_app. split; [exact Ha | constructor; [exact Hc | constructor]].
Qed.

(** The chunk-length loop ends when it has more fuel than the connection
    has weight; what it reads it takes from the read side only, and the
    line it returns is made of scanner digits. *)
Lemma readChunkLine_post fuel :
  forall acc b c,
    rc_weight (rc c) < fuel -> 1 <= slen b -> length_digits acc ->
    exists res,
      readChunkLine fuel acc b c = Some res /\
      match res with
      | HdrLine digits n b1 c1 =>
          quiet c c1 /\ same_shape b b1 /\ length_digits digits
      | HdrFail r => ret_post b c r /\ ret_err r <> None
      | HdrPanic => False
      end.
Proof.
  induction fuel as [|fuel IH]; intros acc b c Hfuel Hb Hacc; [lia|].
  cbn [readChunkLine].
  pose proof (doReadInto_post 1 b c) as Hrd.
  destruct (doReadInto 1 b c) as [[r b1]|].
  2:{ unfold scap, slen in *. lia. }
  destruct Hrd as (_ & Hsh & Hq & Hl & Hw).
  destruct (rd_err r) as [e|] eqn:He.
  { eexists. split; [reflexivity|]. cbn [ret_err].
    split; [split; [exact Hq | exact Hsh] | discriminate]. }
  destruct (rd_n r =? 0)%Z.
  { eexists. split; [reflexivity|]. cbn [ret_err].
    split; [split; [exact Hq | exact Hsh] | discriminate]. }
  assert (Hb1 : 1 <= slen b1) by (destruct Hsh; lia).
  destruct (vis b1) as [|ch t] eqn:Hv; [unfold slen in Hb1; rewrite Hv in Hb1; cbn in Hb1; lia|].
  specialize (Hw eq_refl (le_n 1)).
  assert (Hnext : forall acc',
    length_digits acc' ->
    exists res,
      readChunkLine fuel acc' b1 (rd_st r) = Some res /\
      match res with
      | HdrLine digits n b2 c1 => quiet c c1 /\ same_shape b b2 /\ length_digits digits
      | HdrFail r0 => ret_post b c r0 /\ ret_err r0 <> None
      | HdrPanic => False
      end).
  { intros acc' Hacc'.
    destruct (IH acc' b1 (rd_st r)) as (res & Hres & Hpost); [lia | exact Hb1 | exact Hacc' |].
    exists res. split; [exact Hres|].
    destruct res as [digits n b2 c1 | r0 |].
    - destruct Hpost as (Hq2 & Hsh2 & Hd2).
      split; [eapply quiet_trans; eassumption|].
      split; [eapply same_shape_trans; eassumption | exact Hd2].
    - destruct Hpost as ([Hq2 Hsh2] & He2).
      split; [|exact He2].
      split; [eapply quiet_trans; eassumption | eapply same_shape_trans; eassumption].
    - exact Hpost. }
  destruct (is_length_digit ch) eqn:Hdig.
  { apply Hnext, length_digits_snoc; assumption. }
  destruct (byte_eqb ch CR); [apply Hnext, Hacc|].
  destruct (byte_eqb ch LF).
  - eexists. split; [reflexivity|]. split; [exact Hq | split; [exact Hsh | exact Hacc]].
  - eexists. split; [reflexivity|]. cbn [ret_err].
    split; [split; [exact Hq | exact Hsh] | discriminate].
Qed.

(** [io.ReadFull] ends as well, and only reads. *)
Lemma ReadAtLeast_loop_post fuel :
  forall size got r,
    rc_weight r < fuel ->
    exists n e r',
      ReadAtLeast_loop fuel size got r = Some (n, e, r') /\
      write_side r' = write_side r /\ rc_weight r' <= rc_weight r.
Proof.
  induction fuel as [|fuel IH]; intros size got r Hfuel; [lia|].
  cbn [ReadAtLeast_loop].
  destruct (size <=? got) eqn:Hle.
  { exists got, None, r. repeat split. lia. }
  apply Nat.leb_gt in Hle.
  destruct (RemainConn_Read_weight (size - got) r) as [Hw Hlt].
  pose proof (RemainConn_Read_write_side (size - got) r) as Hws.
  destruct (rd_err (RemainConn_Read (size - got) r)) as [e|] eqn:He.
  { eexists; eexists; eexists. split; [reflexivity|]. split; [exact Hws | exact Hw]. }
  assert (Hk : 1 <= size - got) by lia.
  specialize (Hlt Hk eq_refl).
  destruct (IH size (got + length (rd_data (RemainConn_Read (size - got) r)))
              (rd_st (RemainConn_Read (size - got) r))) as (n & e & r' & Hloop & Hws' & Hw');
    [lia|].
  exists n, e, r'. split; [exact Hloop|]. split; [congruence | lia].
Qed.

Lemma ReadFull_post fuel size r :
  rc_weight r < fuel ->
  exists n e r',
    ReadFull fuel size r = Some (n, e, r') /\
    write_side r' = write_side r /\ rc_weight r' <= rc_weight r.
Proof.
  intros Hfuel.
  destruct (ReadAtLeast_loop_post fuel size 0 r Hfuel) as (n & e & r' & Hloop & Hws & Hw).
  unfold ReadFull. rewrite Hloop.
  destruct (size <=? n).
  - exists n, None, r'. repeat split; assumption.
  - destruct e as [[]|]; eexists; eexists; eexists;
      (split; [reflexivity | split; assumption]).
Qed.

Lemma hexval_nonneg c d : hexval c = Some d -> (0 <= d)%Z.
Proof.
  unfold hexval, in_range. intros H.
  destruct ((code x30 <=? code c)%Z && (code c <=? code x39)%Z) eqn:H1.
  { apply andb_true_iff in H1 as [Hlo _]. apply Z.leb_le in Hlo.
    injection H as <-. change (code x30) with 48%Z in Hlo. lia. }
  destruct ((code x61 <=? code c)%Z && (code c <=? code x66)%Z) eqn:H2.
  { apply andb_true_iff in H2 as [Hlo _]. apply Z.leb_le in Hlo.
    injection H as <-. change (code x61) with 97%Z in Hlo. lia. }
  destruct ((code x41 <=? code c)%Z && (code c <=? code x46)%Z) eqn:H3.
  { apply andb_true_iff in H3 as [Hlo _]. apply Z.leb_le in Hlo.
    injection H as <-. change (code x41) with 65%Z in Hlo. lia. }
  discriminate.
Qed.

Lemma parse_fold_nonneg s :
  forall v u, (0 <= v)%Z -> fold_left parse_step s (inl v) = inl u -> (0 <= u)%Z.
Proof.
  induction s as [|c s IH]; intros v u Hv H; cbn [fold_left] in H.
  - injection H as <-. exact Hv.
  - unfold parse_step at 2 in H.
    destruct (hexval c) as [d|] eqn:Hd.
    + pose proof (hexval_nonneg c d Hd) as Hd0.
      destruct (2 ^ 64 <=? v * 16 + d)%Z.
      * assert (Hstuck : forall l e, fold_left parse_step l (inr e) = inr e)
          by (induction l; intros; cbn; auto).
        rewrite Hstuck in H. discriminate.
      * eapply IH; [|exact H]. lia.
    + assert (Hstuck : forall l e, fold_left parse_step l (inr e) = inr e)
        by (induction l; intros; cbn; auto).
      rewrite Hstuck in H. discriminate.
Qed.

(** The value of a line of scanner digits is a non-negative [int]. *)
Lemma ParseInt16_digits s i :
  length_digits s -> ParseInt16 s = inl i -> (0 <= i < 2 ^ 63)%Z.
Proof.
  intros Hd H. destruct s as [|c rest]; [discriminate|].
  unfold ParseInt16 in H.
  assert (Hc : is_length_digit c = true) by (inversion Hd; assumption).
  assert (Hneg : byte_eqb c x2d = false).
  { destruct (byte_eqb c x2d) eqn:Heq; [|reflexivity].
    apply Byte.byte_dec_bl in Heq. subst c. discriminate Hc. }
  assert (Hplus : byte_eqb c x2b = false).
  { destruct (byte_eqb c x2b) eqn:Heq; [|reflexivity].
    apply Byte.byte_dec_bl in Heq. subst c. discriminate Hc. }
  rewrite Hneg, Hplus in H. cbn [orb negb andb] in H.
  unfold ParseUint16 in H.
  destruct (fold_left parse_step (c :: rest) (inl 0%Z)) as [un|e] eqn:Hf; [|discriminate].
  apply parse_fold_nonneg in Hf; [|lia].
  destruct (Z.leb_spec (2 ^ 63) un); [discriminate|].
  injection H as <-. lia.
Qed.

Lemma wrap_int_plus2 i :
  (0 <= i < 2 ^ 63)%Z -> (3 <= wrap_int (i + 2) \/ wrap_int (i + 2) < 0 \/ wrap_int (i + 2) = 2)%Z.
Proof.
  intros Hi. unfold wrap_int.
  destruct (Z_lt_le_dec (i + 2) (2 ^ 63)) as [Hlt|Hge].
  - rewrite Z.mod_small by lia. lia.
  - replace (i + 2 + 2 ^ 63)%Z with ((i + 2 - 2 ^ 63) + 1 * 2 ^ 64)%Z by lia.
    rewrite Z.mod_add by lia. rewrite Z.mod_small by lia. lia.
Qed.

Lemma trailer_stage_post n b c :
  exists st,
    trailer_stage n b c = Some st /\
    stage_post b c st
      (fun c1 => chunkLen c1 = 0%Z \/ (c1 = c /\ ~ (0 < chunkLen c <= 2)%Z)).
Proof.
  unfold trailer_stage.
  destruct ((chunkLen c <=? 2)%Z && (0 <? chunkLen c)%Z) eqn:Hin.
  - pose proof (doReadInto_post (Z.to_nat (chunkLen c)) b c) as Hrd.
    destruct (doReadInto (Z.to_nat (chunkLen c)) b c) as [[r b1]|].
    2:{ eexists. split; [reflexivity | exact I]. }
    destruct Hrd as (_ & Hsh & Hq & _).
    destruct (rd_err r) as [e|].
    + eexists. split; [reflexivity|]. cbn [stage_post ret_err].
      split; [split; assumption | discriminate].
    + eexists. split; [reflexivity|]. cbn [stage_post].
      split; [exact Hq | split; [exact Hsh | left; reflexivity]].
  - eexists. split; [reflexivity|]. cbn [stage_post].
    split; [apply quiet_refl | split; [apply same_shape_refl|]].
    right. split; [reflexivity|].
    apply andb_false_iff in Hin as [H|H]; [apply Z.leb_gt in H | apply Z.ltb_ge in H]; lia.
Qed.

Lemma header_stage_post fuel n b c :
  rc_weight (rc c) < fuel -> 1 <= slen b ->
  exists st,
    header_stage fuel n b c = Some st /\
    stage_post b c st
      (fun c1 => (c1 = c /\ chunkLen c <> 0%Z) \/
                 (3 <= chunkLen c1 \/ chunkLen c1 < 0 \/ chunkLen c1 = 2)%Z).
Proof.
  intros Hfuel Hb. unfold header_stage.
  destruct (Z.eqb_spec (chunkLen c) 0) as [H0|H0].
  - destruct (readChunkLine_post fuel [] b c Hfuel Hb) as (res & Hres & Hpost);
      [constructor|].
    rewrite Hres. destruct res as [digits n1 b1 c1 | r |]; [| |contradiction].
    + destruct Hpost as (Hq & Hsh & Hd).
      destruct digits as [|d ds].
      { eexists. split; [reflexivity|]. cbn [stage_post ret_err].
        split; [split; assumption | discriminate]. }
      destruct (ParseInt16 (d :: ds)) as [i|e] eqn:Hp.
      * eexists. split; [reflexivity|].
        cbn [stage_post]. split; [exact Hq | split; [exact Hsh|]].
        right. cbn [chunkLen set_chunkLen].
        apply wrap_int_plus2. eapply ParseInt16_digits; eassumption.
      * eexists. split; [reflexivity|].
        cbn [stage_post ret_err]. split; [split; assumption | discriminate].
    + eexists. split; [reflexivity|]. exact Hpost.
  - eexists. split; [reflexivity|]. cbn [stage_post].
    split; [apply quiet_refl | split; [apply same_shape_refl|]].
    left. split; [reflexivity | exact H0].
Qed.

Lemma marker_stage_post fuel n b c :
  rc_weight (rc c) < fuel ->
  exists st,
    marker_stage fuel n b c = Some st /\
    stage_post b c st (fun c1 => c1 = c /\ chunkLen c <> 2%Z).
Proof.
  intros Hfuel. unfold marker_stage.
  destruct (Z.eqb_spec (chunkLen c) 2) as [H2|H2].
  - destruct (ReadFull_post fuel 2 (rc c) Hfuel) as (k & e & r' & Hfull & Hws & Hw).
    rewrite Hfull.
    assert (Hq : quiet c (set_rc c r')).
    { split; [apply untouched_set_rc, Hws | exact Hw]. }
    destruct e as [e|].
    + eexists. split; [reflexivity|]. cbn [stage_post ret_err].
      split; [split; [exact Hq | apply same_shape_refl] | discriminate].
    + eexists. split; [reflexivity|]. cbn [stage_post ret_err].
      split; [split; [exact Hq | apply same_shape_refl] | discriminate].
  - eexists. split; [reflexivity|]. cbn [stage_post].
    split; [apply quiet_refl | split; [apply same_shape_refl|]].
    split; [reflexivity | exact H2].
Qed.

Lemma payload_stage_post b c :
  1 <= slen b -> (3 <= chunkLen c \/ chunkLen c < 0)%Z ->
  match payload_stage b c with
  | Returns r =>
      ret_post b c r /\
      (ret_err r = None -> rc_weight (rc (ret_conn r)) < rc_weight (rc c))
  | Panics => True
  end.
Proof.
  intros Hb Hcl. unfold payload_stage.
  destruct (Z.gtb_spec (chunkLen c) (Z.of_nat (slen b))) as [Hgt|Hle].
  - pose proof (doReadInto_post (slen b) b c) as Hrd.
    destruct (doReadInto (slen b) b c) as [[r b1]|]; [|exact I].
    destruct Hrd as (_ & Hsh & Hq & Hl & Hw).
    destruct (rd_err r) as [e|] eqn:He.
    + split; [split; assumption | discriminate].
    + cbn [ret_err ret_conn ret_buf].
      split; [split; [|exact Hsh] | intros _; apply Hw; [reflexivity | exact Hb]].
      destruct Hq as [Hu Hwt]. split; [exact Hu | exact Hwt].
  - destruct (Z.ltb_spec (chunkLen c) 0) as [Hneg|Hpos]; [exact I|].
    pose proof (doReadInto_post (Z.to_nat (chunkLen c)) b c) as Hrd.
    destruct (doReadInto (Z.to_nat (chunkLen c)) b c) as [[r b1]|]; [|exact I].
    destruct Hrd as (_ & Hsh & Hq & Hl & Hw).
    destruct (rd_err r) as [e|] eqn:He.
    + split; [split; assumption | discriminate].
    + cbn [ret_err ret_conn ret_buf].
      split; [split; [|exact Hsh] | intros _; apply Hw; [reflexivity | lia]].
      destruct Hq as [Hu Hwt]. split; [exact Hu | exact Hwt].
Qed.

(** [readInLock] has a result whenever the fuel exceeds the weight of the
    connection; a call that returns has only read; and a call with a
    non-empty buffer that returns a nil error has consumed something. *)
Lemma readInLock_fuel_post fuel b c :
  rc_weight (rc c) < fuel ->
  exists out,
    readInLock_fuel fuel b c = Some out /\
    match out with
    | Returns r =>
        ret_post b c r /\
        (ret_err r = None -> 1 <= slen b ->
         rc_weight (rc (ret_conn r)) < rc_weight (rc c))
    | Panics => True
    end.
Proof.
  intros Hfuel. unfold readInLock_fuel.
  destruct (Nat.eqb_spec (slen b) 0) as [H0|H0].
  { eexists. split; [reflexivity|]. cbn [ret_conn ret_buf ret_err].
    split; [split; [apply quiet_refl | apply same_shape_refl] | intros _ Hb; lia]. }
  assert (Hb : 1 <= slen b) by lia.
  destruct (trailer_stage_post 0 b c) as (st1 & Hst1 & Hp1). rewrite Hst1.
  destruct st1 as [[[n1 b1] c1]|out1].
  2:{ exists out1. split; [reflexivity|]. destruct out1 as [r|]; [|exact I].
      destruct Hp1 as [Hrp He]. split; [exact Hrp | intros Hn; contradiction]. }
  destruct Hp1 as (Hq1 & Hsh1 & Hopen1).
  assert (Hb1 : 1 <= slen b1) by (destruct Hsh1; lia).
  assert (Hw1 : rc_weight (rc c1) < fuel) by (destruct Hq1; lia).
  destruct (header_stage_post fuel n1 b1 c1 Hw1 Hb1) as (st2 & Hst2 & Hp2). rewrite Hst2.
  destruct st2 as [[[n2 b2] c2]|out2].
  2:{ exists out2. split; [reflexivity|]. destruct out2 as [r|]; [|exact I].
      destruct Hp2 as [[Hq2 Hsh2] He].
      split; [|intros Hn; contradiction].
      split; [eapply quiet_trans; eassumption | eapply same_shape_trans; eassumption]. }
  destruct Hp2 as (Hq2 & Hsh2 & Hopen2).
  assert (Hq12 : quiet c c2) by (eapply quiet_trans; eassumption).
  assert (Hsh12 : same_shape b b2) by (eapply same_shape_trans; eassumption).
  assert (Hw2 : rc_weight (rc c2) < fuel) by (destruct Hq12; lia).
  destruct (marker_stage_post fuel n2 b2 c2 Hw2) as (st3 & Hst3 & Hp3). rewrite Hst3.
  destruct st3 as [[[n3 b3] c3]|out3].
  2:{ exists out3. split; [reflexivity|]. destruct out3 as [r|]; [|exact I].
      destruct Hp3 as [[Hq3 Hsh3] He].
      split; [|intros Hn; contradiction].
      split; [eapply quiet_trans; eassumption | eapply same_shape_trans; eassumption]. }
  destruct Hp3 as (Hq3 & Hsh3 & [-> Hne2]).
  assert (Hb3 : 1 <= slen b3) by (destruct Hsh12, Hsh3; lia).
  assert (Hcl : (3 <= chunkLen c2 \/ chunkLen c2 < 0)%Z).
  { destruct Hopen2 as [[-> Hne0]|Hr]; [|lia].
    destruct Hopen1 as [H0'|[-> Hnot]]; [contradiction | lia]. }
  pose proof (payload_stage_post b3 c2 Hb3 Hcl) as Hpay.
  eexists. split; [reflexivity|].
  destruct (payload_stage b3 c2) as [r|]; [|exact I].
  destruct Hpay as [[Hq4 Hsh4] Hlt].
  split.
  - split; [eapply quiet_trans; eassumption|].
    eapply same_shape_trans; [exact Hsh12|].
    eapply same_shape_trans; [exact Hsh3 | exact Hsh4].
  - intros He _. specialize (Hlt He). destruct Hq12 as [_ Hle]. lia.
Qed.

(** The fuel [readInLock] supplies is enough: the call always has a
    result. *)
Theorem readInLock_total b c :
  exists out,
    readInLock b c = Some out /\
    match out with
    | Returns r =>
        ret_post b c r /\
        (ret_err r = None -> 1 <= slen b ->
         rc_weight (rc (ret_conn r)) < rc_weight (rc c))
    | Panics => True
    end.
Proof. apply readInLock_fuel_post. lia. Qed.


(** The drain loop ends when the buffer it reads into is not empty. *)
Lemma drain_total fuel :
  forall b c,
    rc_weight (rc c) < fuel -> 1 <= slen b ->
    exists res, drain fuel b c = Some res.
Proof.
  induction fuel as [|fuel IH]; intros b c Hfuel Hb; [lia|].
  cbn [drain].
  destruct (eos c); [eexists; reflexivity|].
  destruct (reading c); [eexists; reflexivity|].
  destruct (readInLock_total b c) as (out & Hout & Hpost). rewrite Hout.
  destruct out as [r|]; [|eexists; reflexivity].
  destruct Hpost as [[Hq Hsh] Hlt].
  destruct (ret_err r) as [e|] eqn:He.
  - destruct (eos (ret_conn r)); eexists; reflexivity.
  - specialize (Hlt eq_refl Hb).
    apply IH; [lia | destruct Hsh; lia].
Qed.

End ReaderInvariants.

(* ------------------------------------------------------------------ *)
(** ** Close *)

Section GracefulClose.

Context {E : Extern}.

(** Writing touches neither the bytes ahead nor the count of closes. *)
Lemma RemainConn_Write_read_side b r :
  let r' := wr_st (RemainConn_Write b r) in
  remain r' = remain r /\ inbound (conn r') = inbound (conn r) /\
  closes (conn r') = closes (conn r) /\ reads (conn r') = reads (conn r).
Proof.
  cbn zeta. unfold RemainConn_Write, conn_Write.
  destruct (wremain r) as [|x rest];
    destruct (wr_script (conn r)) as [|[[sent e]|] scr]; cbn; repeat split.
Qed.

Lemma RemainConn_Write_weight b r :
  rc_weight (wr_st (RemainConn_Write b r)) = rc_weight r.
Proof.
  destruct (RemainConn_Write_read_side b r) as (Hr & Hi & _). cbn zeta in *.
  unfold rc_weight. now rewrite Hr, Hi.
Qed.

(** [c.Write(nil)]: the end-of-stream chunk. *)
Lemma ObfsConn_Write_nil c :
  ObfsConn_Write [] c =
    let r := RemainConn_Write (frame []) (rc c) in
    Returns (Wr 0 (wr_err r) (set_rc c (wr_st r))).
Proof.
  rewrite ObfsConn_Write_frame by (cbn; lia). cbn zeta. cbn [length Z.of_nat].
  destruct (is_some (wr_err (RemainConn_Write (frame []) (rc c)))); reflexivity.
Qed.






(** [Close] on a live connection that has a pool. *)
Lemma ObfsConn_Close_pooled c p :
  destroy c = false -> pool c <> None ->
  let sent := RemainConn_Write (frame []) (rc c) in
  let c2 := set_rc (set_destroy c true) (wr_st sent) in
  ObfsConn_Close c p =
    match wr_err sent with
    | Some _ => Some (hard_close c2 p)
    | None =>
        match drain (S (rc_weight (rc c2))) (make_slice buffersize) c2 with
        | None => None
        | Some DrainPanics => Some ClosePanics
        | Some (DrainWaits c3) => Some (CloseWaits c3 p)
        | Some (DrainErr c3) => Some (hard_close c3 p)
        | Some (DrainEos c3) =>
            match fst (pool_Put (fresh_framer c3) p) with
            | None => Some (CloseDone None c3 (snd (pool_Put (fresh_framer c3) p)))
            | Some _ => Some (hard_close c3 (snd (pool_Put (fresh_framer c3) p)))
            end
        end
    end.
Proof.
  intros Hd Hp. cbn zeta. unfold ObfsConn_Close. rewrite Hd.
  change (pool (set_destroy c true)) with (pool c).
  destruct (pool c) as [ref|]; [|congruence].
  rewrite ObfsConn_Write_nil. cbn zeta. cbn [wr_st wr_err].
  change (rc (set_destroy c true)) with (rc c).
  destruct (wr_err (RemainConn_Write (frame []) (rc c))); [reflexivity|].
  destruct (drain _ _ _) as [[c3|c3|c3|]|]; try reflexivity.
  destruct (pool_Put (fresh_framer c3) p) as [[e|] p']; reflexivity.
Qed.


(** X17.  [Close] ends whenever the buffers of the program are not empty:
    the drain loop, which reads until the peer's end-of-stream marker or
    a failure, does not go on for ever. *)
Theorem ObfsConn_Close_total c p :
  1 <= buffersize -> exists out, ObfsConn_Close c p = Some out.
Proof.
  intros Hbs.
  destruct (destroy c) eqn:Hd.
  { unfold ObfsConn_Close. rewrite Hd. eexists; reflexivity. }
  destruct (pool c) as [ref|] eqn:Hp.
  2:{ unfold ObfsConn_Close. rewrite Hd.
      change (pool (set_destroy c true)) with (pool c). rewrite Hp.
      eexists; reflexivity. }
  rewrite ObfsConn_Close_pooled by congruence. cbn zeta.
  destruct (wr_err (RemainConn_Write (frame []) (rc c))); [eexists; reflexivity|].
  set (c2 := set_rc (set_destroy c true) _).
  destruct (drain_total (S (rc_weight (rc c2))) (make_slice buffersize) c2) as (res & Hres).
  - lia.
  - unfold slen, make_slice, make. cbn [vis]. rewrite repeat_length. exact Hbs.
  - rewrite Hres. destruct res as [c3|c3|c3|]; try (eexists; reflexivity).
    destruct (fst (pool_Put (fresh_framer c3) p)); eexists; reflexivity.
Qed.






End GracefulClose.

(* ------------------------------------------------------------------ *)
(** ** The guards of Read and the two mutexes *)

Section LockFacts.

Context {E : Extern}.

(** [readInLock] leaves the two guard flags alone. *)
Lemma readInLock_keeps_flags b c r :
  readInLock b c = Some (Returns r) ->
  reading (ret_conn r) = reading c /\ destroy (ret_conn r) = destroy c.
Proof.
  intros H. destruct (readInLock_total b c) as (out & Hout & Hpost).
  rewrite H in Hout. injection Hout as <-.
  destruct Hpost as [[[(_ & _ & Hr & Hd) _] _] _]. split; assumption.
Qed.

(** What the step-by-step [Close] comes to, in the terms of [ObfsConn_Close]. *)
Lemma close_hard_ends s c p rl :
  rlock_held s = rl ->
  exists e c',
    hard_close c p = CloseDone e c' p /\
    close_hard s c p = Moves (MkLocked c' false rl, p, CloseEnded (Returns e)).
Proof.
  intros <-. unfold hard_close, close_hard.
  destruct (RemainConn_Close (rc c)) as [e rc']. eexists. eexists.
  split; reflexivity.
Qed.

Lemma close_put_ends s c p rl :
  rlock_held s = rl ->
  exists e c' p',
    (let '(e0, p0) := pool_Put (fresh_framer c) p in
     match e0 with
     | None => CloseDone None c p0
     | Some _ => hard_close c p0
     end) = CloseDone e c' p' /\
    close_put s c p = Moves (MkLocked c' false rl, p', CloseEnded (Returns e)).
Proof.
  intros Hrl. unfold close_put.
  destruct (pool_Put (fresh_framer c) p) as [[e0|] p0].
  - destruct (close_hard_ends s c p0 rl Hrl) as (e & c' & Hh & Hs).
    exists e, c', p0. split; assumption.
  - subst rl. exists None, c, p0. split; reflexivity.
Qed.

(** The drain loop, taken step by step with no other call around, ends
    as [drain] says. *)
Lemma drain_alone fuel :
  forall b c res p rl,
    drain fuel b c = Some res -> reading c = false ->
    match res with
    | DrainEos c3 =>
        exists n e c' p',
          (let '(e0, p0) := pool_Put (fresh_framer c3) p in
           match e0 with
           | None => CloseDone None c3 p0
           | Some _ => hard_close c3 p0
           end) = CloseDone e c' p' /\
          Close_alone n (MkLocked c false rl) p (CloseAtLoop b)
            = Some (MkLocked c' false rl, p', Returns e)
    | DrainErr c3 =>
        exists n e c',
          hard_close c3 p = CloseDone e c' p /\
          Close_alone n (MkLocked c false rl) p (CloseAtLoop b)
            = Some (MkLocked c' false rl, p, Returns e)
    | DrainPanics =>
        exists n s', Close_alone n (MkLocked c false rl) p (CloseAtLoop b)
                     = Some (s', p, Panics)
    | DrainWaits _ => False
    end.
Proof.
  induction fuel as [|fuel IH]; intros b c res p rl H Hrd; [discriminate|].
  cbn [drain] in H.
  destruct (eos c) eqn:Heos.
  { injection H as <-.
    destruct (close_put_ends (MkLocked c false rl) c p rl eq_refl)
      as (e & c' & p' & Hseq & Hstep).
    exists 1, e, c', p'. split; [exact Hseq|].
    cbn [Close_alone Close_step lock_held obj]. rewrite Heos, Hstep. reflexivity. }
  rewrite Hrd in H.
  assert (Hfirst : forall n,
    Close_alone (S n) (MkLocked c false rl) p (CloseAtLoop b)
    = Close_alone n (MkLocked c true rl) p (CloseInLock b)).
  { intros n. cbn [Close_alone Close_step lock_held obj rlock_held].
    rewrite Heos, Hrd. reflexivity. }
  destruct (readInLock b c) as [[r|]|] eqn:Hread; [| |discriminate].
  - pose proof (readInLock_keeps_flags b c r Hread) as [Hrd' _].
    destruct (ret_err r) as [err|] eqn:Herr.
    + destruct (eos (ret_conn r)) eqn:Heos'; injection H as <-.
      * destruct (close_put_ends (MkLocked (ret_conn r) false rl) (ret_conn r) p rl eq_refl)
          as (e & c' & p' & Hseq & Hstep).
        exists 2, e, c', p'. split; [exact Hseq|].
        rewrite Hfirst. cbn [Close_alone Close_step obj rlock_held].
        rewrite Hread, Herr, Heos', Hstep. reflexivity.
      * destruct (close_hard_ends (MkLocked (ret_conn r) false rl) (ret_conn r) p rl eq_refl)
          as (e & c' & Hseq & Hstep).
        exists 2, e, c'. split; [exact Hseq|].
        rewrite Hfirst. cbn [Close_alone Close_step obj rlock_held].
        rewrite Hread, Herr, Heos', Hstep. reflexivity.
    + assert (Hnext : forall n,
        Close_alone (S (S n)) (MkLocked c false rl) p (CloseAtLoop b)
        = Close_alone n (MkLocked (ret_conn r) false rl) p (CloseAtLoop (ret_buf r))).
      { intros n. rewrite Hfirst. cbn [Close_alone Close_step obj rlock_held].
        rewrite Hread, Herr. reflexivity. }
      specialize (IH (ret_buf r) (ret_conn r) res p rl H (eq_trans Hrd' Hrd)).
      destruct res as [c3|c3|c3|].
      * destruct IH as (n & e & c' & p' & Hseq & Hrun).
        exists (S (S n)), e, c', p'. split; [exact Hseq|]. rewrite Hnext. exact Hrun.
      * destruct IH as (n & e & c' & Hseq & Hrun).
        exists (S (S n)), e, c'. split; [exact Hseq|]. rewrite Hnext. exact Hrun.
      * exact IH.
      * destruct IH as (n & s' & Hrun).
        exists (S (S n)), s'. rewrite Hnext. exact Hrun.
  - injection H as <-. exists 2. eexists.
    rewrite Hfirst. cbn [Close_alone Close_step obj]. rewrite Hread. reflexivity.
Qed.

(** [Close], taken step by step with no other call around and no read
    in flight, returns what [ObfsConn_Close] returns and leaves both
    mutexes free. *)
Lemma Close_alone_agrees (c : ObfsConn) (p : ConnPool) e c' p' :
  reading c = false ->
  ObfsConn_Close c p = Some (CloseDone e c' p') ->
  exists n,
    Close_alone n (MkLocked c false false) p CloseAtLock
    = Some (MkLocked c' false false, p', Returns e).
Proof.
  intros Hrd H. unfold ObfsConn_Close in H.
  destruct (destroy c) eqn:Hd.
  { injection H as <- <- <-. exists 1.
    cbn [Close_alone Close_step lock_held obj]. rewrite Hd. reflexivity. }
  assert (Hfirst : forall n,
    Close_alone (S n) (MkLocked c false false) p CloseAtLock
    = match Close_step (MkLocked c false false) p CloseAtLock with
      | Moves (s', p0, a') => Close_alone n s' p0 a'
      | _ => None
      end) by reflexivity.
  cbn [Close_step lock_held obj rlock_held] in Hfirst. rewrite Hd in Hfirst.
  destruct (pool (set_destroy c true)) as [ref|].
  2:{ destruct (close_hard_ends (MkLocked c false false) (set_destroy c true) p false eq_refl)
        as (e1 & c1 & Hseq & Hstep).
      rewrite Hseq in H. injection H as <- <- <-.
      exists 1. rewrite Hfirst, Hstep. reflexivity. }
  destruct (ObfsConn_Write [] (set_destroy c true)) as [w|] eqn:Hw; [|discriminate].
  destruct (wr_err w) as [we|].
  { destruct (close_hard_ends (MkLocked c false false) (wr_st w) p false eq_refl)
      as (e1 & c1 & Hseq & Hstep).
    rewrite Hseq in H. injection H as <- <- <-.
    exists 1. rewrite Hfirst, Hstep. reflexivity. }
  assert (Hrd2 : reading (wr_st w) = false).
  { rewrite ObfsConn_Write_nil in Hw. cbn zeta in Hw. injection Hw as <-.
    exact Hrd. }
  destruct (drain (S (rc_weight (rc (wr_st w)))) (make_slice buffersize) (wr_st w))
    as [res|] eqn:Hdr; [|discriminate].
  pose proof (drain_alone _ _ _ _ p false Hdr Hrd2) as Hloop.
  destruct res as [c3|c3|c3|]; try discriminate.
  - destruct Hloop as (n & e1 & c1 & p1 & Hseq & Hrun).
    destruct (pool_Put (fresh_framer c3) p) as [[e0|] p0].
    + rewrite Hseq in H. injection H as <- <- <-.
      exists (S n). rewrite Hfirst. exact Hrun.
    + injection Hseq as <- <- <-. injection H as <- <- <-.
      exists (S n). rewrite Hfirst. exact Hrun.
  - destruct Hloop as (n & e1 & c1 & Hseq & Hrun).
    rewrite Hseq in H. injection H as <- <- <-.
    exists (S n). rewrite Hfirst. exact Hrun.
Qed.


End LockFacts.

(* ================================================================== *)
(** * The statements on concrete connections *)

(** ["ping"] written by one framer arrives whole at another, which reads
    it back with an 8-byte buffer. *)
Lemma frame_roundtrip_witness :
  exists out,
    @readInLock sample_extern (make_slice 8) (framer_on [RdData (frame ping)] None)
      = Some (Returns out) /\
    ret_n out = 4%Z /\ firstn 4 (vis (ret_buf out)) = ping /\ ret_err out = None.
Proof.
  destruct (@frame_roundtrip sample_extern ping (framer_on [] None))
    as (w & sent & Hw & Hlog & Hrecv).
  - vm_compute. reflexivity.
  - reflexivity.
  - vm_compute in Hw. injection Hw as <-.
    vm_compute in Hlog. injection Hlog as <-.
    apply (Hrecv (framer_on [RdData (frame ping)] None) (make_slice 8) []).
    + split; reflexivity.
    + reflexivity.
    + vm_compute. lia.
    + vm_compute. lia.
    + reflexivity.
Defined.

(** Writing ["ping"] on a fresh framer puts ["4" CR LF "ping" CR LF] on the
    wire in one write. *)
Lemma write_emits_one_frame_witness :
  exists w,
    ObfsConn_Write ping (framer_on [] None) = Returns w /\
    wlog (conn (rc (wr_st w))) = [[x34; CR; LF] ++ ping ++ [CR; LF]].
Proof.
  destruct (write_emits_one_frame ping (framer_on [] None))
    as (w & Hw & _ & _ & _ & _ & _ & _ & Hlog & _).
  - vm_compute. reflexivity.
  - exists w. split; [exact Hw | rewrite Hlog; reflexivity].
Defined.


(** The chunk-length line ["1g"]: the read fails on ['g']. *)
Lemma chunk_header_framing_errors_witness :
  exists b' c',
    @readInLock sample_extern (make_slice 8) (framer_on [RdData [x31; x67]] None)
      = Some (Returns (Ret 1 (Some (ErrLengthChar x67)) b' c')).
Proof.
  pose (c0 := framer_on [RdData [x31; x67]] None).
  pose (r1 := rd_st (RemainConn_Read 1 (rc c0))).
  pose (r2 := rd_st (RemainConn_Read 1 r1)).
  destruct (@chunk_header_framing_errors sample_extern (make_slice 8) c0 [x31] r1 r2)
    as (Hbad & _ & _).
  - reflexivity.
  - split; reflexivity.
  - vm_compute. lia.
  - eapply delivers_cons; [reflexivity | constructor].
  - constructor; [left; reflexivity | constructor].
  - destruct (Hbad x67) as (b' & Hb' & _);
      [reflexivity | reflexivity | discriminate | discriminate |].
    exists b', (set_rc c0 r2). exact Hb'.
Defined.


(** A peer whose first bytes are ["GET"]: the handler builds a framer. *)
Lemma accept_handler_cases_witness :
  exists c,
    @obfsAcceptHandler sample_extern (fresh_conn [RdData GET]) plain_listener
      = AcceptObfs c /\
    remain (rc c) = GET /\ wremain (rc c) = sample_response /\
    req c = true /\ pool c = Some 0.
Proof.
  destruct (@accept_handler_cases sample_extern (fresh_conn [RdData GET]) plain_listener)
    as (_ & _ & Hobfs).
  eexists. split.
  - apply Hobfs; [reflexivity | discriminate | left; vm_compute; discriminate].
  - repeat split.
Defined.

(** The first small write on a fresh DelayConn is buffered. *)
Lemma DelayConn_Write_cases_witness :
  exists w,
    @DelayConn_Write sample_extern ping (@NewDelayConn sample_extern (fresh_conn []))
      = Returns w /\
    off (wr_st w) = 4 /\ firstn 4 (wbuf (wr_st w)) = ping /\
    wlog (dconn (wr_st w)) = [] /\
    started (wr_st w) = true /\ loops (wr_st w) = 1 /\ signals (wr_st w) = 1.
Proof.
  destruct (@DelayConn_Write_cases sample_extern ping
              (@NewDelayConn sample_extern (fresh_conn []))) as (_ & Hroom).
  - vm_compute. reflexivity.
  - vm_compute. lia.
  - vm_compute. lia.
  - destruct Hroom as (w & Hw & _ & _ & Hd & Hoff & _ & _ & Hbuf & Hst & Hl & Hs).
    + vm_compute. lia.
    + exists w. rewrite Hd, Hoff, Hst, Hl, Hs. repeat split; try assumption.
      rewrite Hoff in Hbuf. exact Hbuf.
Defined.

(** A write that fails while the response header is still unsent. *)
Lemma RemainConn_Write_keeps_unsent_witness :
  let c := MkRemainConn (MkNetConn [] [Some (0, ErrExternal 7)] [] 0 0 None)
                        [] sample_response in
  wr_err (RemainConn_Write ping c) = Some (ErrExternal 7) /\
  wr_n (RemainConn_Write ping c) = 0%Z /\
  wremain (wr_st (RemainConn_Write ping c)) = sample_response /\
  wlog (conn (wr_st (RemainConn_Write ping c))) = [sample_response ++ ping].
Proof.
  cbn zeta.
  destruct (RemainConn_Write_keeps_unsent
              (MkRemainConn (MkNetConn [] [Some (0, ErrExternal 7)] [] 0 0 None)
                            [] sample_response) ping)
    as (_ & Hlog & Herr & Hfail & _).
  - discriminate.
  - destruct (Hfail (ErrExternal 7) eq_refl) as [Hn Hw].
    repeat split; assumption.
Defined.


(* ------------------------------------------------------------------ *)
(** ** Where the code departs from the statements *)


(** C7, as first stated, fails: the first read yields the three bytes
    ["GET"], fewer than 4 and not the method token, and the handler does
    not pass the connection through: it builds an accept-role framer. *)
Lemma accept_short_peek_is_framed :
  rd_n (conn_Read (@buffersize sample_extern) (fresh_conn [RdData GET])) = 3%Z /\
  firstn 4 GET <> POST /\
  (forall r, @obfsAcceptHandler sample_extern (fresh_conn [RdData GET]) plain_listener
             <> AcceptPlain r) /\
  exists c,
    @obfsAcceptHandler sample_extern (fresh_conn [RdData GET]) plain_listener
      = AcceptObfs c /\ req c = true.
Proof.
  split; [reflexivity|]. split; [discriminate|]. split.
  - intros r. vm_compute. discriminate.
  - vm_compute. eexists. split; reflexivity.
Qed.

(** C8, as first stated, fails: a write that fills an empty buffer
    exactly would not overflow it, and still it is not appended: it goes
    out at once, the offset stays zero, and the flush loop is neither
    started nor signalled. *)
Lemma DelayConn_Write_exact_fit :
  let c := @NewDelayConn sample_extern (fresh_conn []) in
  let b := make 4096 in
  length b + off c = @buffersize sample_extern /\
  exists w,
    @DelayConn_Write sample_extern b c = Returns w /\
    off (wr_st w) = 0 /\
    wlog (dconn (wr_st w)) = [b] /\
    started (wr_st w) = false /\ loops (wr_st w) = 0 /\ signals (wr_st w) = 0.
Proof.
  cbn zeta. split; [vm_compute; reflexivity|].
  vm_compute. eexists. repeat split.
Qed.

(** The same for every buffer size: a non-empty write that brings the
    offset exactly to the capacity is sent at once. *)
Lemma DelayConn_Write_fills_exactly {E : Extern} (b : bytes) (c : DelayConn) :
  length (wbuf c) = buffersize -> 0 < length b ->
  length b + off c = buffersize ->
  exists w,
    DelayConn_Write b c = Returns w /\
    off (wr_st w) = 0 /\
    wlog (dconn (wr_st w)) = wlog (dconn c) ++ [firstn (off c) (wbuf c) ++ b] /\
    signals (wr_st w) = signals c.
Proof.
  intros Hwb Hb Hfit.
  assert (Hin : (length (wbuf c) <? off c) = false) by (apply Nat.ltb_ge; lia).
  assert (Hn0 : (length b =? 0) = false) by (apply Nat.eqb_neq; lia).
  unfold DelayConn_Write. rewrite Hn0, Hin.
  destruct (Nat.leb_spec buffersize (length b + off c)) as [_|?]; [|lia].
  set (pre := firstn (off c) (wbuf c)).
  assert (Hpre : length pre = off c) by (unfold pre; rewrite length_firstn; lia).
  assert (E1 : fst (copy_at (make (length b + off c)) 0 pre) = pre ++ make (length b)).
  { pose proof (copy_at_fill [] pre (length b + off c)) as Hc.
    cbn [app length] in Hc. rewrite Hc by lia. cbn [fst]. do 2 f_equal. lia. }
  assert (E2 : fst (copy_at (pre ++ make (length b)) (off c) b) = pre ++ b).
  { rewrite <- Hpre, copy_at_fill by lia. cbn [fst].
    rewrite Nat.sub_diag. cbn. now rewrite app_nil_r. }
  rewrite E1, E2.
  eexists. split; [reflexivity|]. cbn [wr_st dconn off signals].
  repeat split.
  unfold conn_Write. destruct (wr_script (dconn c)) as [|[[sent e]|] scr]; reflexivity.
Qed.

(** Evaluate the closed left-hand side of an equation in the virtual
    machine, leaving the comparison with the right-hand side. *)
Ltac run_closed :=
  match goal with
  | |- ?l = _ =>
      let v := eval vm_compute in l in
      transitivity v; [vm_cast_no_check (@eq_refl _ v) |]
  end.


(** C9 on the code.  The peer sends the end-of-stream marker and then
    the first bytes of its next session.  The first [Read] returns the
    end-of-stream error and sets [eos]; none of the marker's bytes is
    left unread, yet [chunkLen] is 2.  The second [Read] does not stop at
    [eos]: it makes two more reads on the underlying connection and eats
    three bytes of the next session. *)
Example read_after_end_marker :
  let c0 := framer_on [RdData marker_wire; RdData POST] None in
  exists b1 c1 b2 c2,
    @ObfsConn_Read sample_extern (make_slice 8) c0
      = Some (Returns (Ret 0 (Some ErrClosedObfs) b1 c1)) /\
    eos c1 = true /\ chunkLen c1 = 2%Z /\
    pending (rc c1) = POST /\ reads (conn (rc c1)) = 4 /\
    @ObfsConn_Read sample_extern b1 c1
      = Some (Returns (Ret 1 (Some (ErrLengthChar x53)) b2 c2)) /\
    reads (conn (rc c2)) = 6 /\ pending (rc c2) = [x54].
Proof.
  cbn zeta. do 4 eexists.
  split; [run_closed; reflexivity|].
  split; [reflexivity|]. split; [reflexivity|].
  split; [reflexivity|]. split; [reflexivity|].
  split; [run_closed; reflexivity|]. split; reflexivity.
Qed.

(* ================================================================== *)
(** * Further properties *)

(* ------------------------------------------------------------------ *)
(** ** DelayConn: what coalescing keeps *)

Section DelayFacts.

Context {E : Extern}.

Lemma conn_Write_log b nc :
  wlog (wr_st (conn_Write b nc)) = wlog nc ++ [b] /\
  closes (wr_st (conn_Write b nc)) = closes nc.
Proof.
  unfold conn_Write. destruct (wr_script nc) as [|[[sent e]|] scr]; split; reflexivity.
Qed.

Lemma concat_snoc (l : list bytes) (x : bytes) : concat (l ++ [x]) = concat l ++ x.
Proof. rewrite concat_app. cbn. now rewrite app_nil_r. Qed.

(** The buffer [Write] builds for an immediate send. *)
Lemma immediate_buffer (pre b : bytes) n :
  length pre = n ->
  fst (copy_at (fst (copy_at (make (length b + n)) 0 pre)) n b) = pre ++ b.
Proof.
  intros <-.
  pose proof (copy_at_fill [] pre (length b + length pre)) as Hc.
  cbn [app length] in Hc. rewrite Hc by lia. cbn [fst].
  replace (length b + length pre - length pre) with (length b) by lia.
  rewrite copy_at_fill by lia. cbn [fst].
  rewrite Nat.sub_diag. cbn. now rewrite app_nil_r.
Qed.

Lemma DelayConn_Write_kept k b c :
  delay_wf c ->
  exists w,
    DelayConn_Write b c = Returns w /\
    delay_kept k c (wr_st w) b (match b with [] => 0 | _ => 1 end).
Proof.
  intros [Hwb Hoff]. unfold DelayConn_Write.
  destruct b as [|x b'].
  { eexists. split; [reflexivity|]. cbn [wr_st].
    split; [split; assumption|]. split; [now rewrite app_nil_r|].
    split; [lia | auto]. }
  set (b := x :: b').
  assert (Hn0 : (length b =? 0) = false) by (apply Nat.eqb_neq; cbn; lia).
  assert (Hin : (length (wbuf c) <? off c) = false) by (apply Nat.ltb_ge; lia).
  rewrite Hn0, Hin.
  destruct (Nat.leb_spec buffersize (length b + off c)) as [Hfull|Hroom].
  - set (pre := firstn (off c) (wbuf c)).
    assert (Hpre : length pre = off c) by (unfold pre; rewrite length_firstn; lia).
    fold pre. rewrite (immediate_buffer pre b (off c) Hpre).
    destruct (conn_Write_log (pre ++ b) (dconn c)) as [Hlog Hcl].
    eexists. split; [reflexivity|]. cbn [wr_st].
    split; [split; cbn [wbuf off]; [exact Hwb | lia]|].
    split.
    { unfold delay_stream. cbn [dconn off wbuf]. rewrite Hlog, concat_snoc.
      cbn [firstn]. rewrite app_nil_r, app_assoc. reflexivity. }
    split.
    { unfold delay_calls. cbn [dconn off]. rewrite Hlog, length_app. cbn [length Nat.eqb].
      destruct (off c =? 0); lia. }
    intros [Hc Hd]. split; cbn [dconn destroyed die_closed]; [rewrite Hcl; exact Hc | exact Hd].
  - eexists. split; [reflexivity|]. cbn [wr_st].
    assert (Hcopy : fst (copy_at (wbuf c) (off c) b)
                    = firstn (off c) (wbuf c) ++ b ++ skipn (off c + length b) (wbuf c)).
    { unfold copy_at. cbn [fst]. rewrite Nat.min_r by lia. now rewrite firstn_all. }
    split.
    { split; cbn [wbuf off]; [|lia].
      rewrite Hcopy, !length_app, length_firstn, length_skipn. lia. }
    split.
    { unfold delay_stream. cbn [dconn off wbuf]. rewrite Hcopy.
      rewrite (app_assoc (firstn (off c) (wbuf c)) b).
      assert (Hl : length (firstn (off c) (wbuf c) ++ b) = off c + length b)
        by (rewrite length_app, length_firstn; lia).
      rewrite <- Hl, firstn_exact, app_assoc. reflexivity. }
    split.
    { unfold delay_calls. cbn [dconn off].
      destruct (Nat.eqb_spec (off c + length b) 0) as [H0|_]; [cbn in H0; lia|].
      destruct (off c =? 0); lia. }
    intros [Hc Hd]. split; cbn [dconn destroyed die_closed]; assumption.
Qed.

Lemma DelayConn_Close_kept k c :
  delay_wf c -> delay_kept k c (snd (DelayConn_Close c)) [] 0.
Proof.
  intros [Hwb Hoff]. unfold DelayConn_Close.
  destruct (destroyed c) eqn:Hd; cbn [snd].
  - split; [split; assumption|]. split; [now rewrite app_nil_r|]. split; [lia | auto].
  - unfold conn_Close. cbn [snd].
    split; [split; assumption|].
    split; [unfold delay_stream; cbn [dconn off wbuf wlog]; now rewrite app_nil_r|].
    split; [unfold delay_calls; cbn [dconn off wlog]; lia|].
    intros [Hc Hdie]. rewrite Hd in Hc.
    split; cbn [dconn destroyed die_closed closes]; [lia | reflexivity].
Qed.

(** One turn of the flush loop in which the windows [in_wait] and
    [in_tick] keep the buffer well formed and only add bytes at the end of
    the stream: the turn does the same, and it panics only if a window
    does. *)
Lemma sendLoopOnce_kept k in_wait in_tick die_first c :
  (forall x, delay_wf x ->
     match in_wait x with
     | Returns x' => exists added calls, delay_kept k x x' added calls
     | Panics => True
     end) ->
  (forall x, delay_wf x ->
     match in_tick x with
     | Returns x' => exists added calls, delay_kept k x x' added calls
     | Panics => True
     end) ->
  delay_wf c ->
  match sendLoopOnce in_wait in_tick die_first c with
  | Returns (ok, c') =>
      delay_wf c' /\
      (exists added, delay_stream c' = delay_stream c ++ added) /\
      (closed_once k c -> closed_once k c') /\
      (ok = false -> closed_once k c -> destroyed c' = true)
  | Panics =>
      (off c = 0 /\ in_wait c = Panics) \/
      (exists c1, in_tick c1 = Panics)
  end.
Proof.
  intros Hw Ht Hwf. unfold sendLoopOnce.
  destruct (destroyed c) eqn:Hd.
  { split; [exact Hwf|]. split; [exists []; now rewrite app_nil_r|].
    split; [auto | intros _ _; exact Hd]. }
  assert (Hstep1 :
    match (if off c =? 0 then in_wait c else Returns c) with
    | Returns c1 => delay_wf c1 /\
                    (exists added, delay_stream c1 = delay_stream c ++ added) /\
                    (closed_once k c -> closed_once k c1)
    | Panics => off c = 0 /\ in_wait c = Panics
    end).
  { destruct (Nat.eqb_spec (off c) 0) as [H0|H0].
    - specialize (Hw c Hwf). destruct (in_wait c) as [x'|]; [|split; [exact H0 | reflexivity]].
      destruct Hw as (added & calls & Hwf' & Hs & _ & Hc).
      split; [exact Hwf'|]. split; [exists added; exact Hs | exact Hc].
    - split; [exact Hwf|]. split; [exists []; now rewrite app_nil_r | auto]. }
  destruct (if off c =? 0 then in_wait c else Returns c) as [c1|]; [|left; exact Hstep1].
  destruct Hstep1 as (Hwf1 & [a1 Hs1] & Hc1).
  destruct (destroyed c1) eqn:Hd1.
  { split; [exact Hwf1|]. split; [exists a1; exact Hs1|].
    split; [exact Hc1 | intros _ _; exact Hd1]. }
  destruct (off c1 =? 0) eqn:Ho1.
  { split; [exact Hwf1|]. split; [exists a1; exact Hs1|].
    split; [exact Hc1 | discriminate]. }
  specialize (Ht c1 Hwf1).
  destruct (in_tick c1) as [c2|] eqn:Htick; [|right; exists c1; exact Htick].
  destruct Ht as (a2 & calls & Hwf2 & Hs2 & _ & Hc2).
  assert (Hs12 : delay_stream c2 = delay_stream c ++ (a1 ++ a2))
    by (rewrite Hs2, Hs1, app_assoc; reflexivity).
  destruct (die_closed c2 && die_first) eqn:Hdie.
  { split; [exact Hwf2|]. split; [exists (a1 ++ a2); exact Hs12|].
    split; [auto|]. intros _ Hk.
    apply andb_true_iff in Hdie as [Hdc _].
    destruct (Hc2 (Hc1 Hk)) as [_ Heq]. congruence. }
  destruct (off c2 =? 0) eqn:Ho2.
  { split; [exact Hwf2|]. split; [exists (a1 ++ a2); exact Hs12|].
    split; [auto | discriminate]. }
  destruct Hwf2 as [Hwb2 Hoff2].
  destruct (Nat.ltb_spec (length (wbuf c2)) (off c2)) as [?|_]; [lia|].
  destruct (conn_Write_log (firstn (off c2) (wbuf c2)) (dconn c2)) as [Hlog Hcl].
  set (c3 := MkDelayConn _ (wbuf c2) 0 (started c2) (destroyed c2) (die_closed c2)
                         (loops c2) (signals c2) (broadcasts c2)).
  assert (Hwf3 : delay_wf c3) by (split; cbn [wbuf off c3]; [exact Hwb2 | lia]).
  assert (Hs3 : delay_stream c3 = delay_stream c ++ (a1 ++ a2)).
  { rewrite <- Hs12. unfold delay_stream. cbn [dconn off wbuf c3].
    rewrite Hlog, concat_snoc. cbn [firstn]. now rewrite app_nil_r. }
  assert (Hc3 : closed_once k c -> closed_once k c3).
  { intros Hk. destruct (Hc2 (Hc1 Hk)) as [Hcount Hd2].
    split; cbn [dconn destroyed die_closed c3]; [rewrite Hcl; exact Hcount | exact Hd2]. }
  destruct (wr_err _) as [e|].
  - destruct (DelayConn_Close_kept k c3 Hwf3) as (Hwf4 & Hs4 & _ & Hc4).
    split; [exact Hwf4|].
    split; [exists (a1 ++ a2); rewrite Hs4, app_nil_r; exact Hs3|].
    split; [auto|]. intros _ Hk.
    unfold DelayConn_Close. destruct (destroyed c3) eqn:Hd3; [exact Hd3 | reflexivity].
  - split; [exact Hwf3|]. split; [exists (a1 ++ a2); exact Hs3|].
    split; [exact Hc3 | discriminate].
Qed.

(** One turn of the flush loop with nothing landing in its windows. *)
Lemma sendLoopOnce_idle_kept k die_first c :
  delay_wf c ->
  exists ok c',
    sendLoopOnce idle idle die_first c = Returns (ok, c') /\
    delay_kept k c c' [] 0.
Proof.
  intros Hwf.
  assert (Hsame : delay_kept k c c [] 0).
  { split; [exact Hwf|]. split; [now rewrite app_nil_r|]. split; [lia | auto]. }
  unfold sendLoopOnce, idle.
  destruct (destroyed c) eqn:Hd; [eexists; eexists; split; [reflexivity | exact Hsame]|].
  destruct (off c =? 0) eqn:Ho; rewrite Hd.
  { rewrite Ho. eexists; eexists; split; [reflexivity | exact Hsame]. }
  rewrite Ho.
  destruct (die_closed c && die_first);
    [eexists; eexists; split; [reflexivity | exact Hsame]|].
  destruct Hwf as [Hwb Hoff].
  destruct (Nat.ltb_spec (length (wbuf c)) (off c)) as [?|_]; [lia|].
  destruct (conn_Write_log (firstn (off c) (wbuf c)) (dconn c)) as [Hlog Hcl].
  set (c3 := MkDelayConn (wr_st (conn_Write (firstn (off c) (wbuf c)) (dconn c)))
                         (wbuf c) 0 (started c) false (die_closed c)
                         (loops c) (signals c) (broadcasts c)).
  assert (Hk3 : delay_kept k c c3 [] 0).
  { split; [split; cbn [wbuf off c3]; [exact Hwb | lia]|].
    split.
    { unfold delay_stream. cbn [dconn off wbuf c3].
      rewrite Hlog, concat_snoc. cbn [firstn]. now rewrite !app_nil_r. }
    split.
    { unfold delay_calls. cbn [dconn off c3]. rewrite Hlog, length_app, Ho.
      cbn [length Nat.eqb]. lia. }
    intros [Hc Hdie]. rewrite Hd in Hc, Hdie.
    split; cbn [dconn destroyed die_closed c3];
      [rewrite Hcl; exact Hc | exact Hdie]. }
  destruct (wr_err _) as [e|]; [|eexists; eexists; split; [reflexivity | exact Hk3]].
  eexists; eexists; split; [reflexivity|].
  destruct Hk3 as (Hwf3 & Hs3 & Hn3 & Hc3).
  destruct (DelayConn_Close_kept k c3 Hwf3) as (Hwf4 & Hs4 & Hn4 & Hc4).
  split; [exact Hwf4|].
  split; [rewrite Hs4, Hs3, !app_nil_r; reflexivity|].
  split; [lia | auto].
Qed.

Lemma delay_step_kept k a c :
  delay_wf c ->
  exists c',
    delay_step a c = Returns c' /\
    delay_kept k c c' (written [a]) (payload_writes [a]).
Proof.
  intros Hwf. destruct a as [b| |d]; cbn [delay_step written payload_writes].
  - destruct (DelayConn_Write_kept k b c Hwf) as (w & Hw & Hk).
    rewrite Hw. exists (wr_st w). split; [reflexivity|].
    rewrite app_nil_r. destruct b; exact Hk.
  - eexists. split; [reflexivity|]. apply DelayConn_Close_kept, Hwf.
  - destruct (started c).
    + destruct (sendLoopOnce_idle_kept k d c Hwf) as (ok & c' & Hrun & Hk).
      rewrite Hrun. exists c'. split; [reflexivity | exact Hk].
    + exists c. split; [reflexivity|].
      split; [exact Hwf|]. split; [now rewrite app_nil_r|]. split; [lia | auto].
Qed.

Lemma written_app a rest : written (a :: rest) = written [a] ++ written rest.
Proof. destruct a; cbn [written]; rewrite ?app_nil_r; reflexivity. Qed.

Lemma payload_writes_app a rest :
  payload_writes (a :: rest) = payload_writes [a] + payload_writes rest.
Proof. destruct a as [[|x b]| |]; reflexivity. Qed.

(** A run keeps what each of its steps keeps. *)
Lemma delay_run_kept k acts :
  forall c,
    delay_wf c ->
    exists c',
      delay_run acts c = Returns c' /\
      delay_kept k c c' (written acts) (payload_writes acts).
Proof.
  induction acts as [|a rest IH]; intros c Hwf.
  - exists c. split; [reflexivity|]. cbn [written payload_writes].
    split; [exact Hwf|]. split; [now rewrite app_nil_r|]. split; [lia | auto].
  - destruct (delay_step_kept k a c Hwf) as (c1 & Hstep & Hwf1 & Hs1 & Hn1 & Hc1).
    destruct (IH c1 Hwf1) as (c' & Hrun & Hwf' & Hs' & Hn' & Hc').
    exists c'. cbn [delay_run]. rewrite Hstep. split; [exact Hrun|].
    rewrite written_app, payload_writes_app.
    split; [exact Hwf'|].
    split; [rewrite Hs', Hs1, app_assoc; reflexivity|].
    split; [lia | auto].
Qed.

Lemma NewDelayConn_wf nc : 1 <= buffersize -> delay_wf (NewDelayConn nc).
Proof.
  intros H. unfold delay_wf, NewDelayConn, make. cbn [wbuf off].
  rewrite repeat_length. lia.
Qed.

(** X1.  However writes, closes and turns of the flush loop follow each
    other on a DelayConn made by [NewDelayConn], no step panics, the
    buffer keeps its size and the offset stays below the capacity. *)
Theorem delay_run_safe (nc : NetConn) (acts : list delay_action) :
  1 <= buffersize ->
  exists c',
    delay_run acts (NewDelayConn nc) = Returns c' /\
    length (wbuf c') = buffersize /\ off c' < buffersize.
Proof.
  intros Hbs.
  destruct (delay_run_kept 0 acts (NewDelayConn nc) (NewDelayConn_wf nc Hbs))
    as (c' & Hrun & [Hwb Hoff] & _).
  exists c'. repeat split; assumption.
Qed.

(** X2.  Coalescing loses nothing and keeps the order: after any such
    run, the bytes handed to the underlying connection, write after
    write, followed by the bytes still in the buffer, are the bytes the
    application has written, in the order it wrote them. *)
Theorem delay_run_stream (nc : NetConn) (acts : list delay_action) :
  1 <= buffersize ->
  exists c',
    delay_run acts (NewDelayConn nc) = Returns c' /\
    concat (wlog (dconn c')) ++ firstn (off c') (wbuf c')
      = concat (wlog nc) ++ written acts.
Proof.
  intros Hbs.
  destruct (delay_run_kept 0 acts (NewDelayConn nc) (NewDelayConn_wf nc Hbs))
    as (c' & Hrun & _ & Hs & _).
  exists c'. split; [exact Hrun|].
  unfold delay_stream in Hs. rewrite Hs. cbn [NewDelayConn dconn off firstn].
  now rewrite app_nil_r.
Qed.

(** X3.  Coalescing never costs writes: after any such run the underlying
    connection has seen at most one write per non-empty application write
    (one less while the buffer still holds bytes). *)
Theorem delay_run_calls (nc : NetConn) (acts : list delay_action) :
  1 <= buffersize ->
  exists c',
    delay_run acts (NewDelayConn nc) = Returns c' /\
    length (wlog (dconn c')) + (if off c' =? 0 then 0 else 1)
      <= length (wlog nc) + payload_writes acts.
Proof.
  intros Hbs.
  destruct (delay_run_kept 0 acts (NewDelayConn nc) (NewDelayConn_wf nc Hbs))
    as (c' & Hrun & _ & _ & Hn & _).
  exists c'. split; [exact Hrun|].
  unfold delay_calls in Hn. cbn [NewDelayConn dconn off Nat.eqb] in Hn. lia.
Qed.

(** X4.  The underlying connection is closed at most once, and exactly
    when the DelayConn is destroyed, whether by [Close], by a second
    [Close], or by a flush whose write fails. *)
Theorem delay_run_closed_once (nc : NetConn) (acts : list delay_action) :
  1 <= buffersize ->
  exists c',
    delay_run acts (NewDelayConn nc) = Returns c' /\
    closes (dconn c') = (if destroyed c' then S (closes nc) else closes nc) /\
    die_closed c' = destroyed c'.
Proof.
  intros Hbs.
  destruct (delay_run_kept (closes nc) acts (NewDelayConn nc) (NewDelayConn_wf nc Hbs))
    as (c' & Hrun & _ & _ & _ & Hc).
  exists c'. split; [exact Hrun|]. apply Hc. split; reflexivity.
Qed.

(** X5.  A turn of the flush loop whose windows are not idle: if what
    lands in the two windows keeps the buffer well formed and only adds
    bytes at the end of the stream (as writes and closes do), the turn
    keeps the buffer well formed, only adds bytes at the end of the
    stream, panics only if a window does, and reports [false] only on a
    destroyed connection. *)
Theorem sendLoopOnce_windows (k : nat)
    (in_wait in_tick : DelayConn -> outcome DelayConn) (die_first : bool)
    (c : DelayConn) :
  (forall x, delay_wf x ->
     match in_wait x with
     | Returns x' => exists added calls, delay_kept k x x' added calls
     | Panics => True
     end) ->
  (forall x, delay_wf x ->
     match in_tick x with
     | Returns x' => exists added calls, delay_kept k x x' added calls
     | Panics => True
     end) ->
  delay_wf c -> closed_once k c ->
  match sendLoopOnce in_wait in_tick die_first c with
  | Returns (ok, c') =>
      delay_wf c' /\
      (exists added, delay_stream c' = delay_stream c ++ added) /\
      closed_once k c' /\
      (ok = false -> destroyed c' = true)
  | Panics =>
      (off c = 0 /\ in_wait c = Panics) \/ (exists c1, in_tick c1 = Panics)
  end.
Proof.
  intros Hw Ht Hwf Hk.
  pose proof (sendLoopOnce_kept k in_wait in_tick die_first c Hw Ht Hwf) as H.
  destruct (sendLoopOnce in_wait in_tick die_first c) as [[ok c']|]; [|exact H].
  destruct H as (Hwf' & Hs & Hc & Hd).
  split; [exact Hwf'|]. split; [exact Hs|]. split; [apply Hc, Hk|].
  intros Hok. apply Hd; assumption.
Qed.

End DelayFacts.

(* ------------------------------------------------------------------ *)
(** ** The framer: reading in pieces, reading in sequence *)

Section FramerMore.

Context {E : Extern}.

Lemma slen_le_scap b : slen b <= scap b.
Proof. unfold slen, scap. lia. Qed.

(** X6.  [Read] always comes back, and whatever it returns it has only
    read: the write side of the connection (unsent bytes, write log,
    closes), the pool and the two guard flags are as before and the buffer
    has kept its length and capacity; and a [Read] with a non-empty buffer
    that returns a nil error has consumed something. *)
Theorem ObfsConn_Read_only_reads (b : slice) (c : ObfsConn) :
  exists out,
    ObfsConn_Read b c = Some out /\
    match out with
    | Returns r =>
        write_side (rc (ret_conn r)) = write_side (rc c) /\
        pool (ret_conn r) = pool c /\
        destroy (ret_conn r) = destroy c /\
        reading (ret_conn r) = reading c /\
        same_shape b (ret_buf r) /\
        rc_weight (rc (ret_conn r)) <= rc_weight (rc c) /\
        (ret_err r = None -> 1 <= slen b ->
         rc_weight (rc (ret_conn r)) < rc_weight (rc c))
    | Panics => True
    end.
Proof.
  unfold ObfsConn_Read.
  destruct (destroy c) eqn:Hd.
  { eexists. split; [reflexivity|]. cbn [ret_conn ret_buf ret_err].
    repeat split; try assumption; try lia; discriminate. }
  destruct (reading c) eqn:Hr.
  { eexists. split; [reflexivity|]. cbn [ret_conn ret_buf ret_err].
    repeat split; try assumption; try lia; discriminate. }
  destruct (readInLock_total b (set_reading c true)) as (out & Hout & Hpost).
  rewrite Hout. destruct out as [r|]; [|eexists; split; [reflexivity | exact I]].
  eexists. split; [reflexivity|]. cbn [ret_conn ret_buf ret_err].
  destruct Hpost as [[[(Hw & Hp & _ & Hds) Hle] Hsh] Hlt].
  cbn [rc set_reading pool destroy reading] in *.
  repeat split; try assumption; try apply Hsh; congruence.
Qed.

(** With a chunk open, [readInLock] goes straight to the payload. *)
Lemma readInLock_open_chunk b c :
  (3 <= chunkLen c)%Z -> 1 <= slen b ->
  readInLock b c = Some (payload_stage b c).
Proof.
  intros HL Hb. unfold readInLock, readInLock_fuel.
  destruct (Nat.eqb_spec (slen b) 0) as [?|_]; [lia|].
  assert (H1 : trailer_stage 0 b c = Some (inl (0%Z, b, c))).
  { unfold trailer_stage. destruct (Z.leb_spec (chunkLen c) 2) as [?|_]; [lia|]. reflexivity. }
  assert (H2 : header_stage (S (rc_weight (rc c))) 0 b c = Some (inl (0%Z, b, c))).
  { unfold header_stage. destruct (Z.eqb_spec (chunkLen c) 0) as [?|_]; [lia|]. reflexivity. }
  assert (H3 : marker_stage (S (rc_weight (rc c))) 0 b c = Some (inl (0%Z, b, c))).
  { unfold marker_stage. destruct (Z.eqb_spec (chunkLen c) 2) as [?|_]; [lia|]. reflexivity. }
  rewrite H1, H2, H3. reflexivity.
Qed.

(** X7.  With a chunk open ([chunkLen >= 3]) on a steady connection that
    has bytes ahead, a read takes between one and [min(len(b), chunkLen)]
    bytes off the stream, lowers [chunkLen] by exactly that number, puts
    the bytes at the start of the buffer in stream order, and returns as
    [n] the number of payload bytes among them: the two trailer bytes are
    consumed without being counted. *)
Theorem open_chunk_read (b : slice) (c : ObfsConn) (x : byte) (xs : bytes) :
  (3 <= chunkLen c)%Z -> framing c -> 1 <= slen b ->
  steady (rc c) -> pending (rc c) = x :: xs ->
  exists j out,
    1 <= j <= slen b /\ (Z.of_nat j <= chunkLen c)%Z /\
    readInLock b c = Some (Returns out) /\
    ret_err out = None /\
    ret_n out = Z.min (Z.of_nat j) (chunkLen c - 2) /\
    firstn j (vis (ret_buf out)) = firstn j (x :: xs) /\
    chunkLen (ret_conn out) = (chunkLen c - Z.of_nat j)%Z /\
    pending (rc (ret_conn out)) = skipn j (x :: xs) /\
    steady (rc (ret_conn out)) /\ framing (ret_conn out).
Proof.
  intros HL Hf Hb Hst Hp.
  set (L := chunkLen c) in *.
  set (k := Nat.min (slen b) (Z.to_nat L)).
  assert (Hk : 1 <= k) by (unfold k; lia).
  destruct (RemainConn_Read_steady k (rc c) x xs Hst Hp Hk)
    as (j & r' & Hj & Hrd & Hp' & Hst' & Hw').
  exists j.
  rewrite (readInLock_open_chunk b c HL Hb).
  unfold payload_stage. fold L.
  assert (Hsel :
    (if (L >? Z.of_nat (slen b))%Z then Some (slen b)
     else if (L <? 0)%Z then None else Some (Z.to_nat L)) = Some k).
  { destruct (Z.gtb_spec L (Z.of_nat (slen b))).
    - f_equal. unfold k. lia.
    - destruct (Z.ltb_spec L 0); [lia|]. f_equal. unfold k. lia. }
  rewrite Hsel. unfold doReadInto.
  pose proof (slen_le_scap b) as Hcap.
  destruct (Nat.ltb_spec (scap b) k) as [?|_]; [unfold k in *; lia|].
  rewrite (doRead_framing k c Hf), Hrd. cbn zeta.
  cbn [rd_err rd_n rd_st rd_data chunkLen set_rc]. fold L.
  eexists. split; [unfold k in *; lia|]. split; [unfold k in *; lia|].
  split; [reflexivity|].
  cbn [ret_err ret_n ret_buf ret_conn chunkLen set_chunkLen rc set_rc].
  assert (Hdl : length (firstn j (x :: xs)) = j).
  { rewrite length_firstn.
    assert (Hlen : j <= length (x :: xs)).
    { destruct (Nat.le_gt_cases j (length (x :: xs))) as [H|H]; [exact H|].
      exfalso.
      pose proof (RemainConn_Read_len k (rc c)) as [_ Hn].
      rewrite Hrd in Hn. cbn [rd_err rd_n rd_data] in Hn. specialize (Hn eq_refl).
      rewrite length_firstn in Hn. lia. }
    lia. }
  split; [reflexivity|].
  split.
  { destruct (Z.ltb_spec (L - Z.of_nat j) 2); lia. }
  split.
  { rewrite store_vis by (rewrite Hdl; unfold k in *; lia).
    rewrite Hdl, firstn_app, Hdl, Nat.sub_diag, firstn_O, app_nil_r.
    rewrite firstn_firstn, Nat.min_id. reflexivity. }
  split; [reflexivity|]. split; [exact Hp'|]. split; [exact Hst' | exact Hf].
Qed.

Lemma next_segment_weight r : length (next_segment r) <= rc_weight r.
Proof.
  unfold next_segment, rc_weight.
  destruct (remain r) as [|y rm]; [|cbn [length]; lia].
  destruct (inbound (conn r)) as [|[seg|e] evs]; cbn [length events_weight]; lia.
Qed.

(** The chunk-length loop on a complete line, from any point of the
    line. *)
Lemma readChunkLine_line fuel acc b c pre r1 :
  framing c -> 1 <= slen b ->
  delivers (pre ++ [LF]) (rc c) r1 ->
  Forall line_char pre ->
  length pre + 1 <= fuel ->
  exists b1,
    readChunkLine fuel acc b c
      = Some (HdrLine (acc ++ filter is_length_digit pre) 1 b1 (set_rc c r1)) /\
    same_shape b b1.
Proof.
  intros Hf Hb Hd Hall Hfuel.
  destruct (delivers_snoc_inv pre LF (rc c) r1 Hd) as (ra & Hda & Hrd).
  destruct (readChunkLine_skim pre (rc c) ra Hda Hall fuel acc b c eq_refl Hf Hb)
    as (b' & Hl & Hcap & Heq); [lia|].
  assert (Hb' : 1 <= slen b') by lia.
  assert (Hfa : framing (set_rc c ra)) by (apply framing_set_rc, Hf).
  rewrite Heq.
  replace (fuel - length pre) with (S (fuel - length pre - 1)) by lia.
  rewrite (@readChunkLine_turn _ (fuel - length pre - 1) _ b' (set_rc c ra) _ _ _ _ Hfa Hb' Hrd).
  cbn zeta. change (1 =? 0)%Z with false. cbn iota.
  destruct (@store_one_vis LF b' Hb') as [t Ht]. rewrite Ht.
  change (is_length_digit LF) with false. change (byte_eqb LF CR) with false.
  rewrite byte_eqb_refl. cbn iota.
  exists (store [LF] b'). split; [reflexivity|].
  assert (Hc1 : length [LF] <= scap b') by (pose proof (slen_le_scap b'); cbn; lia).
  destruct (same_shape_store [LF] b' Hc1) as [H1 H2].
  split; congruence.
Qed.

(** The payload stage when the payload and its trailer arrive together
    and the buffer takes both: the chunk is closed again. *)
Lemma payload_stage_whole (b : slice) (c : ObfsConn) (p more : bytes) :
  framing c -> p <> [] ->
  chunkLen c = (Z.of_nat (length p) + 2)%Z ->
  length p + 2 <= slen b ->
  next_segment (rc c) = p ++ [CR; LF] ++ more ->
  exists out,
    payload_stage b c = Returns out /\
    ret_n out = Z.of_nat (length p) /\
    ret_err out = None /\
    firstn (length p) (vis (ret_buf out)) = p /\
    framing (ret_conn out) /\ chunkLen (ret_conn out) = 0%Z /\
    same_shape b (ret_buf out) /\
    (more <> [] -> next_segment (rc (ret_conn out)) = more) /\
    write_side (rc (ret_conn out)) = write_side (rc c).
Proof.
  intros Hf Hne Hcl Hlen Hseg.
  set (n := length p) in *.
  assert (Hn : 1 <= n) by (unfold n; destruct p; [congruence | cbn; lia]).
  assert (Hsel :
    (if (chunkLen c >? Z.of_nat (slen b))%Z then Some (slen b)
     else if (chunkLen c <? 0)%Z then None
     else Some (Z.to_nat (chunkLen c))) = Some (n + 2)).
  { rewrite Hcl.
    destruct (Z.gtb_spec (Z.of_nat n + 2) (Z.of_nat (slen b))); [lia|].
    destruct (Z.ltb_spec (Z.of_nat n + 2) 0); [lia|]. f_equal. lia. }
  destruct (RemainConn_Read_segment (n + 2) (rc c) _ Hseg) as (r' & Hrd & Hnext & Hw).
  { destruct p; discriminate. }
  assert (Hfirst : firstn (n + 2) (p ++ [CR; LF] ++ more) = p ++ [CR; LF]).
  { rewrite app_assoc.
    replace (n + 2) with (length (p ++ [CR; LF])) by (rewrite length_app; reflexivity).
    apply firstn_exact. }
  assert (Hskip : skipn (n + 2) (p ++ [CR; LF] ++ more) = more).
  { rewrite app_assoc.
    replace (n + 2) with (length (p ++ [CR; LF])) by (rewrite length_app; reflexivity).
    rewrite skipn_app, skipn_all, Nat.sub_diag. reflexivity. }
  rewrite Hfirst, Hskip in *.
  assert (Hdl : length (p ++ [CR; LF]) = n + 2) by (rewrite length_app; reflexivity).
  rewrite Hdl in Hrd.
  unfold payload_stage. rewrite Hsel. unfold doReadInto.
  pose proof (slen_le_scap b) as Hcap.
  destruct (Nat.ltb_spec (scap b) (n + 2)) as [?|_]; [lia|].
  rewrite (doRead_framing (n + 2) c Hf), Hrd. cbn zeta.
  cbn [rd_err rd_n rd_st rd_data chunkLen set_rc].
  eexists. split; [reflexivity|].
  cbn [ret_n ret_err ret_buf ret_conn rc set_chunkLen set_rc chunkLen].
  rewrite Hcl.
  split.
  { destruct (Z.ltb_spec (Z.of_nat n + 2 - Z.of_nat (n + 2)) 2); lia. }
  split; [reflexivity|].
  split.
  { rewrite store_vis by (rewrite Hdl; lia). rewrite <- app_assoc.
    apply firstn_exact. }
  split; [exact Hf|].
  split; [lia|].
  split; [apply same_shape_store; rewrite Hdl; lia|].
  split; [exact Hnext | exact Hw].
Qed.

Lemma frame_split (p more : bytes) :
  frame p ++ more
  = ((fmt_x (Z.of_nat (length p)) ++ [CR]) ++ [LF]) ++ (p ++ [CR; LF] ++ more).
Proof. unfold frame, blen. rewrite <- !app_assoc. reflexivity. Qed.

Lemma frame_line (n : Z) :
  (0 <= n < 2 ^ 48)%Z ->
  Forall line_char (fmt_x n ++ [CR]) /\
  filter is_length_digit (fmt_x n ++ [CR]) = fmt_x n /\
  ParseInt16 (fmt_x n) = inl n /\
  length (fmt_x n ++ [CR]) <= 13.
Proof.
  intros Hn.
  destruct (fmt_x_spec 12 n) as (Hl & Hdig & Hparse); [lia | lia |].
  split.
  { apply Forall_app. split.
    - eapply Forall_impl; [|exact Hdig]. intros a Ha. left. exact Ha.
    - constructor; [right; reflexivity | constructor]. }
  split.
  { rewrite filter_app, (filter_all _ _ Hdig). cbn. apply app_nil_r. }
  split; [exact Hparse|]. rewrite length_app. cbn. lia.
Qed.

(** One whole chunk that arrives together, read with a buffer that takes
    the payload and its trailer. *)
Lemma read_frame_segment (b : slice) (c : ObfsConn) (p more : bytes) :
  framing c -> chunkLen c = 0%Z ->
  p <> [] -> (Z.of_nat (length p) < 2 ^ 48)%Z ->
  length p + 2 <= slen b ->
  next_segment (rc c) = frame p ++ more ->
  exists out,
    readInLock b c = Some (Returns out) /\
    ret_err out = None /\
    ret_n out = Z.of_nat (length p) /\
    firstn (length p) (vis (ret_buf out)) = p /\
    framing (ret_conn out) /\ chunkLen (ret_conn out) = 0%Z /\
    same_shape b (ret_buf out) /\
    (more <> [] -> next_segment (rc (ret_conn out)) = more) /\
    write_side (rc (ret_conn out)) = write_side (rc c).
Proof.
  intros Hf Hc Hne Hlt Hfit Hseg.
  assert (Hb : 1 <= slen b) by lia.
  set (n := Z.of_nat (length p)) in *.
  destruct (frame_line n) as (Hline & Hfilter & Hparse & _); [unfold n; lia|].
  rewrite frame_split in Hseg. fold n in Hseg.
  destruct (delivers_segment ((fmt_x n ++ [CR]) ++ [LF]) (rc c) _ Hseg)
    as (r1 & Hd & Hn1 & Hw1).
  { destruct p; discriminate. }
  rewrite <- Hfilter in Hparse.
  destruct (header_stage_delivers b c (fmt_x n ++ [CR]) r1 n Hc Hf Hb Hd Hline Hparse)
    as (b1 & Hhdr & Hl1 & Hcap1).
  rewrite (readInLock_at_header b c Hc Hb), Hhdr.
  rewrite wrap_int_small by (unfold n; lia).
  unfold marker_stage. cbn [chunkLen set_chunkLen].
  assert (Hn : (1 <= n)%Z).
  { unfold n. destruct p; [congruence | cbn [length]; lia]. }
  destruct (Z.eqb_spec (n + 2) 2) as [?|_]; [lia|].
  destruct (payload_stage_whole b1 (set_chunkLen (set_rc c r1) (n + 2)) p more)
    as (out & Hout & Hret & Herr & Hdata & Hfr & Hcl & Hsh & Hnext & Hw).
  - apply Hf.
  - exact Hne.
  - reflexivity.
  - lia.
  - exact Hn1.
  - rewrite Hout. exists out.
    split; [reflexivity|]. split; [exact Herr|]. split; [exact Hret|].
    split; [exact Hdata|]. split; [exact Hfr|]. split; [exact Hcl|].
    split; [destruct Hsh; split; congruence|].
    split; [exact Hnext|]. cbn [rc set_chunkLen set_rc] in Hw. congruence.
Qed.

(** Frames that arrive together are read back one per call. *)
Lemma reads_back_frames (ps : list bytes) :
  forall (b : slice) (c : ObfsConn) (more : bytes),
    framing c -> chunkLen c = 0%Z ->
    Forall (fits (slen b)) ps ->
    next_segment (rc c) = concat (map frame ps) ++ more ->
    exists c',
      reads_back ps b c c' /\
      framing c' /\ chunkLen c' = 0%Z /\
      (ps <> [] -> more <> [] -> next_segment (rc c') = more) /\
      write_side (rc c') = write_side (rc c).
Proof.
  induction ps as [|p ps IH]; intros b c more Hf Hc Hall Hseg.
  - exists c. split; [constructor|]. split; [exact Hf|]. split; [exact Hc|].
    split; [intros Hnil; congruence | reflexivity].
  - inversion Hall as [|? ? (Hne & Hlt & Hfit) Hrest]; subst.
    cbn [map concat] in Hseg. rewrite <- app_assoc in Hseg.
    destruct (read_frame_segment b c p (concat (map frame ps) ++ more)
                Hf Hc Hne Hlt Hfit Hseg)
      as (out & Hread & Herr & Hn & Hdata & Hfr & Hcl & [Hsl Hsc] & Hnext & Hw).
    destruct ps as [|p2 ps2].
    + exists (ret_conn out). split.
      { eapply reads_back_cons; try eassumption. constructor. }
      split; [exact Hfr|]. split; [exact Hcl|].
      split; [|exact Hw]. intros _ Hmore. apply Hnext. cbn. exact Hmore.
    + assert (Hnon : concat (map frame (p2 :: ps2)) ++ more <> []).
      { cbn [map concat]. unfold frame.
        destruct (fmt_x (blen p2)); discriminate. }
      assert (Hall' : Forall (fits (slen (ret_buf out))) (p2 :: ps2))
        by (rewrite Hsl; exact Hrest).
      destruct (IH (ret_buf out) (ret_conn out) more Hfr Hcl Hall' (Hnext Hnon))
        as (c' & Hrb & Hf' & Hc' & Hn' & Hw').
      exists c'. split.
      { eapply reads_back_cons; eassumption. }
      split; [exact Hf'|]. split; [exact Hc'|].
      split; [|congruence]. intros _ Hmore. apply Hn'; [discriminate | exact Hmore].
Qed.

(** A read whose buffer takes everything the connection can hand out at
    once. *)
Lemma RemainConn_Read_whole k r :
  next_segment r <> [] -> length (next_segment r) <= k ->
  exists r',
    RemainConn_Read k r
      = Rd (Z.of_nat (length (next_segment r))) (next_segment r) None r' /\
    remain r' = [] /\
    pending r = next_segment r ++ pending r' /\
    write_side r' = write_side r.
Proof.
  intros Hne Hlen. unfold next_segment in *.
  destruct (remain r) as [|y rm] eqn:Hrm.
  - destruct (inbound (conn r)) as [|[seg|e] evs] eqn:Hin; try congruence.
    unfold RemainConn_Read, conn_Read. rewrite Hrm, Hin.
    rewrite skipn_all2 by exact Hlen. rewrite firstn_all2 by exact Hlen.
    eexists. split; [reflexivity|].
    unfold pending. cbn [remain conn inbound]. rewrite Hrm, Hin. cbn [data_ahead app].
    repeat split.
  - rewrite RemainConn_Read_remain by congruence. rewrite Hrm.
    rewrite skipn_all2 by exact Hlen. rewrite firstn_all2 by exact Hlen.
    eexists. split; [reflexivity|].
    unfold pending. cbn [remain conn]. rewrite Hrm.
    repeat split.
Qed.

Lemma role_feed (c : ObfsConn) (data : bytes) :
  req c || resp c = true ->
  (if resp c then feed newHTTPReplyParser data 0
   else if req c then feed newHTTPRequestParser data 0
   else (0, (false, None)))
  = feed (role_parser c) data 0.
Proof.
  unfold role_parser. destruct (resp c), (req c); try reflexivity. discriminate.
Qed.

(** The header read when the header is complete in what arrives first. *)
Lemma readObfsHeader_complete (k : nat) (c : ObfsConn) (hd rest : bytes) :
  req c || resp c = true ->
  next_segment (rc c) = hd ++ rest ->
  length (hd ++ rest) <= buffersize ->
  feed (role_parser c) (hd ++ rest) 0 = (length hd, (true, None)) ->
  exists c',
    readObfsHeader k c
      = Rd (Z.of_nat (length (firstn k rest))) (firstn k rest) None c' /\
    framing c' /\
    pending (rc c) = hd ++ firstn k rest ++ pending (rc c') /\
    (skipn k rest <> [] -> next_segment (rc c') = skipn k rest) /\
    (skipn k rest = [] -> remain (rc c') = []) /\
    write_side (rc c') = write_side (rc c) /\
    chunkLen c' = chunkLen c /\ pool c' = pool c /\ eos c' = eos c /\
    reading c' = reading c /\ destroy c' = destroy c.
Proof.
  intros Hrole Hseg Hlen Hfeed.
  assert (Hhd : 0 < length hd) by (apply (feed_progress _ _ _ _ _ Hfeed)).
  assert (Hne : next_segment (rc c) <> []).
  { rewrite Hseg. destruct hd; [cbn in Hhd; lia | discriminate]. }
  rewrite <- Hseg in Hlen.
  destruct (RemainConn_Read_whole buffersize (rc c) Hne Hlen)
    as (r' & Hrd & Hrm & Hpend & Hw).
  rewrite Hseg in Hrd, Hpend.
  unfold readObfsHeader. rewrite Hrd. cbn [rd_err rd_n rd_data rd_st].
  destruct (Z.eqb_spec (Z.of_nat (length (hd ++ rest))) 0) as [Hz|_].
  { rewrite length_app in Hz. lia. }
  rewrite (role_feed c (hd ++ rest) Hrole), Hfeed.
  cbn [negb].
  rewrite skipn_app, skipn_all, Nat.sub_diag, skipn_O. cbn [app].
  destruct rest as [|x rest'] eqn:Hrest.
  - rewrite firstn_nil, skipn_nil. cbn [length].
    eexists. split; [reflexivity|].
    cbn [clear_roles set_rc rc resp req chunkLen pool eos reading destroy].
    split; [split; reflexivity|].
    split; [rewrite Hpend, app_nil_r; reflexivity|].
    split; [congruence|]. split; [intros _; exact Hrm|].
    repeat split; assumption.
  - rewrite <- Hrest in *. clear Hrest.
    assert (Hl : length (firstn k rest) = Nat.min k (length rest)) by apply length_firstn.
    destruct (Nat.ltb_spec (length (firstn k rest)) (length rest)) as [Hlt|Hge].
    + eexists. split; [reflexivity|].
      cbn [clear_roles set_rc rc resp req chunkLen pool eos reading destroy
           conn remain wremain].
      split; [split; reflexivity|].
      rewrite Hrm. cbn [app].
      replace (length (firstn k rest)) with k by lia.
      split.
      { rewrite Hpend. unfold pending at 2. cbn [remain conn].
        unfold pending. rewrite Hrm. cbn [app].
        rewrite <- !app_assoc. f_equal.
        rewrite (app_assoc (firstn k rest)), firstn_skipn. reflexivity. }
      split.
      { intros Hsk. unfold next_segment. cbn [remain].
        destruct (skipn k rest); [congruence | reflexivity]. }
      split.
      { intros Hsk. assert (Hz : length (skipn k rest) = 0) by (rewrite Hsk; reflexivity).
        rewrite length_skipn in Hz. lia. }
      repeat split; assumption.
    + eexists. split; [reflexivity|].
      cbn [clear_roles set_rc rc resp req chunkLen pool eos reading destroy].
      split; [split; reflexivity|].
      rewrite firstn_all2 by lia. rewrite skipn_all2 by lia.
      split; [rewrite Hpend, <- app_assoc; reflexivity|].
      split; [congruence|]. split; [intros _; exact Hrm|].
      repeat split; assumption.
Qed.

(** X9.  The handshake consumes the header and nothing else: when the
    peer's header is complete in what arrives first (and that fits the
    header buffer), the first read of at least one byte clears the role
    flags and hands out the bytes that follow the header, in order, the
    connection keeping what the caller's buffer did not take; when nothing
    follows the header the read goes on as a plain read of the framer. *)
Theorem handshake_consumes_header (k : nat) (c : ObfsConn) (hd rest : bytes) :
  req c || resp c = true ->
  next_segment (rc c) = hd ++ rest ->
  length (hd ++ rest) <= buffersize ->
  feed (role_parser c) (hd ++ rest) 0 = (length hd, (true, None)) ->
  1 <= k ->
  exists c',
    framing c' /\
    write_side (rc c') = write_side (rc c) /\
    chunkLen c' = chunkLen c /\ pool c' = pool c /\
    match rest with
    | [] => pending (rc c) = hd ++ pending (rc c') /\ doRead k c = doRead k c'
    | _ :: _ =>
        doRead k c = Rd (Z.of_nat (length (firstn k rest))) (firstn k rest) None c' /\
        pending (rc c) = hd ++ firstn k rest ++ pending (rc c')
    end.
Proof.
  intros Hrole Hseg Hlen Hfeed Hk.
  destruct (readObfsHeader_complete k c hd rest Hrole Hseg Hlen Hfeed)
    as (c' & Hrd & Hf & Hpend & _ & _ & Hw & Hcl & Hpool & _).
  exists c'. split; [exact Hf|]. split; [exact Hw|]. split; [exact Hcl|].
  split; [exact Hpool|].
  destruct rest as [|x rest'].
  - unfold doRead at 1. rewrite Hrole, Hrd. cbn [rd_err rd_n rd_st is_some orb].
    rewrite firstn_nil in *. cbn [length app] in *.
    change (negb (Z.of_nat 0 =? 0)%Z) with false. cbn iota.
    split; [exact Hpend|].
    rewrite (doRead_framing k c' Hf). reflexivity.
  - unfold doRead. rewrite Hrole, Hrd. cbn [rd_err rd_n rd_st is_some orb].
    destruct k as [|k']; [lia|]. cbn [firstn length] in *.
    destruct (Z.eqb_spec (Z.of_nat (S (length (firstn k' rest')))) 0) as [?|_]; [lia|].
    cbn [negb]. split; [reflexivity | exact Hpend].
Qed.

(** X10.  A header that is not complete in what arrives first fails the
    handshake: the read returns the number of bytes that arrived together
    with the unexpected-header error, although none of them reaches the
    caller's buffer; the bytes are gone from the stream and the role flags
    stay set. *)
Theorem handshake_incomplete_header (b : slice) (c : ObfsConn) (it : nat) :
  req c || resp c = true ->
  chunkLen c = 0%Z -> 1 <= slen b ->
  next_segment (rc c) <> [] ->
  length (next_segment (rc c)) <= buffersize ->
  feed (role_parser c) (next_segment (rc c)) 0 = (it, (false, None)) ->
  exists out,
    readInLock b c = Some (Returns out) /\
    ret_n out = Z.of_nat (length (next_segment (rc c))) /\
    ret_err out = Some ErrUnexpectedHeader /\
    ret_buf out = b /\
    req (ret_conn out) = req c /\ resp (ret_conn out) = resp c /\
    chunkLen (ret_conn out) = 0%Z /\
    pending (rc c) = next_segment (rc c) ++ pending (rc (ret_conn out)).
Proof.
  intros Hrole Hc Hb Hne Hlen Hfeed.
  destruct (RemainConn_Read_whole buffersize (rc c) Hne Hlen)
    as (r' & Hrd & Hrm & Hpend & Hw).
  assert (Hhdr : readObfsHeader 1 c
                 = Rd (Z.of_nat (length (next_segment (rc c)))) []
                      (Some ErrUnexpectedHeader) (set_rc c r')).
  { unfold readObfsHeader. rewrite Hrd. cbn [rd_err rd_n rd_data rd_st].
    destruct (Z.eqb_spec (Z.of_nat (length (next_segment (rc c)))) 0) as [Hz|_].
    { destruct (next_segment (rc c)); [congruence | cbn in Hz; lia]. }
    rewrite (role_feed c _ Hrole), Hfeed. reflexivity. }
  rewrite (readInLock_at_header b c Hc Hb).
  unfold header_stage. rewrite Hc. change (0 =? 0)%Z with true. cbn iota.
  cbn [readChunkLine]. unfold doReadInto.
  pose proof (slen_le_scap b) as Hcap.
  destruct (Nat.ltb_spec (scap b) 1) as [?|_]; [lia|].
  unfold doRead. rewrite Hrole, Hhdr. cbn [rd_err rd_n rd_st rd_data is_some orb].
  eexists. split; [reflexivity|].
  cbn [ret_n ret_err ret_buf ret_conn set_rc req resp chunkLen rc].
  split; [reflexivity|]. split; [reflexivity|].
  split.
  { unfold store. cbn [length app]. rewrite skipn_O.
    destruct b as [v sp]. unfold slen. cbn [vis spare].
    rewrite firstn_app, firstn_all, Nat.sub_diag, firstn_O, app_nil_r.
    rewrite skipn_app, skipn_all, Nat.sub_diag, skipn_O. reflexivity. }
  repeat split; try assumption.
Qed.

(** One framed write on a connection whose writes succeed. *)
Lemma ObfsConn_Write_succeeds (b : bytes) (c : ObfsConn) :
  (Z.of_nat (length b) < 2 ^ 48)%Z ->
  writes_succeed (conn (rc c)) ->
  exists c',
    ObfsConn_Write b c = Returns (Wr (Z.of_nat (length b)) None c') /\
    wlog (conn (rc c')) = wlog (conn (rc c)) ++ [wremain (rc c) ++ frame b] /\
    wremain (rc c') = [] /\
    writes_succeed (conn (rc c')) /\
    remain (rc c') = remain (rc c) /\
    inbound (conn (rc c')) = inbound (conn (rc c)) /\
    closes (conn (rc c')) = closes (conn (rc c)) /\
    set_rc c' (rc c) = c.
Proof.
  intros Hb Hok. rewrite (ObfsConn_Write_frame b c Hb). cbn zeta.
  assert (Hw : forall x,
    wr_err (conn_Write x (conn (rc c))) = None /\
    wlog (wr_st (conn_Write x (conn (rc c)))) = wlog (conn (rc c)) ++ [x] /\
    writes_succeed (wr_st (conn_Write x (conn (rc c)))) /\
    inbound (wr_st (conn_Write x (conn (rc c)))) = inbound (conn (rc c)) /\
    closes (wr_st (conn_Write x (conn (rc c)))) = closes (conn (rc c))).
  { intros x. unfold conn_Write, writes_succeed in *.
    destruct (wr_script (conn (rc c))) as [|[[sent e]|] scr];
      cbn [wr_err wr_st wlog wr_script inbound closes].
    - repeat split. constructor.
    - inversion Hok; discriminate.
    - inversion Hok; subst. repeat split. assumption. }
  unfold RemainConn_Write.
  destruct c as [[nc rm wrm] rs rq cl pl es rdg ds]. cbn [rc conn remain wremain] in *.
  destruct wrm as [|y wrm].
  - destruct (Hw (frame b)) as (He & Hl & Hs & Hi & Hc).
    cbn [wr_err wr_st]. rewrite He. cbn [is_some].
    eexists. split; [reflexivity|].
    cbn [set_rc rc conn remain wremain resp req chunkLen pool eos reading destroy app].
    repeat split; assumption.
  - destruct (Hw ((y :: wrm) ++ frame b)) as (He & Hl & Hs & Hi & Hc).
    rewrite He. cbn [wr_err wr_st is_some].
    eexists. split; [reflexivity|].
    cbn [set_rc rc conn remain wremain resp req chunkLen pool eos reading destroy].
    repeat split; assumption.
Qed.

(** X11.  The handshake header is sent once, in front of the first
    chunk: on a connection whose writes succeed, writing the payloads
    [bs] one after the other makes one underlying write per payload, the
    first carrying the unsent header bytes followed by the first frame and
    every later one exactly one frame; nothing is left unsent and the read
    side is as before. *)
Theorem header_sent_once (bs : list bytes) :
  forall c : ObfsConn,
    Forall (fun b => (Z.of_nat (length b) < 2 ^ 48)%Z) bs ->
    writes_succeed (conn (rc c)) ->
    exists c',
      ObfsConn_Write_all bs c = Returns (None, c') /\
      wlog (conn (rc c'))
        = wlog (conn (rc c)) ++
          match bs with
          | [] => []
          | b :: rest => (wremain (rc c) ++ frame b) :: map frame rest
          end /\
      (bs <> [] -> wremain (rc c') = []) /\
      remain (rc c') = remain (rc c) /\
      inbound (conn (rc c')) = inbound (conn (rc c)) /\
      closes (conn (rc c')) = closes (conn (rc c)) /\
      set_rc c' (rc c) = c.
Proof.
  induction bs as [|b bs IH]; intros c Hall Hok.
  - exists c. cbn [ObfsConn_Write_all]. rewrite app_nil_r.
    repeat split; try congruence. destruct c; reflexivity.
  - inversion Hall as [|? ? Hb Hrest]; subst.
    destruct (ObfsConn_Write_succeeds b c Hb Hok)
      as (c1 & Hw & Hlog & Hwr & Hok1 & Hrm & Hin & Hcl & Hset).
    destruct (IH c1 Hrest Hok1) as (c' & Hrun & Hlog' & Hwr' & Hrm' & Hin' & Hcl' & Hset').
    exists c'. cbn [ObfsConn_Write_all]. rewrite Hw. cbn [wr_err wr_st].
    split; [exact Hrun|].
    split.
    { rewrite Hlog', Hlog, <- app_assoc. f_equal. cbn [app map]. f_equal.
      destruct bs as [|b2 bs2]; [reflexivity|].
      rewrite Hwr. reflexivity. }
    split.
    { intros _. destruct bs as [|b2 bs2].
      - cbn [ObfsConn_Write_all] in Hrun. injection Hrun as <-. exact Hwr.
      - apply Hwr'. discriminate. }
    split; [congruence|]. split; [congruence|]. split; [congruence|].
    rewrite <- Hset at 2. rewrite <- Hset'.
    destruct c', c1; reflexivity.
Qed.

(** The first read of a framer in its handshake, when the peer's header
    and a whole chunk arrive together. *)
Lemma read_frame_after_handshake (b : slice) (c : ObfsConn) (hd p more : bytes) :
  req c || resp c = true -> chunkLen c = 0%Z ->
  next_segment (rc c) = hd ++ frame p ++ more ->
  length (hd ++ frame p ++ more) <= buffersize ->
  feed (role_parser c) (hd ++ frame p ++ more) 0 = (length hd, (true, None)) ->
  fits (slen b) p ->
  exists out,
    readInLock b c = Some (Returns out) /\
    ret_err out = None /\
    ret_n out = Z.of_nat (length p) /\
    firstn (length p) (vis (ret_buf out)) = p /\
    framing (ret_conn out) /\ chunkLen (ret_conn out) = 0%Z /\
    same_shape b (ret_buf out) /\
    (more <> [] -> next_segment (rc (ret_conn out)) = more) /\
    write_side (rc (ret_conn out)) = write_side (rc c).
Proof.
  intros Hrole Hc Hseg Hlen Hfeed (Hne & Hlt & Hfit).
  assert (Hb : 1 <= slen b) by lia.
  set (n := Z.of_nat (length p)) in *.
  assert (Hn : (1 <= n)%Z).
  { unfold n. destruct p; [congruence | cbn [length]; lia]. }
  destruct (frame_line n) as (Hline & Hfilter & Hparse & _); [lia|].
  destruct (fmt_x_spec 12 n) as (Hl & Hdig & _); [lia | lia |].
  destruct (fmt_x n) as [|x ds] eqn:Hfx; [cbn in Hl; lia|].
  assert (Hx : is_length_digit x = true) by (inversion Hdig; assumption).
  assert (Hrest : frame p ++ more = x :: (((ds ++ [CR]) ++ [LF]) ++ (p ++ [CR; LF] ++ more))).
  { rewrite frame_split. fold n. rewrite Hfx. cbn [app]. rewrite <- !app_assoc. reflexivity. }
  rewrite Hrest in *.
  pose proof (next_segment_weight (rc c)) as Hwt. rewrite Hseg in Hwt.
  rewrite !length_app in Hwt. cbn [length] in Hwt. rewrite !length_app in Hwt.
  cbn [length] in Hwt.
  destruct (readObfsHeader_complete 1 c hd _ Hrole Hseg Hlen Hfeed)
    as (c1 & Hrd & Hf1 & _ & Hnext1 & _ & Hw1 & Hcl1 & Hpool1 & _).
  cbn [firstn skipn length] in Hrd, Hnext1.
  specialize (Hnext1 ltac:(destruct ds; discriminate)).
  destruct (delivers_segment ((ds ++ [CR]) ++ [LF]) (rc c1) _ Hnext1)
    as (r1 & Hd & Hn1 & Hwr1).
  { destruct p; discriminate. }
  assert (Hline' : Forall line_char (ds ++ [CR])).
  { cbn [app] in Hline. inversion Hline; assumption. }
  pose proof (slen_le_scap b) as Hcap.
  assert (Hsb : 1 <= slen (store [x] b)) by (rewrite store_slen; cbn; lia).
  destruct (readChunkLine_line (rc_weight (rc c)) [x] (store [x] b) c1 (ds ++ [CR]) r1
              Hf1 Hsb Hd Hline')
    as (b1 & Hloop & Hsl1 & Hsc1).
  { rewrite length_app. cbn [length]. lia. }
  rewrite (readInLock_at_header b c Hc Hb).
  unfold header_stage. rewrite Hc. change (0 =? 0)%Z with true. cbn iota.
  cbn [readChunkLine]. unfold doReadInto.
  destruct (Nat.ltb_spec (scap b) 1) as [?|_]; [lia|].
  unfold doRead. rewrite Hrole, Hrd.
  cbv beta iota zeta delta [rd_err rd_n rd_st rd_data is_some orb negb].
  change (Z.of_nat 1 =? 0)%Z with false.
  cbv beta iota zeta delta [rd_err rd_n rd_st rd_data is_some orb negb].
  destruct (@store_one_vis x b Hb) as [t Ht]. rewrite Ht, Hx.
  cbn [app]. rewrite Hloop.
  cbn [app filter] in Hfilter. rewrite Hx in Hfilter.
  injection Hfilter as Hfilter. rewrite Hfilter.
  change (Z.of_nat 1 =? 0)%Z with false. cbn [app]. cbv iota.
  rewrite Hparse, wrap_int_small by lia.
  unfold marker_stage. cbn [chunkLen set_chunkLen].
  destruct (Z.eqb_spec (n + 2) 2) as [?|_]; [lia|].
  destruct (payload_stage_whole b1 (set_chunkLen (set_rc c1 r1) (n + 2)) p more)
    as (out & Hout & Hret & Herr & Hdata & Hfr & Hcl & Hsh & Hnext & Hw).
  - apply Hf1.
  - exact Hne.
  - reflexivity.
  - rewrite Hsl1, store_slen by (cbn; lia). lia.
  - exact Hn1.
  - rewrite Hout. exists out.
    split; [reflexivity|]. split; [exact Herr|]. split; [exact Hret|].
    split; [exact Hdata|]. split; [exact Hfr|]. split; [exact Hcl|].
    split.
    { destruct Hsh as [H1 H2]. split.
      - rewrite H1, Hsl1. apply store_slen. cbn; lia.
      - rewrite H2, Hsc1. apply store_scap. cbn; lia. }
    split; [exact Hnext|].
    cbn [rc set_chunkLen set_rc] in Hw. congruence.
Qed.

(** X8.  Chunks are read back one per call and in order: when the frames
    of the payloads [ps] arrive together, successive reads with a buffer
    that takes each payload and its trailer return the payloads one after
    the other, and leave the reader between chunks with the rest of the
    arrival ahead. *)
Theorem frames_read_back_in_order (ps : list bytes) (b : slice) (c : ObfsConn)
    (more : bytes) :
  framing c -> chunkLen c = 0%Z ->
  Forall (fits (slen b)) ps ->
  next_segment (rc c) = concat (map frame ps) ++ more ->
  exists c',
    reads_back ps b c c' /\
    framing c' /\ chunkLen c' = 0%Z /\
    (ps <> [] -> more <> [] -> next_segment (rc c') = more) /\
    write_side (rc c') = write_side (rc c).
Proof.
  revert b c more.
  induction ps as [|p ps IH]; intros b c more Hf Hc Hall Hseg.
  - exists c. split; [constructor|]. split; [exact Hf|]. split; [exact Hc|].
    split; [intros Hnil; congruence | reflexivity].
  - inversion Hall as [|? ? (Hne & Hlt & Hfit) Hrest]; subst.
    cbn [map concat] in Hseg. rewrite <- app_assoc in Hseg.
    destruct (read_frame_segment b c p (concat (map frame ps) ++ more)
                Hf Hc Hne Hlt Hfit Hseg)
      as (out & Hread & Herr & Hn & Hdata & Hfr & Hcl & [Hsl Hsc] & Hnext & Hw).
    destruct ps as [|p2 ps2].
    + exists (ret_conn out). split.
      { eapply reads_back_cons; try eassumption. constructor. }
      split; [exact Hfr|]. split; [exact Hcl|].
      split; [|exact Hw]. intros _ Hmore. apply Hnext. cbn. exact Hmore.
    + assert (Hnon : concat (map frame (p2 :: ps2)) ++ more <> []).
      { cbn [map concat]. unfold frame.
        destruct (fmt_x (blen p2)); discriminate. }
      assert (Hall' : Forall (fits (slen (ret_buf out))) (p2 :: ps2))
        by (rewrite Hsl; exact Hrest).
      destruct (IH (ret_buf out) (ret_conn out) more Hfr Hcl Hall' (Hnext Hnon))
        as (c' & Hrb & Hf' & Hc' & Hn' & Hw').
      exists c'. split.
      { eapply reads_back_cons; eassumption. }
      split; [exact Hf'|]. split; [exact Hc'|].
      split; [|congruence]. intros _ Hmore. apply Hn'; [discriminate | exact Hmore].
Qed.

(** What a successful read of the connection keeps: the bytes it returns
    and the bytes it leaves ahead are the bytes that were ahead, and the
    write side is as before. *)
Lemma conn_Read_keeps k nc :
  let r := conn_Read k nc in
  wlog (rd_st r) = wlog nc /\ closes (rd_st r) = closes nc /\
  (rd_err r = None ->
   rd_data r ++ data_ahead (inbound (rd_st r)) = data_ahead (inbound nc)).
Proof.
  cbn zeta. unfold conn_Read.
  destruct (inbound nc) as [|[seg|e] evs]; cbn [rd_st rd_err rd_data wlog closes inbound];
    try (repeat split; discriminate).
  destruct (skipn k seg) as [|y rest] eqn:Hsk;
    cbn [rd_st rd_err rd_data wlog closes inbound data_ahead].
  - repeat split. intros _. f_equal.
    rewrite <- (firstn_skipn k seg) at 2. rewrite Hsk, app_nil_r. reflexivity.
  - repeat split. intros _. rewrite app_assoc. f_equal.
    rewrite <- Hsk. apply firstn_skipn.
Qed.

(** The bytes the accept handler keeps as look-ahead are the bytes it
    has read. *)
Lemma accept_peek nc :
  let r := conn_Read buffersize nc in
  firstn (Z.to_nat (rd_n r)) (fst (copy_at (make buffersize) 0 (rd_data r))) = rd_data r.
Proof.
  cbn zeta. destruct (conn_Read_data buffersize nc) as [Hn Hlen].
  rewrite Hn, Nat2Z.id, peek_buffer by lia. apply firstn_all.
Qed.

(** X12.  Accepting loses no byte and sends none: whatever the handler
    returns, the underlying connection has not been written to; a
    connection it hands on (plain or framed) has exactly the bytes that
    were ahead on the accepted connection still ahead, the peeked ones as
    look-ahead, and has not been closed; a connection it refuses has been
    closed once. *)
Theorem accept_keeps_stream (nc : NetConn) (lis : listener) :
  match obfsAcceptHandler nc lis with
  | AcceptNil nc' => closes nc' = S (closes nc) /\ wlog nc' = wlog nc
  | AcceptPlain r =>
      pending r = data_ahead (inbound nc) /\ remain r <> [] /\
      wlog (conn r) = wlog nc /\ closes (conn r) = closes nc /\ wremain r = []
  | AcceptObfs c =>
      pending (rc c) = data_ahead (inbound nc) /\ remain (rc c) <> [] /\
      wlog (conn (rc c)) = wlog nc /\ closes (conn (rc c)) = closes nc /\
      req c = true /\ resp c = false /\ chunkLen c = 0%Z
  end.
Proof.
  unfold obfsAcceptHandler. rewrite (accept_peek nc).
  destruct (conn_Read_keeps buffersize nc) as (Hlog & Hcl & Hdata).
  destruct (conn_Read_data buffersize nc) as [Hn _].
  set (r := conn_Read buffersize nc) in *.
  assert (Hne : (rd_n r =? 0)%Z = false -> rd_data r <> []).
  { intros H0 Hnil. rewrite Hnil in Hn. cbn in Hn. rewrite Hn in H0. discriminate. }
  destruct (rd_err r) as [e|] eqn:He; cbn [is_some orb].
  { unfold conn_Close. cbn [snd closes wlog]. split; congruence. }
  destruct (rd_n r =? 0)%Z eqn:H0.
  { unfold conn_Close. cbn [snd closes wlog]. split; congruence. }
  specialize (Hdata eq_refl). specialize (Hne eq_refl).
  destruct ((rd_n r >? 4)%Z && negb (bytes_eqb _ POST)).
  - unfold pending. cbn [remain conn wremain]. repeat split; assumption.
  - unfold pending. cbn [rc remain conn wremain req resp chunkLen].
    repeat split; assumption.
Qed.

Lemma conn_Read_whole k nc seg evs :
  inbound nc = RdData seg :: evs -> length seg <= k ->
  conn_Read k nc
  = Rd (blen seg) seg None
       (MkNetConn evs (wr_script nc) (wlog nc) (S (reads nc)) (closes nc) (close_err nc)).
Proof.
  intros Hin Hlen. unfold conn_Read. rewrite Hin.
  rewrite skipn_all2 by exact Hlen. rewrite firstn_all2 by exact Hlen. reflexivity.
Qed.

(** X13.  From the wire to the application: when the client's request
    header and the frames of the payloads [ps] arrive together on an
    accepted connection, the handler returns a framer in the accept role
    with the response header queued, and successive reads with a buffer
    that takes each payload and its trailer return the payloads in order;
    nothing has been written to the connection on the way. *)
Theorem accepted_reads_back (nc : NetConn) (lis : listener) (evs : list rd_event)
    (hd : bytes) (ps : list bytes) (more : bytes) (b : slice) :
  inbound nc = RdData (hd ++ concat (map frame ps) ++ more) :: evs ->
  length (hd ++ concat (map frame ps) ++ more) <= buffersize ->
  firstn 4 hd = POST ->
  feed newHTTPRequestParser (hd ++ concat (map frame ps) ++ more) 0
    = (length hd, (true, None)) ->
  Forall (fits (slen b)) ps ->
  exists c c',
    obfsAcceptHandler nc lis = AcceptObfs c /\
    reads_back ps b c c' /\
    wremain (rc c') = buildHTTPResponse [] /\
    wlog (conn (rc c')) = wlog nc /\
    closes (conn (rc c')) = closes nc /\
    (ps <> [] -> framing c' /\ chunkLen c' = 0%Z).
Proof.
  intros Hin Hlen Hpost Hfeed Hall.
  set (wire := hd ++ concat (map frame ps) ++ more) in *.
  assert (Hhd : 4 <= length hd).
  { assert (H4 : length (firstn 4 hd) = 4) by (rewrite Hpost; reflexivity).
    rewrite length_firstn in H4. lia. }
  assert (Hw4 : firstn 4 wire = POST).
  { unfold wire. rewrite firstn_app.
    replace (4 - length hd) with 0 by lia. rewrite firstn_O, app_nil_r. exact Hpost. }
  pose proof (accept_peek nc) as Hpeek. cbn zeta in Hpeek.
  rewrite (conn_Read_whole buffersize nc wire evs Hin Hlen) in Hpeek.
  cbn [rd_n rd_data] in Hpeek.
  assert (Hfour : firstn 4 (fst (copy_at (make buffersize) 0 wire)) = POST).
  { rewrite peek_buffer; [exact Hw4 | exact Hlen |].
    unfold wire. rewrite length_app. lia. }
  assert (Hacc : obfsAcceptHandler nc lis
    = AcceptObfs (MkObfsConn
        (MkRemainConn
           (MkNetConn evs (wr_script nc) (wlog nc) (S (reads nc)) (closes nc) (close_err nc))
           wire (buildHTTPResponse []))
        false true 0 (cfg_pool (lis_c lis)) false false false)).
  { unfold obfsAcceptHandler.
    rewrite (conn_Read_whole buffersize nc wire evs Hin Hlen).
    cbn [rd_n rd_data rd_err rd_st is_some orb].
    rewrite Hpeek, Hfour.
    destruct (Z.eqb_spec (blen wire) 0) as [Hz|_].
    { unfold blen, wire in Hz. rewrite length_app in Hz. lia. }
    assert (Heq : bytes_eqb POST POST = true) by reflexivity.
    rewrite Heq. cbn [negb]. rewrite andb_false_r. reflexivity. }
  rewrite Hacc. eexists. 
  destruct ps as [|p ps].
  - eexists. split; [reflexivity|]. split; [constructor|].
    cbn [rc conn wremain wlog closes]. repeat split; congruence.
  - inversion Hall as [|? ? Hp Hrest]; subst.
    set (c := MkObfsConn _ false true 0 _ false false false).
    assert (Hseg : next_segment (rc c) = hd ++ frame p ++ (concat (map frame ps) ++ more)).
    { unfold next_segment, c. cbn [rc remain]. unfold wire. cbn [map concat].
      rewrite <- !app_assoc.
      destruct (hd ++ frame p ++ concat (map frame ps) ++ more) eqn:Hw; [|reflexivity].
      apply (f_equal (@length byte)) in Hw. rewrite length_app in Hw. cbn in Hw. lia. }
    assert (Hwire : wire = hd ++ frame p ++ (concat (map frame ps) ++ more)).
    { unfold wire. cbn [map concat]. rewrite <- !app_assoc. reflexivity. }
    rewrite Hwire in Hlen, Hfeed.
    destruct (read_frame_after_handshake b c hd p (concat (map frame ps) ++ more))
      as (out & Hread & Herr & Hn & Hdata & Hfr & Hcl & [Hsl Hsc] & Hnext & Hw);
      [reflexivity | reflexivity | exact Hseg | exact Hlen | exact Hfeed | exact Hp |].
    assert (Hside : write_side (rc c)
              = (buildHTTPResponse [], wr_script nc, wlog nc, closes nc, close_err nc))
      by reflexivity.
    destruct ps as [|p2 ps2].
    + exists (ret_conn out). split; [reflexivity|].
      split; [eapply reads_back_cons; try eassumption; constructor|].
      rewrite Hside in Hw. unfold write_side in Hw. injection Hw as H1 H2 H3 H4 H5.
      split; [exact H1|]. split; [exact H3|]. split; [exact H4|].
      intros _. split; assumption.
    + assert (Hnon : concat (map frame (p2 :: ps2)) ++ more <> []).
      { cbn [map concat]. unfold frame. destruct (fmt_x (blen p2)); discriminate. }
      assert (Hall' : Forall (fits (slen (ret_buf out))) (p2 :: ps2))
        by (rewrite Hsl; exact Hrest).
      destruct (reads_back_frames (p2 :: ps2) (ret_buf out) (ret_conn out) more
                  Hfr Hcl Hall' (Hnext Hnon))
        as (c' & Hrb & Hf' & Hc' & _ & Hw').
      exists c'. split; [reflexivity|].
      split; [eapply reads_back_cons; eassumption|].
      rewrite Hw, Hside in Hw'. unfold write_side in Hw'.
      injection Hw' as H1 H2 H3 H4 H5.
      split; [exact H1|]. split; [exact H3|]. split; [exact H4|].
      intros _. split; assumption.
Qed.

(** X14.  The trailer of a chunk is read with one read, not until it is
    complete: when only its first byte has arrived, the read swallows that
    byte, takes the chunk for closed and then meets the line feed where a
    chunk-length line should start, which fails the read with the
    incorrect-chunked-data error. *)
Theorem split_trailer_fails (b : slice) (c : ObfsConn) (tl : bytes)
    (evs : list rd_event) :
  framing c -> chunkLen c = 2%Z ->
  1 <= slen b -> 2 <= scap b ->
  remain (rc c) = [] ->
  inbound (conn (rc c)) = RdData [CR] :: RdData (LF :: tl) :: evs ->
  exists out,
    readInLock b c = Some (Returns out) /\
    ret_err out = Some ErrIncorrectChunked /\
    ret_n out = 1%Z /\
    chunkLen (ret_conn out) = 0%Z /\
    pending (rc (ret_conn out)) = tl ++ data_ahead evs.
Proof.
  intros Hf Hc Hb Hcap Hrm Hin.
  unfold readInLock, readInLock_fuel.
  destruct (Nat.eqb_spec (slen b) 0) as [?|_]; [lia|].
  unfold trailer_stage. rewrite Hc.
  change ((2 <=? 2)%Z && (0 <? 2)%Z) with true. cbv iota.
  change (Z.to_nat 2) with 2.
  unfold doReadInto.
  destruct (Nat.ltb_spec (scap b) 2) as [?|_]; [lia|].
  rewrite (doRead_framing 2 c Hf). cbv zeta.
  assert (Hr1 : RemainConn_Read 2 (rc c)
    = Rd 1 [CR] None
         (MkRemainConn
            (MkNetConn (RdData (LF :: tl) :: evs) (wr_script (conn (rc c)))
               (wlog (conn (rc c))) (S (reads (conn (rc c)))) (closes (conn (rc c)))
               (close_err (conn (rc c))))
            [] (wremain (rc c)))).
  { unfold RemainConn_Read, conn_Read. rewrite Hrm, Hin. reflexivity. }
  rewrite Hr1. cbn [rd_err rd_st rd_data rd_n].
  set (r1 := MkRemainConn _ [] (wremain (rc c))).
  set (b1 := store [CR] b).
  set (c1 := set_chunkLen (set_rc c r1) 0).
  assert (Hf1 : framing c1) by exact Hf.
  assert (Hb1 : 1 <= slen b1) by (unfold b1; rewrite store_slen; cbn; lia).
  assert (Hr2 : RemainConn_Read 1 (rc c1)
    = Rd 1 [LF] None
         (MkRemainConn
            (MkNetConn (match tl with [] => evs | _ => RdData tl :: evs end)
               (wr_script (conn (rc c)))
               (wlog (conn (rc c))) (S (S (reads (conn (rc c))))) (closes (conn (rc c)))
               (close_err (conn (rc c))))
            [] (wremain (rc c)))).
  { unfold RemainConn_Read, conn_Read. cbn [c1 r1 rc set_chunkLen set_rc remain conn inbound
      wr_script wlog reads closes close_err firstn skipn].
    destruct tl; reflexivity. }
  unfold header_stage. change (chunkLen c1) with 0%Z. change (0 =? 0)%Z with true.
  cbv iota.
  rewrite (@readChunkLine_turn _ (rc_weight (rc c)) [] b1 c1 _ _ _ _ Hf1 Hb1 Hr2).
  cbv zeta. change (1 =? 0)%Z with false. cbv iota.
  destruct (@store_one_vis LF b1 Hb1) as [t Ht]. rewrite Ht.
  change (is_length_digit LF) with false. change (byte_eqb LF CR) with false.
  rewrite byte_eqb_refl. cbv iota.
  eexists. split; [reflexivity|].
  cbn [ret_err ret_n ret_conn set_rc chunkLen rc c1 set_chunkLen].
  repeat split.
  unfold pending. cbn [remain conn inbound]. destruct tl; reflexivity.
Qed.

(** X15.  A chunk-length line whose value is within two of the largest
    [int64] makes the read panic: the line parses, adding the two trailer
    bytes wraps the chunk length around to a negative number, and the
    buffer is then re-sliced to that length. *)
Theorem chunk_length_wraps_and_panics (b : slice) (c : ObfsConn)
    (line : bytes) (r1 : RemainConn) (i : Z) :
  chunkLen c = 0%Z -> framing c -> 1 <= slen b ->
  delivers (line ++ [LF]) (rc c) r1 ->
  Forall line_char line ->
  ParseInt16 (filter is_length_digit line) = inl i ->
  (2 ^ 63 <= i + 2 < 2 ^ 64)%Z ->
  readInLock b c = Some Panics.
Proof.
  intros Hc Hf Hb Hd Hall Hparse Hi.
  destruct (header_stage_delivers b c line r1 i Hc Hf Hb Hd Hall Hparse)
    as (b1 & Hhdr & Hl1 & Hcap1).
  rewrite (readInLock_at_header b c Hc Hb), Hhdr.
  assert (Hwrap : wrap_int (i + 2) = (i + 2 - 2 ^ 64)%Z).
  { unfold wrap_int.
    replace (i + 2 + 2 ^ 63)%Z with ((i + 2 - 2 ^ 63) + 1 * 2 ^ 64)%Z by lia.
    rewrite Z.mod_add by lia. rewrite Z.mod_small by lia. lia. }
  rewrite Hwrap.
  unfold marker_stage. cbn [chunkLen set_chunkLen].
  destruct (Z.eqb_spec (i + 2 - 2 ^ 64) 2) as [?|_]; [lia|].
  unfold payload_stage. cbn [chunkLen set_chunkLen].
  destruct (Z.gtb_spec (i + 2 - 2 ^ 64) (Z.of_nat (slen b1))) as [?|_]; [lia|].
  destruct (Z.ltb_spec (i + 2 - 2 ^ 64) 0) as [_|?]; [reflexivity | lia].
Qed.

(** X19.  The first chunk of a connection crosses the handshake: a
    framer that still has its header to send writes the header and the
    frame of [p] in one write; a framer in its handshake whose parser
    takes that header and to which the write arrives whole returns [p]
    from its first read, and is past its handshake and between chunks
    afterwards. *)
Theorem handshake_roundtrip (c rcv : ObfsConn) (p : bytes) (b : slice) :
  writes_succeed (conn (rc c)) -> fits (slen b) p ->
  req rcv || resp rcv = true -> chunkLen rcv = 0%Z ->
  length (wremain (rc c) ++ frame p) <= buffersize ->
  feed (role_parser rcv) (wremain (rc c) ++ frame p) 0
    = (length (wremain (rc c)), (true, None)) ->
  exists cw,
    ObfsConn_Write p c = Returns (Wr (Z.of_nat (length p)) None cw) /\
    wlog (conn (rc cw)) = wlog (conn (rc c)) ++ [wremain (rc c) ++ frame p] /\
    wremain (rc cw) = [] /\
    (next_segment (rc rcv) = wremain (rc c) ++ frame p ->
     exists out,
       readInLock b rcv = Some (Returns out) /\
       ret_err out = None /\
       ret_n out = Z.of_nat (length p) /\
       firstn (length p) (vis (ret_buf out)) = p /\
       framing (ret_conn out) /\ chunkLen (ret_conn out) = 0%Z).
Proof.
  intros Hok Hfit Hrole Hc Hlen Hfeed.
  destruct (ObfsConn_Write_succeeds p c (proj1 (proj2 Hfit)) Hok)
    as (cw & Hw & Hlog & Hwr & _).
  exists cw.
  split; [exact Hw|]. split; [exact Hlog|]. split; [exact Hwr|].
  intros Hseg.
  rewrite <- (app_nil_r (frame p)) in Hseg, Hlen, Hfeed.
  destruct (read_frame_after_handshake b rcv (wremain (rc c)) p [] Hrole Hc Hseg Hlen
              Hfeed Hfit)
    as (out & Hrd & He & Hn & Hd & Hf & Hcl & _).
  exists out. repeat split; try assumption; apply Hf.
Qed.

End FramerMore.

(** X20.  A read of a RemainConn that returns a nil error loses no byte
    and keeps the order: the bytes it returns, followed by the bytes
    still ahead, are the bytes that were ahead; it returns at most as
    many bytes as asked for, reports their number, and leaves the write
    side of the connection alone. *)
Theorem RemainConn_Read_keeps_stream (k : nat) (r : RemainConn) :
  let res := RemainConn_Read k r in
  write_side (rd_st res) = write_side r /\
  length (rd_data res) <= k /\
  (rd_err res = None ->
   rd_data res ++ pending (rd_st res) = pending r /\
   rd_n res = Z.of_nat (length (rd_data res))).
Proof.
  cbn zeta.
  destruct (remain r) as [|y rm] eqn:Hrm.
  - unfold RemainConn_Read, pending, write_side. rewrite Hrm.
    cbn [rd_st rd_data rd_err rd_n remain conn wremain app].
    unfold conn_Read.
    destruct (inbound (conn r)) as [|[seg|e] evs];
      cbn [rd_st rd_data rd_err rd_n wr_script wlog closes close_err inbound length];
      try (split; [reflexivity | split; [lia | discriminate]]).
    assert (Hl : length (firstn k seg) <= k) by (rewrite length_firstn; lia).
    destruct (skipn k seg) as [|z rest] eqn:Hsk;
      cbn [rd_st rd_data rd_err rd_n wr_script wlog closes close_err inbound data_ahead].
    + split; [reflexivity|]. split; [exact Hl|]. intros _. split; [|reflexivity].
      f_equal. rewrite <- (firstn_skipn k seg) at 2. rewrite Hsk, app_nil_r. reflexivity.
    + split; [reflexivity|]. split; [exact Hl|]. intros _. split; [|reflexivity].
      rewrite app_assoc. f_equal. rewrite <- Hsk. apply firstn_skipn.
  - rewrite RemainConn_Read_remain by congruence.
    unfold pending, write_side. cbn [rd_st rd_data rd_err rd_n remain conn wremain].
    rewrite Hrm.
    split; [reflexivity|]. split; [rewrite length_firstn; lia|].
    intros _. split; [|reflexivity].
    rewrite app_assoc, firstn_skipn. reflexivity.
Qed.

(* ------------------------------------------------------------------ *)
(** ** Dialling *)

Section DialFacts.

Context {D : ExternDial}.

Lemma pick_host_some (hosts : list bytes) (rnd : Z) :
  (0 <= rnd)%Z ->
  exists host,
    pick_host hosts rnd = Some host /\
    match hosts with
    | [] => host = defaultObfsHost
    | _ => nth_error hosts (Z.to_nat (Z.rem rnd (Z.of_nat (length hosts)))) = Some host
    end.
Proof.
  intros Hr. unfold pick_host.
  destruct hosts as [|h [|h2 rest]].
  - exists defaultObfsHost. split; reflexivity.
  - exists h. split; [reflexivity|]. cbn [length].
    rewrite Z.rem_1_r. reflexivity.
  - set (hosts := h :: h2 :: rest).
    assert (Hlen : (0 < Z.of_nat (length hosts))%Z) by (unfold hosts; cbn [length]; lia).
    pose proof (Z.rem_bound_pos rnd (Z.of_nat (length hosts)) Hr Hlen) as Hb.
    destruct (Z.ltb_spec (Z.rem rnd (Z.of_nat (length hosts))) 0) as [?|_]; [lia|].
    destruct (nth_error hosts (Z.to_nat (Z.rem rnd (Z.of_nat (length hosts))))) as [x|] eqn:Hn.
    + exists x. split; reflexivity.
    + apply nth_error_None in Hn. lia.
Qed.

(** X16.  [DialObfs] with a random number that is not negative never
    panics.  It fails only when the pool has no connection and the dial
    fails too, and then with the dial's error.  Otherwise it returns a
    framer in the dial role whose unsent bytes are the request header
    built for one host name, one of the configured hosts, or the default
    when none is configured; a connection out of the pool that is a framer
    is reused with its connection, look-ahead bytes, pool and state, any
    other connection is wrapped in a fresh framer with the configuration's
    pool. *)
Theorem DialObfs_cases (got : pooled + error) (dialed : NetConn + error) (rnd : Z)
    (cfg : DialConfig) :
  (0 <= rnd)%Z ->
  match DialObfs got dialed rnd cfg with
  | Panics => False
  | Returns (inr e) => (exists e0, got = inr e0) /\ dialed = inr e
  | Returns (inl c) =>
      resp c = true /\
      (exists host,
         wremain (rc c) = buildHTTPRequest (host_lines host) /\
         (In host (ObfsHost cfg) \/ ObfsHost cfg = [] /\ host = defaultObfsHost)) /\
      match got, dialed with
      | inl (PooledObfs c0), _ =>
          conn (rc c) = conn (rc c0) /\ remain (rc c) = remain (rc c0) /\
          pool c = pool c0 /\ chunkLen c = chunkLen c0 /\ req c = req c0 /\
          eos c = eos c0 /\ reading c = reading c0 /\ destroy c = destroy c0
      | inl (PooledOther nc), _ | inr _, inl nc =>
          conn (rc c) = nc /\ remain (rc c) = [] /\
          pool c = dial_pool cfg /\ chunkLen c = 0%Z /\ req c = false /\
          eos c = false /\ reading c = false /\ destroy c = false
      | inr _, inr _ => False
      end
  end.
Proof.
  intros Hr.
  destruct (pick_host_some (ObfsHost cfg) rnd Hr) as (host & Hpick & Hhost).
  assert (Hin : In host (ObfsHost cfg) \/ ObfsHost cfg = [] /\ host = defaultObfsHost).
  { destruct (ObfsHost cfg) as [|h hs] eqn:Hh.
    - right. split; [reflexivity | exact Hhost].
    - left. eapply nth_error_In. exact Hhost. }
  unfold DialObfs.
  destruct got as [[c|nc]|e0]; [| |destruct dialed as [nc|e]]; try rewrite Hpick;
    cbn [rc conn remain wremain resp req chunkLen pool eos reading destroy].
  - split; [reflexivity|]. split; [exists host; split; [reflexivity | exact Hin]|].
    repeat split.
  - split; [reflexivity|]. split; [exists host; split; [reflexivity | exact Hin]|].
    repeat split.
  - split; [reflexivity|]. split; [exists host; split; [reflexivity | exact Hin]|].
    repeat split.
  - split; [exists e0; reflexivity | reflexivity].
Qed.

End DialFacts.

(* ================================================================== *)
(** * The further statements on concrete connections *)

(** The sample run on a fresh connection with 4096-byte buffers. *)
Lemma delay_run_safe_witness :
  exists c',
    @delay_run sample_extern sample_run (@NewDelayConn sample_extern (fresh_conn []))
      = Returns c' /\
    length (wbuf c') = @buffersize sample_extern /\ off c' < @buffersize sample_extern.
Proof.
  apply (@delay_run_safe sample_extern (fresh_conn []) sample_run).
  vm_compute. lia.
Defined.

Lemma delay_run_stream_witness :
  exists c',
    @delay_run sample_extern sample_run (@NewDelayConn sample_extern (fresh_conn []))
      = Returns c' /\
    concat (wlog (dconn c')) ++ firstn (off c') (wbuf c') = ping ++ GET ++ ping.
Proof.
  apply (@delay_run_stream sample_extern (fresh_conn []) sample_run).
  vm_compute. lia.
Defined.

Lemma delay_run_calls_witness :
  exists c',
    @delay_run sample_extern sample_run (@NewDelayConn sample_extern (fresh_conn []))
      = Returns c' /\
    length (wlog (dconn c')) + (if off c' =? 0 then 0 else 1) <= 3.
Proof.
  apply (@delay_run_calls sample_extern (fresh_conn []) sample_run).
  vm_compute. lia.
Defined.

Lemma delay_run_closed_once_witness :
  exists c',
    @delay_run sample_extern sample_run (@NewDelayConn sample_extern (fresh_conn []))
      = Returns c' /\
    closes (dconn c') = (if destroyed c' then 1 else 0) /\
    die_closed c' = destroyed c'.
Proof.
  apply (@delay_run_closed_once sample_extern (fresh_conn []) sample_run).
  vm_compute. lia.
Defined.

(** A turn of the flush loop on a DelayConn that holds ["ping"], the
    application writing ["GET"] while the loop waits for its tick. *)
Lemma sendLoopOnce_windows_witness :
  match sendLoopOnce idle (@delay_step sample_extern (AppWrite GET))
          false holding_ping with
  | Returns (ok, c') =>
      @delay_wf sample_extern c' /\
      (exists added, delay_stream c' = delay_stream holding_ping ++ added) /\
      closed_once 0 c' /\
      (ok = false -> destroyed c' = true)
  | Panics =>
      (off holding_ping = 0 /\ idle holding_ping = Panics) \/
      (exists c1, @delay_step sample_extern (AppWrite GET) c1 = Panics)
  end.
Proof.
  apply (@sendLoopOnce_windows sample_extern 0 idle
           (@delay_step sample_extern (AppWrite GET)) false holding_ping).
  - intros x Hx. exists [], 0. unfold idle.
    split; [exact Hx|]. split; [now rewrite app_nil_r|]. split; [lia | auto].
  - intros x Hx.
    destruct (@delay_step_kept sample_extern 0 (AppWrite GET) x Hx) as (x' & Hs & Hk).
    rewrite Hs. eexists. eexists. exact Hk.
  - split; [reflexivity | vm_compute; lia].
  - split; reflexivity.
Defined.

(** A 3-byte buffer on a chunk that holds ["ping"]: the read returns a
    first piece of the payload. *)
Lemma open_chunk_read_witness :
  exists j out,
    1 <= j <= 3 /\
    @readInLock sample_extern (make_slice 3)
      (mid_chunk 6 [RdData (ping ++ [CR; LF])]) = Some (Returns out) /\
    ret_err out = None /\
    ret_n out = Z.min (Z.of_nat j) 4 /\
    firstn j (vis (ret_buf out)) = firstn j (ping ++ [CR; LF]).
Proof.
  destruct (@open_chunk_read sample_extern (make_slice 3)
              (mid_chunk 6 [RdData (ping ++ [CR; LF])]) x70 [x69; x6e; x67; CR; LF])
    as (j & out & Hj & _ & Hrd & He & Hn & Hd & _).
  - vm_compute. discriminate.
  - split; reflexivity.
  - vm_compute. lia.
  - repeat constructor. discriminate.
  - reflexivity.
  - exists j, out. repeat split; try assumption; apply Hj.
Defined.

(** Two frames that arrive together are read back as ["ping"], then
    ["GET"]. *)
Lemma frames_read_back_in_order_witness :
  exists c',
    @reads_back sample_extern [ping; GET] (make_slice 8)
      (framer_on [RdData (frame ping ++ frame GET)] None) c' /\
    chunkLen c' = 0%Z.
Proof.
  destruct (@frames_read_back_in_order sample_extern [ping; GET] (make_slice 8)
              (framer_on [RdData (frame ping ++ frame GET)] None) [])
    as (c' & Hrb & _ & Hc & _).
  - split; reflexivity.
  - reflexivity.
  - repeat constructor; try discriminate; vm_compute; lia.
  - vm_compute. reflexivity.
  - exists c'. split; assumption.
Defined.

(** The request header and a frame as look-ahead: a one-byte read
    returns the first byte of the frame. *)
Lemma handshake_consumes_header_witness :
  exists c',
    framing c' /\
    @doRead sample_extern 1 (accepting (sample_request ++ frame ping))
      = Rd 1 [x34] None c' /\
    pending (rc c') = [CR; LF] ++ ping ++ [CR; LF].
Proof.
  destruct (@handshake_consumes_header sample_extern 1
              (accepting (sample_request ++ frame ping)) sample_request (frame ping))
    as (c' & Hf & _ & _ & _ & Hrd & Hp).
  - reflexivity.
  - reflexivity.
  - vm_compute. lia.
  - vm_compute. reflexivity.
  - lia.
  - exists c'. split; [exact Hf|]. split; [exact Hrd|].
    vm_compute in Hp. vm_compute.
    injection Hp as Hp. exact (eq_sym Hp).
Defined.

(** Only ["POST"] has arrived: the first read fails and the four bytes
    are gone. *)
Lemma handshake_incomplete_header_witness :
  exists out,
    @readInLock sample_extern (make_slice 8) (accepting POST) = Some (Returns out) /\
    ret_n out = 4%Z /\ ret_err out = Some ErrUnexpectedHeader /\
    req (ret_conn out) = true /\ pending (rc (ret_conn out)) = [].
Proof.
  destruct (@handshake_incomplete_header sample_extern (make_slice 8) (accepting POST) 4)
    as (out & Hrd & Hn & He & _ & Hq & _ & _ & Hp).
  - reflexivity.
  - reflexivity.
  - vm_compute. lia.
  - discriminate.
  - vm_compute. lia.
  - vm_compute. reflexivity.
  - exists out. split; [exact Hrd|]. split; [exact Hn|]. split; [exact He|].
    split; [exact Hq|].
    vm_compute in Hp. injection Hp as Hp. exact (eq_sym Hp).
Defined.

(** Two writes on a dialling framer: the request header travels with the
    first frame. *)
Lemma header_sent_once_witness :
  exists c',
    ObfsConn_Write_all [ping; GET] (dialling sample_request) = Returns (None, c') /\
    wlog (conn (rc c')) = [sample_request ++ frame ping; frame GET] /\
    wremain (rc c') = [].
Proof.
  destruct (@header_sent_once [ping; GET] (dialling sample_request))
    as (c' & Hrun & Hlog & Hw & _).
  - repeat constructor.
  - constructor.
  - exists c'. split; [exact Hrun|]. split; [exact Hlog|]. apply Hw. discriminate.
Defined.

(** The request header and two frames arrive together on an accepted
    connection. *)
Lemma accepted_reads_back_witness :
  exists c c',
    @obfsAcceptHandler sample_extern
      (fresh_conn [RdData (sample_request ++ concat (map frame [ping; GET]) ++ [])])
      plain_listener = AcceptObfs c /\
    @reads_back sample_extern [ping; GET] (make_slice 8) c c' /\
    wremain (rc c') = sample_response.
Proof.
  destruct (@accepted_reads_back sample_extern
              (fresh_conn [RdData (sample_request ++ concat (map frame [ping; GET]) ++ [])])
              plain_listener [] sample_request [ping; GET] [] (make_slice 8))
    as (c & c' & Hacc & Hrb & Hw & _).
  - reflexivity.
  - vm_compute. lia.
  - reflexivity.
  - vm_compute. reflexivity.
  - repeat constructor; try discriminate; vm_compute; lia.
  - exists c, c'. repeat split; assumption.
Defined.

(** The carriage return of a trailer arrives alone, the line feed with
    the next frame. *)
Lemma split_trailer_fails_witness :
  exists out,
    @readInLock sample_extern (make_slice 8)
      (mid_chunk 2 [RdData [CR]; RdData (LF :: frame ping)]) = Some (Returns out) /\
    ret_err out = Some ErrIncorrectChunked /\
    pending (rc (ret_conn out)) = frame ping.
Proof.
  destruct (@split_trailer_fails sample_extern (make_slice 8)
              (mid_chunk 2 [RdData [CR]; RdData (LF :: frame ping)]) (frame ping) [])
    as (out & Hrd & He & _ & _ & Hp).
  - split; reflexivity.
  - reflexivity.
  - vm_compute. lia.
  - vm_compute. lia.
  - reflexivity.
  - reflexivity.
  - exists out. split; [exact Hrd|]. split; [exact He|].
    rewrite Hp. apply app_nil_r.
Defined.

(** The chunk-length line ["7fffffffffffffff"]. *)
Lemma chunk_length_wraps_and_panics_witness :
  @readInLock sample_extern (make_slice 8)
    (framer_on [RdData (max_int_line ++ [LF] ++ ping)] None) = Some Panics.
Proof.
  destruct (delivers_segment (max_int_line ++ [LF])
              (rc (framer_on [RdData (max_int_line ++ [LF] ++ ping)] None)) ping)
    as (r1 & Hd & _).
  - vm_compute. reflexivity.
  - discriminate.
  - apply (@chunk_length_wraps_and_panics sample_extern (make_slice 8)
             (framer_on [RdData (max_int_line ++ [LF] ++ ping)] None)
             max_int_line r1 (2 ^ 63 - 1)%Z).
    + reflexivity.
    + split; reflexivity.
    + vm_compute. lia.
    + exact Hd.
    + repeat constructor.
    + vm_compute. reflexivity.
    + lia.
Defined.

(** The pool is empty, the dial succeeds, three hosts are configured and
    the random number is 7. *)
Lemma DialObfs_cases_witness :
  match @DialObfs sample_dial (inr ErrEOF) (inl (fresh_conn [])) 7
          (MkDialConfig (Some 0) [ping; GET; POST]) with
  | Returns (inl c) =>
      resp c = true /\ wremain (rc c) = @buildHTTPRequest sample_dial (host_lines GET) /\
      pool c = Some 0
  | _ => False
  end.
Proof.
  pose proof (@DialObfs_cases sample_dial (inr ErrEOF) (inl (fresh_conn [])) 7
                (MkDialConfig (Some 0) [ping; GET; POST])) as H.
  assert (H7 : (0 <= 7)%Z) by lia.
  specialize (H H7).
  destruct (@DialObfs sample_dial (inr ErrEOF) (inl (fresh_conn [])) 7
              (MkDialConfig (Some 0) [ping; GET; POST])) as [[c|e]|] eqn:Hd;
    [| vm_compute in Hd; discriminate | exact H].
  destruct H as (Hr & _ & _ & _ & Hp & _).
  split; [exact Hr|]. split; [|exact Hp].
  vm_compute in Hd. injection Hd as <-. reflexivity.
Defined.

(** Closing a pooled framer whose peer has sent its marker. *)
Lemma ObfsConn_Close_total_witness :
  exists out,
    @ObfsConn_Close sample_extern (framer_on [RdData marker_wire] (Some 0)) open_pool
      = Some out.
Proof.
  apply (@ObfsConn_Close_total sample_extern (framer_on [RdData marker_wire] (Some 0))
           open_pool).
  vm_compute. lia.
Defined.


(** A dialling framer writes ["ping"]; the write arrives whole at an
    accepting framer, whose first read returns ["ping"]. *)
Lemma handshake_roundtrip_witness :
  exists cw out,
    ObfsConn_Write ping (dialling sample_request) = Returns (Wr 4 None cw) /\
    wlog (conn (rc cw)) = [sample_request ++ frame ping] /\
    @readInLock sample_extern (make_slice 8) (accepting (sample_request ++ frame ping))
      = Some (Returns out) /\
    ret_err out = None /\ firstn 4 (vis (ret_buf out)) = ping.
Proof.
  destruct (@handshake_roundtrip sample_extern (dialling sample_request)
              (accepting (sample_request ++ frame ping)) ping (make_slice 8))
    as (cw & Hw & Hlog & _ & Hread).
  - constructor.
  - split; [discriminate | split; vm_compute; [reflexivity | lia]].
  - reflexivity.
  - reflexivity.
  - vm_compute. lia.
  - vm_compute. reflexivity.
  - destruct (Hread eq_refl) as (out & Hrd & He & _ & Hd & _).
    exists cw, out. split; [exact Hw|]. split; [exact Hlog|].
    split; [exact Hrd|]. split; [exact He | exact Hd].
Defined.
